(** * MG Sprite Customiser: the compositing engine, embedded and verified

    A shallow embedding of the sprite compositing engine:

    - [color-math.ts] and [mutation-engine.ts] (blend fallback, masked and
      flat tints, the mutation pipeline),
    - [mutation-defs.ts] (the filter table and the rendering order),
    - [icon-layout.ts] (icon placement),
    - [render-cache.ts] (the LRU cache of rendered slots),
    - [gif/decoder.ts] and [gif/frame-scheduler.ts],
    - [canvas-renderer.ts] ([renderSlot]).

    Numbers are exact rationals ([Q]): the blend algebra is the one the
    source states in its comments, without the 8-bit quantisation of a real
    canvas.  The browser (2D canvas, CSS colour parser, [Math], clock, image
    loader) is an interface, [Platform]; the repository's functions are
    written over it. *)

From Stdlib Require Import ZArith QArith Qabs Qround Qminmax Qfield Lqa Lia.
From Stdlib Require Import List String Ascii Bool Permutation Sorted DecimalString.
Import ListNotations.

Local Open Scope Z_scope.
Local Open Scope Q_scope.

(* ================================================================== *)
(** * Part I. Definitions *)
(* ================================================================== *)

(** ** Colours and pixels *)

(** A CSS colour as the canvas sees it after parsing: straight
    (non-premultiplied) components in [[0,1]]. *)
Record Colour : Type := mkColour { cr : Q; cg : Q; cb : Q; ca : Q }.

(** A pixel of a canvas backing store: premultiplied components, the form in
    which the source-atop formula of [mutation-engine.ts] is written
    ([result = src × αs × αd + dst × αd × (1 - αs)], [αo = αd]). *)
Record Pixel : Type := mkPixel { pr : Q; pg : Q; pb : Q; pa : Q }.

Definition transparent : Pixel := mkPixel 0 0 0 0.

Definition premultiply (c : Colour) : Pixel :=
  mkPixel (cr c * ca c) (cg c * ca c) (cb c * ca c) (ca c).

(** What [getImageData] reads back: a fully transparent pixel has no colour
    left and reads as transparent black. *)
Definition unpremultiply (p : Pixel) : Colour :=
  if Qeq_bool (pa p) 0 then mkColour 0 0 0 0
  else mkColour (pr p / pa p) (pg p / pa p) (pb p / pa p) (pa p).

Definition scalePixel (k : Q) (p : Pixel) : Pixel :=
  mkPixel (k * pr p) (k * pg p) (k * pb p) (k * pa p).

Definition pixel_eq (p q : Pixel) : Prop :=
  pr p == pr q /\ pg p == pg q /\ pb p == pb q /\ pa p == pa q.

Definition colour_eq (c d : Colour) : Prop :=
  cr c == cr d /\ cg c == cg d /\ cb c == cb d /\ ca c == ca d.

(** A premultiplied pixel: no colour without coverage. *)
Definition premultiplied (p : Pixel) : Prop :=
  pa p == 0 -> pr p == 0 /\ pg p == 0 /\ pb p == 0.

(** [carries p c a]: the pixel [p] holds colour [c] at coverage [a]. *)
Definition carries (p : Pixel) (c : Colour) (a : Q) : Prop :=
  pa p == a /\ pr p == a * cr c /\ pg p == a * cg c /\ pb p == a * cb c.

(** The colour [t·α + c·(1-α)], alpha left to the caller. *)
Definition mixColour (t : Colour) (alpha : Q) (c : Colour) : Colour :=
  mkColour (cr t * alpha + cr c * (1 - alpha))
           (cg t * alpha + cg c * (1 - alpha))
           (cb t * alpha + cb c * (1 - alpha))
           (ca c).

(** A [CanvasGradient]: the two end points and the colour stops, as
    [createLinearGradient] and [addColorStop] receive them. *)
Record CanvasGradient : Type := mkGradient {
  gx0 : Q; gy0 : Q; gx1 : Q; gy1 : Q;
  stops : list (Q * string)
}.

(** [g.addColorStop(offset, c)] for a colour [c] the CSS parser accepts; on
    any other string the method throws a [SyntaxError]. *)
Definition addColorStop (g : CanvasGradient) (offset : Q) (c : string) : CanvasGradient :=
  mkGradient (gx0 g) (gy0 g) (gx1 g) (gy1 g) (stops g ++ [(offset, c)]).

Definition createLinearGradient (x0 y0 x1 y1 : Q) : CanvasGradient :=
  mkGradient x0 y0 x1 y1 [].

(** An [HTMLImageElement] once loaded: its natural size and its pixels. *)
Record HTMLImageElement : Type := mkImage {
  naturalWidth : Z;
  naturalHeight : Z;
  imagePixel : Z -> Z -> Pixel
}.

(** ** The browser *)

(** What the source takes from its host and the repository does not define.
    - [honours op]: assigning [op] to [globalCompositeOperation] sticks (the
      probe of [color-math.ts] reads it back);
    - [cssColor]: the CSS colour parser, [None] for a string it rejects;
    - [Math_PI], [Math_cos], [Math_sin]: the doubles of [Math], as rationals;
    - [gradientColour g x y]: the colour a linear gradient paints at pixel
      [(x, y)];
    - [resample w h src dx dy dw dh x y]: what a [w]×[h] bitmap [src], drawn
      into the rectangle [(dx, dy, dw, dh)], contributes at pixel [(x, y)];
    - [numberToString]: a number inside a template string;
    - [World]: the state of the host the program cannot see (clock,
      network); [Date_now] reads the clock, [spriteLoader_load] awaits
      [spriteLoader.load(url)], [None] when the promise rejects. *)
Class Platform : Type := {
  honours : string -> bool;
  cssColor : string -> option Colour;
  Math_PI : Q;
  Math_cos : Q -> Q;
  Math_sin : Q -> Q;
  gradientColour : CanvasGradient -> Z -> Z -> Colour;
  resample : Z -> Z -> (Z -> Z -> Pixel) -> Q -> Q -> Q -> Q -> Z -> Z -> Pixel;
  numberToString : Q -> string;
  World : Type;
  Date_now : World -> Z * World;
  spriteLoader_load : World -> string -> option HTMLImageElement * World
}.

(** ** The 2D canvas *)

Module Canvas2D.

Inductive CompositeOp : Type :=
  | SourceOver | SourceAtop | DestinationIn | Lighter
  | Color | Hue | Saturation | Luminosity | Overlay | Screen.

Definition op_name (op : CompositeOp) : string :=
  match op with
  | SourceOver => "source-over" | SourceAtop => "source-atop"
  | DestinationIn => "destination-in" | Lighter => "lighter"
  | Color => "color" | Hue => "hue" | Saturation => "saturation"
  | Luminosity => "luminosity" | Overlay => "overlay" | Screen => "screen"
  end%string.

Definition all_ops : list CompositeOp :=
  [SourceOver; SourceAtop; DestinationIn; Lighter;
   Color; Hue; Saturation; Luminosity; Overlay; Screen].

Definition op_of_string (s : string) : option CompositeOp :=
  find (fun op => String.eqb (op_name op) s) all_ops.

(** *** Blend functions (W3C Compositing and Blending, on straight colours) *)

Definition RGB : Type := (Q * Q * Q)%type.

Definition rgb_of (c : Colour) : RGB := (cr c, cg c, cb c).

Definition Qmin3 (a b c : Q) : Q := Qmin a (Qmin b c).
Definition Qmax3 (a b c : Q) : Q := Qmax a (Qmax b c).

Definition Lum (c : RGB) : Q := let '(r, g, b) := c in 0.3 * r + 0.59 * g + 0.11 * b.

Definition ClipColor (c : RGB) : RGB :=
  let '(r, g, b) := c in
  let l := Lum c in
  let n := Qmin3 r g b in
  let x := Qmax3 r g b in
  let '(r1, g1, b1) :=
    if Qlt_le_dec n 0
    then (l + (r - l) * l / (l - n), l + (g - l) * l / (l - n), l + (b - l) * l / (l - n))
    else (r, g, b) in
  if Qlt_le_dec 1 x
  then (l + (r1 - l) * (1 - l) / (x - l),
        l + (g1 - l) * (1 - l) / (x - l),
        l + (b1 - l) * (1 - l) / (x - l))
  else (r1, g1, b1).

Definition SetLum (c : RGB) (l : Q) : RGB :=
  let '(r, g, b) := c in
  let d := l - Lum c in
  ClipColor (r + d, g + d, b + d).

Definition Sat (c : RGB) : Q := let '(r, g, b) := c in Qmax3 r g b - Qmin3 r g b.

Definition SetSat (c : RGB) (s : Q) : RGB :=
  let '(r, g, b) := c in
  let n := Qmin3 r g b in
  let x := Qmax3 r g b in
  if Qlt_le_dec n x
  then ((r - n) * s / (x - n), (g - n) * s / (x - n), (b - n) * s / (x - n))
  else (0, 0, 0).

Definition screenCh (b s : Q) : Q := b + s - b * s.
Definition multiplyCh (b s : Q) : Q := b * s.
Definition hardLightCh (b s : Q) : Q :=
  if Qlt_le_dec (1 # 2) s then screenCh b (2 * s - 1) else multiplyCh b (2 * s).
Definition overlayCh (b s : Q) : Q := hardLightCh s b.

Definition perChannel (f : Q -> Q -> Q) (b s : RGB) : RGB :=
  let '(br, bg, bb) := b in
  let '(sr, sg, sb) := s in
  (f br sr, f bg sg, f bb sb).

(** [mix op Cb Cs]: the blend function [B(Cb, Cs)] of a blend mode. *)
Definition mix (op : CompositeOp) (b s : RGB) : RGB :=
  match op with
  | Color => SetLum s (Lum b)
  | Hue => SetLum (SetSat s (Sat b)) (Lum b)
  | Saturation => SetLum (SetSat b (Sat s)) (Lum b)
  | Luminosity => SetLum b (Lum s)
  | Overlay => perChannel overlayCh b s
  | Screen => perChannel screenCh b s
  | _ => s
  end.

(** *** Compositing one source pixel [s] onto a backdrop pixel [b] *)

(** Porter-Duff with coverage fractions [Fa] (source) and [Fb] (backdrop). *)
Definition porterDuff (Fa Fb : Q) (s b : Pixel) : Pixel :=
  mkPixel (pr s * Fa + pr b * Fb) (pg s * Fa + pg b * Fb)
          (pb s * Fa + pb b * Fb) (pa s * Fa + pa b * Fb).

Definition clampPixel (p : Pixel) : Pixel :=
  mkPixel (Qmin 1 (pr p)) (Qmin 1 (pg p)) (Qmin 1 (pb p)) (Qmin 1 (pa p)).

(** A blend mode composites source-over with the blended colour:
    [co = αs(1-αb)Cs + αs αb B(Cb,Cs) + (1-αs) αb Cb], [αo = αs + αb(1-αs)]. *)
Definition blendOver (op : CompositeOp) (s b : Pixel) : Pixel :=
  let '(mr, mg, mb) := mix op (rgb_of (unpremultiply b)) (rgb_of (unpremultiply s)) in
  mkPixel ((1 - pa b) * pr s + pa s * pa b * mr + (1 - pa s) * pr b)
          ((1 - pa b) * pg s + pa s * pa b * mg + (1 - pa s) * pg b)
          ((1 - pa b) * pb s + pa s * pa b * mb + (1 - pa s) * pb b)
          (pa s + pa b * (1 - pa s)).

Definition composite (op : CompositeOp) (s b : Pixel) : Pixel :=
  match op with
  | SourceOver => porterDuff 1 (1 - pa s) s b
  | SourceAtop => porterDuff (pa b) (1 - pa s) s b
  | DestinationIn => porterDuff 0 (pa s) s b
  | Lighter => clampPixel (porterDuff 1 1 s b)
  | Color | Hue | Saturation | Luminosity | Overlay | Screen => blendOver op s b
  end.

(** *** The canvas element and its context *)

Inductive Paint : Type :=
  | PaintColour (c : Colour)
  | PaintGradient (g : CanvasGradient).

Record DrawState : Type := mkDrawState {
  globalCompositeOperation : CompositeOp;
  globalAlpha : Q;
  fillStyle : Paint
}.

Definition defaultState : DrawState :=
  mkDrawState SourceOver 1 (PaintColour (mkColour 0 0 0 1)).

(** An [HTMLCanvasElement] with its one 2D context: the bitmap, the current
    drawing state and the stack of [save]. *)
Record HTMLCanvasElement : Type := mkCanvas {
  width : Z;
  height : Z;
  bitmap : Z -> Z -> Pixel;
  state : DrawState;
  saved : list DrawState
}.

Definition inside (c : HTMLCanvasElement) (x y : Z) : bool :=
  ((0 <=? x) && (x <? width c) && (0 <=? y) && (y <? height c))%Z.

Definition inRect (rx ry rw rh x y : Z) : bool :=
  ((rx <=? x) && (x <? rx + rw) && (ry <=? y) && (y <? ry + rh))%Z.

(** [document.createElement('canvas')] followed by setting the size. *)
Definition createCanvas (w h : Z) : HTMLCanvasElement :=
  mkCanvas w h (fun _ _ => transparent) defaultState [].

(** The pixel a reader sees: transparent outside the bitmap. *)
Definition pixelAt (c : HTMLCanvasElement) (x y : Z) : Pixel :=
  if inside c x y then bitmap c x y else transparent.

Definition withBitmap (c : HTMLCanvasElement) (bm : Z -> Z -> Pixel) : HTMLCanvasElement :=
  mkCanvas (width c) (height c) bm (state c) (saved c).

Definition withState (c : HTMLCanvasElement) (s : DrawState) : HTMLCanvasElement :=
  mkCanvas (width c) (height c) (bitmap c) s (saved c).

Definition save (c : HTMLCanvasElement) : HTMLCanvasElement :=
  mkCanvas (width c) (height c) (bitmap c) (state c) (state c :: saved c).

Definition restore (c : HTMLCanvasElement) : HTMLCanvasElement :=
  match saved c with
  | [] => c
  | s :: rest => mkCanvas (width c) (height c) (bitmap c) s rest
  end.

Section WithPlatform.
Context {P : Platform}.

(** Assigning an operator the runtime does not honour (or does not know)
    leaves the current one. *)
Definition set_globalCompositeOperation (c : HTMLCanvasElement) (s : string) : HTMLCanvasElement :=
  match op_of_string s with
  | Some op =>
      if honours s
      then withState c (mkDrawState op (globalAlpha (state c)) (fillStyle (state c)))
      else c
  | None => c
  end.

(** Assigning a value outside [[0,1]] to [globalAlpha] is ignored. *)
Definition set_globalAlpha (c : HTMLCanvasElement) (a : Q) : HTMLCanvasElement :=
  if Qle_bool 0 a && Qle_bool a 1
  then withState c (mkDrawState (globalCompositeOperation (state c)) a (fillStyle (state c)))
  else c.

(** Assigning a string that is no CSS colour to [fillStyle] is ignored. *)
Definition set_fillStyle (c : HTMLCanvasElement) (s : string) : HTMLCanvasElement :=
  match cssColor s with
  | Some col =>
      withState c (mkDrawState (globalCompositeOperation (state c)) (globalAlpha (state c))
                               (PaintColour col))
  | None => c
  end.

Definition set_fillStyle_gradient (c : HTMLCanvasElement) (g : CanvasGradient) : HTMLCanvasElement :=
  withState c (mkDrawState (globalCompositeOperation (state c)) (globalAlpha (state c))
                           (PaintGradient g)).

Definition paintAt (p : Paint) (x y : Z) : Colour :=
  match p with
  | PaintColour c => c
  | PaintGradient g => gradientColour g x y
  end.

(** The source pixel a drawing call contributes: premultiplied, times
    [globalAlpha]. *)
Definition drawPixel (c : HTMLCanvasElement) (src : Pixel) (x y : Z) : Pixel :=
  composite (globalCompositeOperation (state c))
            (scalePixel (globalAlpha (state c)) src)
            (bitmap c x y).

Definition fillRect (c : HTMLCanvasElement) (rx ry rw rh : Z) : HTMLCanvasElement :=
  withBitmap c (fun x y =>
    if inside c x y && inRect rx ry rw rh x y
    then drawPixel c (premultiply (paintAt (fillStyle (state c)) x y)) x y
    else bitmap c x y).

End WithPlatform.

Definition clearRect (c : HTMLCanvasElement) (rx ry rw rh : Z) : HTMLCanvasElement :=
  withBitmap c (fun x y =>
    if inside c x y && inRect rx ry rw rh x y then transparent else bitmap c x y).

(** [drawImage] handed a canvas whose width or height is 0 throws an
    [InvalidStateError]; [drawable src] says that it does not. *)
Definition drawable (src : HTMLCanvasElement) : bool :=
  ((0 <? width src) && (0 <? height src))%Z.

(** [ctx.drawImage(src, dx, dy)] with a canvas as source, at integer
    offsets: every pixel of [c] under the image is composited.  This is the
    bitmap a call that returns leaves. *)
Definition drawImage (c src : HTMLCanvasElement) (dx dy : Z) : HTMLCanvasElement :=
  withBitmap c (fun x y =>
    if inside c x y && inside src (x - dx) (y - dy)
    then composite (globalCompositeOperation (state c))
                   (scalePixel (globalAlpha (state c)) (bitmap src (x - dx) (y - dy)))
                   (bitmap c x y)
    else bitmap c x y).

(** [ImageData]: straight RGBA, here as a function of the pixel. *)
Record ImageData : Type := mkImageData {
  idWidth : Z;
  idHeight : Z;
  idColour : Z -> Z -> Colour
}.

Definition getImageData (c : HTMLCanvasElement) (sx sy sw sh : Z) : ImageData :=
  mkImageData sw sh (fun x y => unpremultiply (pixelAt c (sx + x) (sy + y))).

(** [putImageData] replaces pixels; no compositing, no [globalAlpha]. *)
Definition putImageData (c : HTMLCanvasElement) (d : ImageData) (dx dy : Z) : HTMLCanvasElement :=
  withBitmap c (fun x y =>
    if inside c x y && inRect dx dy (idWidth d) (idHeight d) x y
    then premultiply (idColour d (x - dx) (y - dy))
    else bitmap c x y).

End Canvas2D.

(** ** [color-math.ts] *)

Module ColorMath.
Import Canvas2D.

(** [Set.prototype.has] on a set of strings. *)
Definition has (s : list string) (x : string) : bool := existsb (String.eqb x) s.

Definition PROBED_OPS : list string :=
  ["color"; "hue"; "saturation"; "luminosity"; "overlay"; "screen"; "lighter"; "source-atop"]%string.

(** The blend operators the runtime honours: each is assigned to a fresh
    context and read back. *)
Definition SUPPORTED_BLEND_OPS {P : Platform} : list string :=
  snd (fold_left
         (fun (acc : HTMLCanvasElement * list string) (op : string) =>
            let g := set_globalCompositeOperation (fst acc) op in
            if String.eqb (op_name (globalCompositeOperation (state g))) op
            then (g, snd acc ++ [op])
            else (g, snd acc))
         PROBED_OPS
         (createCanvas 300 150, [])).

(** [pickBlendOp]; the module-level support set is its first argument. *)
Definition pickBlendOp (supported : list string) (desired : string) : string :=
  if has supported desired then desired
  else if has supported "overlay" then "overlay"
  else if has supported "screen" then "screen"
  else if has supported "lighter" then "lighter"
  else "source-atop".

Record FilterDef : Type := mkFilterDef {
  op : string;
  colors : list string;
  a : option Q;
  ang : option Q;
  angTall : option Q;
  masked : bool
}.

Section WithPlatform.
Context {P : Platform}.

Definition angleGrad (w h : Z) (ang : Q) (fullSpan : bool) : CanvasGradient :=
  let rad := ((ang - 90) * Math_PI) / 180 in
  let cx := inject_Z w / 2 in
  let cy := inject_Z h / 2 in
  if negb fullSpan then
    let r2 := Qmin (inject_Z w) (inject_Z h) / 2 in
    createLinearGradient (cx - Math_cos rad * r2) (cy - Math_sin rad * r2)
                         (cx + Math_cos rad * r2) (cy + Math_sin rad * r2)
  else
    let dx := Math_cos rad in
    let dy := Math_sin rad in
    let r := (Qabs dx * inject_Z w) / 2 + (Qabs dy * inject_Z h) / 2 in
    createLinearGradient (cx - dx * r) (cy - dy * r) (cx + dx * r) (cy + dy * r).

(** [cols.forEach((c, i) => g.addColorStop(i / (cols.length - 1), c))] *)
Fixpoint addStopsFrom (g : CanvasGradient) (i : nat) (n : nat) (cols : list string) : CanvasGradient :=
  match cols with
  | [] => g
  | c :: rest =>
      addStopsFrom (addColorStop g (inject_Z (Z.of_nat i) / (inject_Z (Z.of_nat n) - 1)) c)
                   (S i) n rest
  end.

Definition fillGrad (ctx : HTMLCanvasElement) (w h : Z) (colors : list string)
    (ang : option Q) (fullSpan : bool) : HTMLCanvasElement :=
  let cols := match colors with [] => ["#fff"%string] | _ => colors end in
  let g := match ang with
           | Some an => angleGrad w h an fullSpan
           | None => createLinearGradient 0 0 0 (inject_Z h)
           end in
  let g := match cols with
           | [c] => addColorStop (addColorStop g 0 c) 1 c
           | _ => addStopsFrom g 0 (List.length cols) cols
           end in
  let ctx := set_fillStyle_gradient ctx g in
  fillRect ctx 0 0 w h.

(** The tall-sprite angle override of [applyMaskedFilter]. *)
Definition effectiveAngle (filter : FilterDef) (isTall : bool) : option Q :=
  match isTall, angTall filter with
  | true, Some t => Some t
  | _, _ => ang filter
  end.

(** The canvas [m] of [applyMaskedFilter]: the gradient, masked to the
    shape of [originalBase]. *)
Definition maskedGradient (originalBase : HTMLCanvasElement) (filter : FilterDef)
    (isTall : bool) : HTMLCanvasElement :=
  let f_ang := effectiveAngle filter isTall in
  let fullSpan := isTall && (match f_ang with Some _ => true | None => false end) in
  let w := width originalBase in
  let h := height originalBase in
  let m := createCanvas w h in
  let m := fillGrad m w h (colors filter) f_ang fullSpan in
  let m := set_globalCompositeOperation m "destination-in" in
  drawImage m originalBase 0 0.

(** The canvas [blended] of [applyMaskedFilter]: [m] blended onto a clean
    copy of [originalBase]. *)
Definition blendedCopy (originalBase m : HTMLCanvasElement) (filter : FilterDef)
    : HTMLCanvasElement :=
  let blendOp := pickBlendOp SUPPORTED_BLEND_OPS (op filter) in
  let blended := createCanvas (width originalBase) (height originalBase) in
  let blended := drawImage blended originalBase 0 0 in
  let blended := save blended in
  let blended := set_globalCompositeOperation blended blendOp in
  let blended := match a filter with
                 | Some al => set_globalAlpha blended al
                 | None => blended
                 end in
  let blended := drawImage blended m 0 0 in
  restore blended.

(** [applyMaskedFilter(ctx, originalBase, filter, isTall)]: returns the
    accumulated canvas [ctx] as the call leaves it. *)
Definition applyMaskedFilter (ctx originalBase : HTMLCanvasElement)
    (filter : FilterDef) (isTall : bool) : HTMLCanvasElement :=
  let m := maskedGradient originalBase filter isTall in
  let blended := blendedCopy originalBase m filter in
  (* composite the blended result onto the accumulated canvas *)
  let ctx := save ctx in
  let ctx := set_globalCompositeOperation ctx "source-atop" in
  let ctx := drawImage ctx blended 0 0 in
  restore ctx.

End WithPlatform.
End ColorMath.

(** ** Object literals read as tables *)

Module JsObject.
Local Open Scope string_scope.

(** The property names every object literal inherits from
    [Object.prototype].  For these, [table[name]] is a function (an object
    for [__proto__]) although the literal has no such key: it is not
    [undefined], so [table[name] ?? d] is not [d], [if (table[name])] holds,
    and in arithmetic it is [NaN]. *)
Definition PROTOTYPE_KEYS : list string :=
  ["constructor"; "hasOwnProperty"; "isPrototypeOf"; "propertyIsEnumerable";
   "toLocaleString"; "toString"; "valueOf"; "__proto__";
   "__defineGetter__"; "__defineSetter__"; "__lookupGetter__"; "__lookupSetter__"].

Definition inherited (name : string) : bool :=
  existsb (String.eqb name) PROTOTYPE_KEYS.

(** The names on which a table of this file, which lists the literal's own
    keys, is what [table[name]] reads. *)
Definition ownKeys (names : list string) : Prop :=
  Forall (fun name => inherited name = false) names.

(** [table[name] ?? d] where a number is expected: the entry, the default
    for a name the literal neither has nor inherits, and [None], standing
    for what arithmetic makes of a function ([NaN]), for an inherited
    one. *)
Definition numberOr (table : string -> option Q) (name : string) (d : Q) : option Q :=
  match table name with
  | Some v => Some v
  | None => if inherited name then None else Some d
  end.

End JsObject.

(** ** [mutation-defs.ts] *)

Module MutationDefs.
Import ColorMath.

Local Open Scope string_scope.

Definition flat (colour : string) (alpha : Q) : FilterDef :=
  mkFilterDef "source-atop" [colour] (Some alpha) None None false.

(** [FILTERS[id]]; [None] where the record has no such key.  The tables of
    this file ([FILTERS], [MUTATION_META], [MUTATION_RENDER_ORDER], the icon
    exception tables, the tall-plant anchors) hold the own keys of the
    literals: they are what the source reads for every name but those of
    [JsObject.PROTOTYPE_KEYS], e.g. [constructor] and [toString], where the
    source finds an inherited function.  Statements about ids carry
    [JsObject.ownKeys] where the difference shows. *)
Definition FILTERS (id : string) : option FilterDef :=
  if id =? "Gold" then Some (flat "rgb(235,200,0)" 0.7)
  else if id =? "Rainbow" then
    Some (mkFilterDef "color"
            ["#FF1744"; "#FF9100"; "#FFEA00"; "#00E676"; "#2979FF"; "#D500F9"]
            None (Some 130%Q) (Some 0%Q) true)
  else if id =? "Wet" then Some (flat "rgb(50,180,200)" 0.25)
  else if id =? "Chilled" then Some (flat "rgb(100,160,210)" 0.45)
  else if id =? "Frozen" then Some (flat "rgb(100,130,220)" 0.5)
  else if id =? "Thunderstruck" then Some (flat "transparent" 0)
  else if id =? "Dawnlit" then Some (flat "rgb(209,70,231)" 0.5)
  else if id =? "Ambershine" then Some (flat "rgb(190,100,40)" 0.5)
  else if id =? "Dawncharged" then Some (flat "rgb(140,80,200)" 0.5)
  else if id =? "Ambercharged" then Some (flat "rgb(170,60,25)" 0.5)
  else None.

Record MutationMeta : Type := mkMeta {
  hasOverlay : bool;
  overlayKey : option string;
  tallOverlayKey : option string;
  iconKey : option string;
  tallPlantIconOverride : option string;
  floatingIcon : bool;
  exclusive : bool
}.

(** [MUTATION_META[id]], on the own keys of the literal. *)
Definition MUTATION_META (id : string) : option MutationMeta :=
  if id =? "Gold" then Some (mkMeta false None None None None false true)
  else if id =? "Rainbow" then Some (mkMeta false None None None None false true)
  else if id =? "Wet" then
    Some (mkMeta true (Some "sprite/mutation/Puddle")
            (Some "sprite/mutation-overlay/WetTallPlant")
            (Some "sprite/mutation/Wet") (Some "sprite/mutation/Puddle") false false)
  else if id =? "Chilled" then
    Some (mkMeta true (Some "sprite/mutation/Chilled")
            (Some "sprite/mutation-overlay/ChilledTallPlant")
            (Some "sprite/mutation/Chilled") None false false)
  else if id =? "Frozen" then
    Some (mkMeta true (Some "sprite/mutation/Frozen")
            (Some "sprite/mutation-overlay/FrozenTallPlant")
            (Some "sprite/mutation/Frozen") None false false)
  else if id =? "Thunderstruck" then
    Some (mkMeta true (Some "sprite/mutation/Thunderstruck")
            (Some "sprite/mutation-overlay/ThunderstruckTallPlant")
            (Some "sprite/mutation/Thunderstruck")
            (Some "sprite/mutation/ThunderstruckGround") false false)
  else if id =? "Dawnlit" then
    Some (mkMeta false None None (Some "sprite/mutation/Dawnlit") None true false)
  else if id =? "Ambershine" then
    Some (mkMeta false None None (Some "sprite/mutation/Amberlit") None true false)
  else if id =? "Dawncharged" then
    Some (mkMeta false None None (Some "sprite/mutation/Dawncharged") None true false)
  else if id =? "Ambercharged" then
    Some (mkMeta false None None (Some "sprite/mutation/Ambercharged") None true false)
  else None.

(** [MUTATION_RENDER_ORDER[id]], on the own keys of the literal.  For an
    inherited name the source's comparator subtracts a function and yields
    [NaN]: what [sort] then does is left to the engine, and [renderRank],
    which gives such a name the rank 50, does not describe it. *)
Definition MUTATION_RENDER_ORDER (id : string) : option Z :=
  if id =? "Wet" then Some 0%Z
  else if id =? "Chilled" then Some 1%Z
  else if id =? "Frozen" then Some 2%Z
  else if id =? "Thunderstruck" then Some 3%Z
  else if id =? "Dawnlit" then Some 4%Z
  else if id =? "Ambershine" then Some 5%Z
  else if id =? "Dawncharged" then Some 6%Z
  else if id =? "Ambercharged" then Some 7%Z
  else if id =? "Gold" then Some 8%Z
  else if id =? "Rainbow" then Some 9%Z
  else None.

(** [x ?? d] *)
Definition orElse {A : Type} (x : option A) (d : A) : A :=
  match x with Some v => v | None => d end.

(** [Array.prototype.sort] with a comparator: the sort is stable, so it is
    the insertion of each element before the first one it does not
    follow. *)
Fixpoint insertBy {A : Type} (cmp : A -> A -> Z) (x : A) (l : list A) : list A :=
  match l with
  | [] => [x]
  | y :: rest => if (cmp x y <=? 0)%Z then x :: y :: rest else y :: insertBy cmp x rest
  end.

Fixpoint sortBy {A : Type} (cmp : A -> A -> Z) (l : list A) : list A :=
  match l with
  | [] => []
  | x :: rest => insertBy cmp x (sortBy cmp rest)
  end.

Definition renderRank (id : string) : Z := orElse (MUTATION_RENDER_ORDER id) 50%Z.

Definition resolveActiveMutations (selected : list string) : list string :=
  sortBy (fun a b => (renderRank a - renderRank b)%Z) selected.

End MutationDefs.

(** ** [mutation-engine.ts] *)

Module MutationEngine.
Import Canvas2D ColorMath MutationDefs.

Record CustomTint : Type := mkTint { color : string; opacity : Q }.

Definition Step : Type := (string * FilterDef)%type.

Section WithPlatform.
Context {P : Platform}.

(** The pipeline [applyMutations] builds: a filter per resolved mutation
    that has one, then the custom tint when its opacity is positive. *)
Definition buildPipeline (selectedMutations : list string)
    (customTint : option CustomTint) : list Step :=
  let active := resolveActiveMutations selectedMutations in
  flat_map (fun mutId => match FILTERS mutId with
                         | Some filter => [(mutId, filter)]
                         | None => []
                         end) active
  ++ match customTint with
     | Some t =>
         if Qlt_le_dec 0 (opacity t)
         then [("Custom"%string,
                mkFilterDef "source-atop" [color t] (Some (opacity t)) None None true)]
         else []
     | None => []
     end.

(** [f.colors[0] || '#fff'] *)
Definition firstColour (f : FilterDef) : string :=
  match colors f with
  | c :: _ => if String.eqb c "" then "#fff"%string else c
  | [] => "#fff"%string
  end.

(** The non-masked branch of the loop body: a source-atop fill. *)
Definition flatTint (ctx : HTMLCanvasElement) (f : FilterDef) : HTMLCanvasElement :=
  let ctx := save ctx in
  let ctx := set_globalCompositeOperation ctx "source-atop" in
  let ctx := match a f with Some al => set_globalAlpha ctx al | None => ctx end in
  let ctx := set_fillStyle ctx (firstColour f) in
  let ctx := fillRect ctx 0 0 (width ctx) (height ctx) in
  restore ctx.

(** One iteration of [for (const step of pipeline)]. *)
Definition applyStep (originalBase : HTMLCanvasElement) (isTall : bool)
    (ctx : HTMLCanvasElement) (step : Step) : HTMLCanvasElement :=
  let f := snd step in
  if masked f then applyMaskedFilter ctx originalBase f isTall
  else flatTint ctx f.

Definition runPipeline (originalBase : HTMLCanvasElement) (isTall : bool)
    (pipeline : list Step) (ctx : HTMLCanvasElement) : HTMLCanvasElement :=
  fold_left (applyStep originalBase isTall) pipeline ctx.

(** The snapshot of the base taken before any step. *)
Definition snapshot (baseCanvas : HTMLCanvasElement) : HTMLCanvasElement :=
  drawImage (createCanvas (width baseCanvas) (height baseCanvas)) baseCanvas 0 0.

(** [applyMutations(baseCanvas, selectedMutations, isTall, customTint)]: the
    canvas is changed in place; the result is the canvas after the call,
    when the call returns.  It returns unless the canvas has no pixels
    ([applyMutationsThrows]), a selected id is an inherited name (its step
    has a function for filter, and [f.colors[0]] is a [TypeError]), or a
    masked step hands [addColorStop] a colour that does not parse (a
    [SyntaxError]); the statements about the result carry these
    conditions. *)
Definition applyMutations (baseCanvas : HTMLCanvasElement) (selectedMutations : list string)
    (isTall : bool) (customTint : option CustomTint) : HTMLCanvasElement :=
  let pipeline := buildPipeline selectedMutations customTint in
  match pipeline with
  | [] => baseCanvas
  | _ => runPipeline (snapshot baseCanvas) isTall pipeline baseCanvas
  end.

(** Among ids that are own keys and colours that parse, [applyMutations]
    throws when its first [drawImage], the snapshot, is handed an empty
    canvas; every later one draws a canvas of the size of the base. *)
Definition applyMutationsThrows (baseCanvas : HTMLCanvasElement)
    (selectedMutations : list string) (customTint : option CustomTint) : bool :=
  match buildPipeline selectedMutations customTint with
  | [] => false
  | _ => negb (drawable baseCanvas)
  end.

(** [spriteToCanvas(img)] *)
Definition spriteToCanvas (img : HTMLImageElement) : HTMLCanvasElement :=
  let c := createCanvas (naturalWidth img) (naturalHeight img) in
  drawImage c (mkCanvas (naturalWidth img) (naturalHeight img) (imagePixel img)
                        defaultState []) 0 0.

End WithPlatform.
End MutationEngine.

(** ** Strings as the source uses them *)

Module Str.
Local Open Scope string_scope.

(** The last element of [s.split('/')]. *)
Fixpoint lastSegmentFrom (acc : string) (s : string) : string :=
  match s with
  | EmptyString => acc
  | String c rest =>
      if Ascii.eqb c "/"%char then lastSegmentFrom "" rest
      else lastSegmentFrom (acc ++ String c "") rest
  end.

Definition lastSegment (s : string) : string := lastSegmentFrom "" s.

Definition lowerChar (c : ascii) : ascii :=
  let n := nat_of_ascii c in
  if (65 <=? n)%nat && (n <=? 90)%nat then ascii_of_nat (n + 32) else c.

Fixpoint lower (s : string) : string :=
  match s with
  | EmptyString => EmptyString
  | String c rest => String (lowerChar c) (lower rest)
  end.

Fixpoint contains (needle : string) (s : string) : bool :=
  String.prefix needle s
  || match s with
     | EmptyString => false
     | String _ rest => contains needle rest
     end.

(** [Array.prototype.join]. *)
Fixpoint join (sep : string) (l : list string) : string :=
  match l with
  | [] => ""
  | [x] => x
  | x :: rest => x ++ sep ++ join sep rest
  end.

Definition ofBool (b : bool) : string := if b then "true" else "false".

(** The comparator of the default [sort()]: code-unit order.  Strings are
    bytes here, and their order is the order of the code points; it is the
    order of the UTF-16 code units for all text but that which mixes
    characters beyond U+FFFF with characters from U+E000 to U+FFFF. *)
Definition cmp (a b : string) : Z :=
  match String.compare a b with
  | Lt => (-1)%Z
  | Eq => 0%Z
  | Gt => 1%Z
  end.

End Str.

(** ** Sprite data ([api/types.ts]) *)

Inductive EntryType : Type := Frame | Animation.

Record SpriteEntry : Type := mkEntry {
  entryType : EntryType;
  entryId : string;
  entryName : string;
  entryUrl : string;
  entryAnchor : option (Q * Q)
}.

Record SpriteCategory : Type := mkCategory {
  cat : string;
  items : list SpriteEntry
}.

Record SpriteDataResponse : Type := mkSpriteData {
  categories : list SpriteCategory
}.

Record CosmeticItem : Type := mkCosmeticItem {
  cosmeticItemId : string;
  cosmeticUrl : string
}.

Record CosmeticCategory : Type := mkCosmeticCategory {
  cosmeticCat : string;
  cosmeticItems : list CosmeticItem
}.

Record CosmeticsResponse : Type := mkCosmetics {
  cosmeticCategories : list CosmeticCategory
}.

(** ** [icon-layout.ts] *)

Module IconLayout.
Import MutationDefs.
Local Open Scope string_scope.

Definition TILE_SIZE_WORLD : Q := 256.
Definition BASE_ICON_SCALE : Q := 0.5.
Definition TALL_PLANT_MUTATION_ICON_SCALE_BOOST : Q := 2.

(** [MUT_ICON_X_EXCEPT[baseName]] and [MUT_ICON_Y_EXCEPT[baseName]], on the
    own keys of the literals. *)
Definition MUT_ICON_X_EXCEPT (baseName : string) : option Q :=
  if baseName =? "Pepper" then Some 0.5%Q
  else if baseName =? "Banana" then Some 0.6%Q
  else None.

Definition MUT_ICON_Y_EXCEPT (baseName : string) : option Q :=
  if baseName =? "Banana" then Some 0.6%Q
  else if baseName =? "Carrot" then Some 0.6%Q
  else if baseName =? "Sunflower" then Some 0.5%Q
  else if baseName =? "Starweaver" then Some 0.5%Q
  else if baseName =? "FavaBean" then Some 0.25%Q
  else if baseName =? "BurrosTail" then Some 0.2%Q
  else None.

Definition FLOATING_MUTATION_ICONS : list string :=
  ["Dawnlit"; "Ambershine"; "Dawncharged"; "Ambercharged"].

(** [/tall-?plant/i.test(key)] *)
Definition isTallKey (key : string) : bool :=
  Str.contains "tallplant" (Str.lower key) || Str.contains "tall-plant" (Str.lower key).

Definition baseNameOf (key : string) : string := Str.lastSegment key.

Definition mutationAliases (mut : string) : list string :=
  if mut =? "Ambershine" then ["Ambershine"; "Amberlit"]
  else if mut =? "Dawncharged" then ["Dawncharged"; "Dawnbound"]
  else if mut =? "Ambercharged" then ["Ambercharged"; "Amberbound"]
  else [mut].

Record IconLayout : Type := mkIconLayout {
  width : Q;
  height : Q;
  anchorX : Q;
  anchorY : Q;
  offsetX : Q;
  offsetY : Q;
  iconScale : Q
}.

(** The constants [targetX] and [targetY] of [computeIconLayout], for a
    base name that is not an inherited property name. *)
Definition targetX (spriteAnchorX : Q) (spriteKey : string) : Q :=
  orElse (MUT_ICON_X_EXCEPT (baseNameOf spriteKey)) spriteAnchorX.

Definition isVerticalShape (spriteWidth spriteHeight : Q) : bool :=
  if Qlt_le_dec (spriteWidth * 1.5) spriteHeight then true else false.

Definition targetY (spriteWidth spriteHeight spriteAnchorY : Q) (spriteKey : string) : Q :=
  orElse (MUT_ICON_Y_EXCEPT (baseNameOf spriteKey))
         (if isVerticalShape spriteWidth spriteHeight then spriteAnchorY else 0.4%Q).

Definition computeIconLayout (spriteWidth spriteHeight spriteAnchorX spriteAnchorY : Q)
    (spriteKey : string) (isTall : bool) : IconLayout :=
  let tX := targetX spriteAnchorX spriteKey in
  let tY := targetY spriteWidth spriteHeight spriteAnchorY spriteKey in
  let minDimension := Qmin spriteWidth spriteHeight in
  let scaleFactor := Qmin 1.5 (minDimension / TILE_SIZE_WORLD) in
  let iconScale := (BASE_ICON_SCALE * scaleFactor)%Q in
  let iconScale := if isTall then (iconScale * TALL_PLANT_MUTATION_ICON_SCALE_BOOST)%Q
                   else iconScale in
  mkIconLayout spriteWidth spriteHeight spriteAnchorX spriteAnchorY
               ((tX - spriteAnchorX) * spriteWidth)%Q
               ((tY - spriteAnchorY) * spriteHeight)%Q
               iconScale.

(** The [offset] of [computeIconLayout] as the numbers JavaScript computes,
    [None] for [NaN]: [MUT_ICON_X_EXCEPT[baseName] ?? anchorX] is a function
    when the base name is an inherited property name, and
    [(targetX - anchorX) * width] is then [NaN], whatever the width. *)
Definition offsetNumbers (spriteWidth spriteHeight spriteAnchorX spriteAnchorY : Q)
    (spriteKey : string) : option Q * option Q :=
  let baseName := baseNameOf spriteKey in
  let targetX := JsObject.numberOr MUT_ICON_X_EXCEPT baseName spriteAnchorX in
  let targetY := JsObject.numberOr MUT_ICON_Y_EXCEPT baseName
                   (if isVerticalShape spriteWidth spriteHeight
                    then spriteAnchorY else 0.4%Q) in
  (option_map (fun t => ((t - spriteAnchorX) * spriteWidth)%Q) targetX,
   option_map (fun t => ((t - spriteAnchorY) * spriteHeight)%Q) targetY).

(** [getSpriteIdSet]: the ids of all items, kept in [_spriteIdSet] once
    built.  Returns the set and the cache after the call. *)
Definition getSpriteIdSet (_spriteIdSet : option (list string))
    (spriteData : option SpriteDataResponse) : list string * option (list string) :=
  match _spriteIdSet with
  | Some set => (set, _spriteIdSet)
  | None =>
      let set := match spriteData with
                 | Some sd => flat_map (fun c => map entryId (items c)) (categories sd)
                 | None => []
                 end in
      (set, Some set)
  end.

Definition knows (knownIds : list string) (k : string) : bool :=
  existsb (String.eqb k) knownIds.

(** The body of [for (const name of aliases)] in [findIconKey]. *)
Definition iconKeyForAlias (knownIds : list string) (base : string) (isTall : bool)
    (name : string) : option string :=
  let tallIconKey := "sprite/mutation-overlay/" ++ name ++ "TallPlantIcon" in
  let tallKey := "sprite/mutation-overlay/" ++ name ++ "TallPlant" in
  let tries := [ "sprite/mutation/" ++ name ++ "Icon";
                 "sprite/mutation/" ++ name;
                 "sprite/mutation/" ++ name ++ base;
                 "sprite/mutation/" ++ name ++ "-" ++ base;
                 "sprite/mutation/" ++ name ++ "_" ++ base;
                 "sprite/mutation/" ++ name ++ "/" ++ base ] in
  if isTall && knows knownIds tallIconKey then Some tallIconKey
  else if isTall && knows knownIds tallKey then Some tallKey
  else find (knows knownIds) tries.

Fixpoint firstSome {A B : Type} (f : A -> option B) (l : list A) : option B :=
  match l with
  | [] => None
  | x :: rest => match f x with Some y => Some y | None => firstSome f rest end
  end.

Definition findIconKey (knownIds : list string) (itemKey mutName : string)
    (isTall : bool) (meta : MutationMeta) : option string :=
  if mutName =? "" then None
  else
    match tallPlantIconOverride meta with
    | Some o =>
        if isTall && negb (o =? "") && knows knownIds o then Some o
        else firstSome (iconKeyForAlias knownIds (baseNameOf itemKey) isTall)
                       (mutationAliases mutName)
    | None =>
        firstSome (iconKeyForAlias knownIds (baseNameOf itemKey) isTall)
                  (mutationAliases mutName)
    end.

Definition allEntries (sd : SpriteDataResponse) : list SpriteEntry :=
  flat_map items (categories sd).

Definition isFrame (e : SpriteEntry) : bool :=
  match entryType e with Frame => true | Animation => false end.

Definition getIconAnchor (spriteData : option SpriteDataResponse) (iconId : string) : Q * Q :=
  match spriteData with
  | None => (0.5, 0.5)%Q
  | Some sd =>
      match find (fun item => (entryId item =? iconId) && isFrame item) (allEntries sd) with
      | Some frame =>
          match entryAnchor frame with
          | Some (x, y) => (x, y)
          | None => (0.5, 0.5)%Q
          end
      | None => (0.5, 0.5)%Q
      end
  end.

Definition calcOverlayPosition (baseWidth baseHeight overlayWidth overlayHeight : Q)
    (anchorX anchorY : Q) : Q * Q :=
  ((anchorX * baseWidth - overlayWidth * 0.5)%Q,
   (anchorY * baseHeight - overlayHeight + 100)%Q).

End IconLayout.

(** ** [render-cache.ts] *)

Module RenderCache.
Import Canvas2D.

Definition MAX_ENTRIES : Z := 300.

Record CacheEntry : Type := mkCacheEntry {
  canvas : HTMLCanvasElement;
  lastUsed : Z
}.

(** The [Map] of entries, in insertion order (the order [for ... of]
    visits). *)
Definition Entries : Type := list (string * CacheEntry).

Fixpoint mapGet (m : Entries) (k : string) : option CacheEntry :=
  match m with
  | [] => None
  | (k', v) :: rest => if String.eqb k' k then Some v else mapGet rest k
  end.

(** [Map.prototype.set]: an existing key keeps its place. *)
Fixpoint mapSet (m : Entries) (k : string) (v : CacheEntry) : Entries :=
  match m with
  | [] => [(k, v)]
  | (k', v') :: rest =>
      if String.eqb k' k then (k', v) :: rest else (k', v') :: mapSet rest k v
  end.

Fixpoint mapDelete (m : Entries) (k : string) : Entries :=
  match m with
  | [] => []
  | (k', v') :: rest =>
      if String.eqb k' k then rest else (k', v') :: mapDelete rest k
  end.

Definition size (m : Entries) : Z := Z.of_nat (List.length m).

(** [RenderCache.makeKey]; [frameIndex] is [None] when omitted. *)
Definition makeKey {P : Platform} (spriteUrl : string) (mutations : list string)
    (icons overlays : bool) (scale rotation : Q) (frameIndex : option Z) : string :=
  (spriteUrl ++ "|" ++ Str.join "," (MutationDefs.sortBy Str.cmp mutations)
   ++ "|" ++ Str.ofBool icons ++ "|" ++ Str.ofBool overlays
   ++ "|" ++ numberToString scale ++ "|" ++ numberToString rotation
   ++ "|" ++ numberToString (inject_Z (MutationDefs.orElse frameIndex 0%Z)))%string.

(** [get(key)] at clock reading [now]. *)
Definition get (now : Z) (key : string) (entries : Entries)
    : option HTMLCanvasElement * Entries :=
  match mapGet entries key with
  | None => (None, entries)
  | Some entry => (Some (canvas entry), mapSet entries key (mkCacheEntry (canvas entry) now))
  end.

(** The scan of [evictLru]: [oldest] starts at [Infinity] ([None]) and
    [oldestKey] at the empty string. *)
Definition scanOldest (entries : Entries) : option Z * string :=
  fold_left
    (fun (acc : option Z * string) (kv : string * CacheEntry) =>
       let '(oldest, oldestKey) := acc in
       let '(k, v) := kv in
       match oldest with
       | None => (Some (lastUsed v), k)
       | Some o => if (lastUsed v <? o)%Z then (Some (lastUsed v), k) else acc
       end)
    entries (None, ""%string).

(** [evictLru]: the evicted canvas is also resized to 0×0; the cache keeps
    no trace of that. *)
Definition evictLru (entries : Entries) : Entries :=
  let oldestKey := snd (scanOldest entries) in
  if String.eqb oldestKey "" then entries
  else mapDelete entries oldestKey.

(** [set(key, canvas)] at clock reading [now]. *)
Definition set (now : Z) (key : string) (c : HTMLCanvasElement) (entries : Entries) : Entries :=
  let entries := if (MAX_ENTRIES <=? size entries)%Z then evictLru entries else entries in
  mapSet entries key (mkCacheEntry c now).

Definition clear (entries : Entries) : Entries := [].

Definition empty : Entries := [].

(** An operation on the cache, with the clock reading it sees. *)
Inductive Op : Type :=
  | OpGet (now : Z) (key : string)
  | OpSet (now : Z) (key : string) (c : HTMLCanvasElement)
  | OpClear.

Definition step (entries : Entries) (o : Op) : Entries :=
  match o with
  | OpGet now key => snd (get now key entries)
  | OpSet now key c => set now key c entries
  | OpClear => clear entries
  end.

Definition run (ops : list Op) (entries : Entries) : Entries :=
  fold_left step ops entries.

Definition keys (entries : Entries) : list string := map fst entries.

(** The key an operation carries is not the empty string. *)
Definition keyed (o : Op) : Prop :=
  match o with
  | OpGet _ key => key <> ""%string
  | OpSet _ key _ => key <> ""%string
  | OpClear => True
  end.

End RenderCache.

(** ** [gif/decoder.ts] *)

Module GifDecoder.
Import Canvas2D.

(** [reader.frameInfo(i)], the fields the decoder reads. *)
Record FrameInfo : Type := mkFrameInfo {
  fx : Z;
  fy : Z;
  fwidth : Z;
  fheight : Z;
  fdelay : Z;
  disposal : Z
}.

(** The [GifReader] of omggif, once constructed.
    [decodeAndBlitFrameRGBA i pixels] is the buffer after the call. *)
Record GifReader : Type := mkReader {
  readerWidth : Z;
  readerHeight : Z;
  numFrames : nat;
  frameInfo : nat -> FrameInfo;
  decodeAndBlitFrameRGBA : nat -> list Z -> list Z
}.

Record GifFrame : Type := mkGifFrame {
  canvas : HTMLCanvasElement;
  delay : Z
}.

Record DecodedGif : Type := mkDecoded {
  gifWidth : Z;
  gifHeight : Z;
  frames : list GifFrame;
  loopCount : Z
}.

Definition byteAt (pixels : list Z) (i : Z) : Z :=
  if (i <? 0)%Z then 0%Z else nth (Z.to_nat i) pixels 0%Z.

(** [new ImageData(pixels, width, height)] over a [Uint8ClampedArray]. *)
Definition newImageData (pixels : list Z) (w h : Z) : ImageData :=
  mkImageData w h (fun x y =>
    let i := (4 * (y * w + x))%Z in
    mkColour (inject_Z (byteAt pixels i) / 255)
             (inject_Z (byteAt pixels (i + 1)) / 255)
             (inject_Z (byteAt pixels (i + 2)) / 255)
             (inject_Z (byteAt pixels (i + 3)) / 255)).

(** The temporary canvas holding the raw pixels of frame [i]. *)
Definition frameCanvas (reader : GifReader) (i : nat) : HTMLCanvasElement :=
  let w := readerWidth reader in
  let h := readerHeight reader in
  let pixels := decodeAndBlitFrameRGBA reader i (repeat 0%Z (Z.to_nat (w * h * 4))) in
  putImageData (createCanvas w h) (newImageData pixels w h) 0 0.

(** One iteration of the loop of [decodeGif] on the compositing canvas:
    the frame pushed, and the compositing canvas left for the next one. *)
Definition decodeFrame (reader : GifReader) (i : nat) (compCtx : HTMLCanvasElement)
    : GifFrame * HTMLCanvasElement :=
  let w := readerWidth reader in
  let h := readerHeight reader in
  let info := frameInfo reader i in
  let delay := Z.max (fdelay info * 10) 20 in
  let tempCanvas := frameCanvas reader i in
  let disposal := disposal info in
  let savedData := if (disposal =? 3)%Z then Some (getImageData compCtx 0 0 w h) else None in
  let compCtx := if (disposal =? 2)%Z
                 then clearRect compCtx (fx info) (fy info) (fwidth info) (fheight info)
                 else compCtx in
  let compCtx := drawImage compCtx tempCanvas 0 0 in
  let outputCanvas := drawImage (createCanvas w h) compCtx 0 0 in
  let compCtx :=
    if (disposal =? 2)%Z
    then clearRect compCtx (fx info) (fy info) (fwidth info) (fheight info)
    else match savedData with
         | Some d => if (disposal =? 3)%Z then putImageData compCtx d 0 0 else compCtx
         | None => compCtx
         end in
  (mkGifFrame outputCanvas delay, compCtx).

(** [for (let i = 0; i < numFrames; i++)], from frame [i] with [n] frames
    left. *)
Fixpoint decodeLoop (reader : GifReader) (i : nat) (n : nat) (compCtx : HTMLCanvasElement)
    : list GifFrame :=
  match n with
  | O => []
  | S n' =>
      let '(frame, compCtx') := decodeFrame reader i compCtx in
      frame :: decodeLoop reader (S i) n' compCtx'
  end.

(** [decodeGif], from the reader its first lines construct, for an
    animation of positive width and height (on an empty one [new ImageData]
    and [drawImage] throw). *)
Definition decodeGif (reader : GifReader) : DecodedGif :=
  let w := readerWidth reader in
  let h := readerHeight reader in
  mkDecoded w h (decodeLoop reader 0 (numFrames reader) (createCanvas w h)) 0.

(** The compositing canvas as frame [i] finds it. *)
Fixpoint compBefore (reader : GifReader) (i : nat) : HTMLCanvasElement :=
  match i with
  | O => createCanvas (readerWidth reader) (readerHeight reader)
  | S j => snd (decodeFrame reader j (compBefore reader j))
  end.

End GifDecoder.

(** ** [gif/frame-scheduler.ts] *)

Module FrameScheduler.
Import GifDecoder.

(** A registered callback is known by its name; calling it leaves an
    event, and that is all it does: the callbacks meant are those that
    neither call back into the scheduler nor throw. *)
Definition Callback : Type := nat.

(** A call [cb(frame, index)]; [frame] is [None] when the argument is
    [undefined]. *)
Inductive Event : Type :=
  | OnFrame (cb : Callback) (frame : option GifFrame) (index : Z).

(** The host of the scheduler: the reading of [performance.now()], the
    animation-frame requests that are pending, and the calls made so far
    (oldest first). *)
Record Host : Type := mkHost {
  now : Q;
  nextHandle : Z;
  pendingFrames : list Z;
  events : list Event
}.

Record Scheduler : Type := mkScheduler {
  frames : list GifFrame;
  currentIndex : Z;
  animationId : option Z;
  lastFrameTime : Q;
  playing : bool;
  onFrame : option Callback
}.

Definition initial : Scheduler := mkScheduler [] 0 None 0 false None.

(** [frames[i]] for an integer [i]: [undefined] outside the array. *)
Definition frameAt (frames : list GifFrame) (i : Z) : option GifFrame :=
  if (i <? 0)%Z then None else nth_error frames (Z.to_nat i).

Definition frameCount (s : Scheduler) : Z := Z.of_nat (List.length (frames s)).
Definition currentFrameIndex (s : Scheduler) : Z := currentIndex s.
Definition isPlaying (s : Scheduler) : bool := playing s.

Definition emit (h : Host) (e : Event) : Host :=
  mkHost (now h) (nextHandle h) (pendingFrames h) (events h ++ [e]).

Definition requestAnimationFrame (h : Host) : Z * Host :=
  (nextHandle h,
   mkHost (now h) (nextHandle h + 1) (pendingFrames h ++ [nextHandle h]) (events h)).

Definition cancelAnimationFrame (h : Host) (id : Z) : Host :=
  mkHost (now h) (nextHandle h) (filter (fun j => negb (j =? id)%Z) (pendingFrames h)) (events h).

Definition setCallback (s : Scheduler) (cb : Callback) : Scheduler :=
  mkScheduler (frames s) (currentIndex s) (animationId s) (lastFrameTime s) (playing s) (Some cb).

Definition pause (sh : Scheduler * Host) : Scheduler * Host :=
  let '(s, h) := sh in
  match animationId s with
  | Some id =>
      (mkScheduler (frames s) (currentIndex s) None (lastFrameTime s) false (onFrame s),
       cancelAnimationFrame h id)
  | None =>
      (mkScheduler (frames s) (currentIndex s) None (lastFrameTime s) false (onFrame s), h)
  end.

Definition stop (sh : Scheduler * Host) : Scheduler * Host :=
  let '(s, h) := pause sh in
  (mkScheduler (frames s) 0 (animationId s) (lastFrameTime s) (playing s) (onFrame s), h).

Definition setFrames (sh : Scheduler * Host) (fs : list GifFrame) : Scheduler * Host :=
  let '(s, h) := stop sh in
  (mkScheduler fs 0 (animationId s) (lastFrameTime s) (playing s) (onFrame s), h).

(** [this.onFrame(this.frames[this.currentIndex], this.currentIndex)] under
    its guard. *)
Definition notify (s : Scheduler) (h : Host) : Host :=
  match onFrame s, frameAt (frames s) (currentIndex s) with
  | Some cb, Some frame => emit h (OnFrame cb (Some frame) (currentIndex s))
  | _, _ => h
  end.

(** [seek(index)] for an integer [index]; the source clamps whatever number
    it is given, and a fractional index or [NaN] leaves in [currentIndex] a
    number that is no index of [frames]. *)
Definition seek (sh : Scheduler * Host) (index : Z) : Scheduler * Host :=
  let '(s, h) := sh in
  let s := mkScheduler (frames s)
             (Z.max 0 (Z.min index (frameCount s - 1)))
             (animationId s) (lastFrameTime s) (playing s) (onFrame s) in
  (s, notify s h).

Definition tick (sh : Scheduler * Host) : Scheduler * Host :=
  let '(s, h) := sh in
  if negb (playing s) then (s, h)
  else
    match frameAt (frames s) (currentIndex s) with
    | None => (s, h)
    | Some frame =>
        let '(s, h) :=
          if Qle_bool (inject_Z (delay frame)) (now h - lastFrameTime s)
          then
            let s := mkScheduler (frames s)
                       (Z.rem (currentIndex s + 1) (frameCount s))
                       (animationId s) (now h) (playing s) (onFrame s) in
            (s, match onFrame s with
                | Some cb =>
                    emit h (OnFrame cb (frameAt (frames s) (currentIndex s)) (currentIndex s))
                | None => h
                end)
          else (s, h) in
        let '(id, h) := requestAnimationFrame h in
        (mkScheduler (frames s) (currentIndex s) (Some id) (lastFrameTime s)
                     (playing s) (onFrame s), h)
    end.

Definition play (sh : Scheduler * Host) : Scheduler * Host :=
  let '(s, h) := sh in
  if (frameCount s =? 0)%Z || playing s then (s, h)
  else
    tick (mkScheduler (frames s) (currentIndex s) (animationId s) (now h) true (onFrame s), h).

End FrameScheduler.

(** ** [canvas-renderer.ts] *)

Module CanvasRenderer.
Import Canvas2D MutationDefs MutationEngine.
Local Open Scope string_scope.

Inductive SlotType : Type := SpriteSlot | CustomSlot | CosmeticSlot.

Record Slot : Type := mkSlot {
  slotType : SlotType;
  spriteKey : string;
  spriteUrl : string;
  mutations : list string;
  optIcons : bool;
  optOverlays : bool;
  customTint : CustomTint;
  scale : Q;
  rotation : Q;
  visible : bool;
  cosmeticLayers : option (list (string * string));
  gifFrames : option (list GifDecoder.GifFrame);
  isAnimated : bool
}.

(** The part of [state] (the store) the renderer reads. *)
Record AppState : Type := mkAppState {
  spriteData : option SpriteDataResponse;
  cosmeticsData : option CosmeticsResponse;
  gameVersion : option string
}.

(** *** The version a sprite URL carries *)

Definition isHex (c : ascii) : bool :=
  let n := nat_of_ascii (Str.lowerChar c) in
  ((48 <=? n)%nat && (n <=? 57)%nat) || ((97 <=? n)%nat && (n <=? 102)%nat).

Fixpoint hexRun (s : string) : string * string :=
  match s with
  | String c rest =>
      if isHex c then let '(run, after) := hexRun rest in (String c run, after)
      else (EmptyString, s)
  | EmptyString => (EmptyString, EmptyString)
  end.

(** [url.match(/[?&]v=([a-f0-9]+)/i)?.[1]] *)
Fixpoint matchQueryVersion (url : string) : option string :=
  match url with
  | EmptyString => None
  | String c rest =>
      let here :=
        if (Ascii.eqb c "?" || Ascii.eqb c "&")%char then
          match rest with
          | String v (String e digits) =>
              if Ascii.eqb (Str.lowerChar v) "v" && Ascii.eqb e "="
              then match fst (hexRun digits) with
                   | EmptyString => None
                   | run => Some run
                   end
              else None
          | _ => None
          end
        else None in
      match here with
      | Some run => Some run
      | None => matchQueryVersion rest
      end
  end.

Definition dropPrefix (n : nat) (s : string) : string :=
  String.substring n (String.length s - n) s.

(** [url.match(/\/version\/([a-f0-9]+)\//i)?.[1]] *)
Fixpoint matchPathVersion (url : string) : option string :=
  match url with
  | EmptyString => None
  | String _ rest =>
      let here :=
        if String.prefix "/version/" (Str.lower url) then
          match hexRun (dropPrefix 9 url) with
          | (EmptyString, _) => None
          | (run, String c _) => if Ascii.eqb c "/" then Some run else None
          | (_, EmptyString) => None
          end
        else None in
      match here with
      | Some run => Some run
      | None => matchPathVersion rest
      end
  end.

(** [findSpriteUrl(spriteId)] *)
Definition findSpriteUrl (st : AppState) (spriteId : string) : option string :=
  match spriteData st with
  | None => None
  | Some sd =>
      let name := Str.lastSegment spriteId in
      if name =? "" then None
      else
        IconLayout.firstSome
          (fun c =>
             match find (fun item => (entryId item =? spriteId) && IconLayout.isFrame item)
                        (items c) with
             | Some item =>
                 let version :=
                   match matchQueryVersion (entryUrl item) with
                   | Some v => v
                   | None =>
                       match matchPathVersion (entryUrl item) with
                       | Some v => v
                       | None => orElse (gameVersion st) ""
                       end
                   end in
                 Some ("https://mg-api.ariedam.fr/assets/sprites/" ++ cat c ++ "/" ++ name
                       ++ ".png" ++ (if version =? "" then "" else "?v=" ++ version))
             | None => None
             end)
          (categories sd)
  end.

(** [TALL_PLANT_ANCHORS[spriteId]], on the own keys of the literal. *)
Definition TALL_PLANT_ANCHORS (spriteId : string) : option (Q * Q) :=
  if spriteId =? "sprite/tall-plant/Bamboo" then Some (0.519573, 0.964063)%Q
  else if spriteId =? "sprite/tall-plant/Cactus" then Some (0.517937, 0.952344)%Q
  else None.

(** [getSpriteFrameAnchor(spriteId)]: in each category the first frame with
    this id decides (its anchor, or on to the next category). *)
Definition getSpriteFrameAnchor (st : AppState) (spriteId : string) : Q * Q :=
  match TALL_PLANT_ANCHORS spriteId with
  | Some anchor => anchor
  | None =>
      let fromData :=
        match spriteData st with
        | Some sd =>
            IconLayout.firstSome
              (fun c =>
                 match find (fun item => (entryId item =? spriteId) && IconLayout.isFrame item)
                            (items c) with
                 | Some frame => entryAnchor frame
                 | None => None
                 end)
              (categories sd)
        | None => None
        end in
      match fromData with
      | Some anchor => anchor
      | None => if IconLayout.isTallKey spriteId then (0.5, 0.96)%Q else (0.5, 0.5)%Q
      end
  end.

(** *** Drawing with a destination rectangle *)

(** What [drawImage] accepts as its image here: a canvas or a loaded image. *)
Record Source : Type := mkSource {
  srcIsCanvas : bool;
  srcWidth : Z;
  srcHeight : Z;
  srcPixel : Z -> Z -> Pixel
}.

Definition ofCanvas (c : HTMLCanvasElement) : Source :=
  mkSource true (Canvas2D.width c) (Canvas2D.height c) (pixelAt c).

Definition ofImage (img : HTMLImageElement) : Source :=
  mkSource false (naturalWidth img) (naturalHeight img) (imagePixel img).

(** A canvas without pixels is the one image [drawImage] refuses. *)
Definition usable (src : Source) : bool :=
  negb (srcIsCanvas src) || ((0 <? srcWidth src) && (0 <? srcHeight src))%Z.

Record DrawOp : Type := mkDrawOp {
  img : Source;
  opX : Q; opY : Q; opW : Q; opH : Q;
  opZ : Z
}.

(** What is thrown: the rejection of [spriteLoader.load(url)], the
    [InvalidStateError] of [drawImage], a [TypeError]. *)
Inductive Error : Type :=
  | LoadRejected (url : string)
  | InvalidStateError
  | TypeError.

(** A computation either yields a value or throws (a rejected promise). *)
Inductive Result (A : Type) : Type :=
  | Ok (a : A)
  | Thrown (e : Error).
Arguments Ok {A} a.
Arguments Thrown {A} e.

Definition Math_round (x : Q) : Z := Qfloor (x + (1 # 2)).
Definition Math_ceil (x : Q) : Z := Qceiling x.

Section WithPlatform.
Context {P : Platform}.

(** [ctx.drawImage(image, dx, dy, dw, dh)] *)
Definition drawImageRect (c : HTMLCanvasElement) (src : Source) (dx dy dw dh : Q)
    : HTMLCanvasElement :=
  withBitmap c (fun x y =>
    if inside c x y
    then composite (globalCompositeOperation (state c))
           (scalePixel (globalAlpha (state c))
              (resample (srcWidth src) (srcHeight src) (srcPixel src) dx dy dw dh x y))
           (bitmap c x y)
    else bitmap c x y).

(** *** The module state and the promise monad *)

(** What [renderSlot] can change: the host, the entries of [renderCache],
    and [_spriteIdSet] of [icon-layout.ts]. *)
Record Mem : Type := mkMem {
  world : World;
  cacheEntries : RenderCache.Entries;
  spriteIdSet : option (list string)
}.

Definition M (A : Type) : Type := Mem -> Result A * Mem.

Definition ret {A : Type} (a : A) : M A := fun m => (Ok a, m).

Definition throw {A : Type} (e : Error) : M A := fun m => (Thrown e, m).

Definition bind {A B : Type} (c : M A) (k : A -> M B) : M B :=
  fun m => match c m with
           | (Ok a, m') => k a m'
           | (Thrown e, m') => (Thrown e, m')
           end.

(** [try { c } catch { h }] *)
Definition tryCatch {A : Type} (c : M A) (h : M A) : M A :=
  fun m => match c m with
           | (Ok a, m') => (Ok a, m')
           | (Thrown _, m') => h m'
           end.

Notation "x <- c ;; k" := (bind c (fun x => k))
  (at level 61, c at next level, right associativity).

(** [await spriteLoader.load(url)] *)
Definition load (url : string) : M HTMLImageElement :=
  fun m => match spriteLoader_load (world m) url with
           | (Some image, w) => (Ok image, mkMem w (cacheEntries m) (spriteIdSet m))
           | (None, w) => (Thrown (LoadRejected url), mkMem w (cacheEntries m) (spriteIdSet m))
           end.

(** [renderCache.get(key)]: the clock is read on a hit only. *)
Definition cacheGet (key : string) : M (option HTMLCanvasElement) :=
  fun m => match RenderCache.mapGet (cacheEntries m) key with
           | None => (Ok None, m)
           | Some _ =>
               let '(t, w) := Date_now (world m) in
               let '(r, entries) := RenderCache.get t key (cacheEntries m) in
               (Ok r, mkMem w entries (spriteIdSet m))
           end.

Definition cacheSet (key : string) (c : HTMLCanvasElement) : M unit :=
  fun m => let '(t, w) := Date_now (world m) in
           (Ok tt, mkMem w (RenderCache.set t key c (cacheEntries m)) (spriteIdSet m)).

Definition knownIds (st : AppState) : M (list string) :=
  fun m => let '(set, cache) := IconLayout.getSpriteIdSet (spriteIdSet m) (spriteData st) in
           (Ok set, mkMem (world m) (cacheEntries m) cache).

(** [for (const x of l) body], threading the value [acc] the body updates. *)
Fixpoint forEach {A S : Type} (l : list A) (body : A -> S -> M S) (acc : S) : M S :=
  match l with
  | [] => ret acc
  | x :: rest => acc' <- body x acc ;; forEach rest body acc'
  end.

Definition nonEmpty (o : option string) : bool :=
  match o with Some s => negb (s =? "") | None => false end.

(** [ctx.drawImage(image, dx, dy, dw, dh)] as a call: it throws on a canvas
    without pixels. *)
Definition drawSource (c : HTMLCanvasElement) (src : Source) (dx dy dw dh : Q)
    : M HTMLCanvasElement :=
  if usable src then ret (drawImageRect c src dx dy dw dh)
  else throw InvalidStateError.

(** *** The mutation icons *)

(** The body of the icon loop for [mutId]; [ops] is the list pushed to. *)
Definition iconStep (st : AppState) (slot : Slot) (tall : bool) (origW origH : Z)
    (spriteAnchorX spriteAnchorY : Q) (mutId : string) (ops : list DrawOp)
    : M (list DrawOp) :=
  match MUTATION_META mutId with
  | None => ret ops
  | Some meta =>
      if tall && nonEmpty (tallOverlayKey meta) && negb (nonEmpty (tallPlantIconOverride meta))
      then ret ops
      else
        ids <- knownIds st ;;
        match IconLayout.findIconKey ids (spriteKey slot) mutId tall meta with
        | None => ret ops
        | Some iconId =>
            match findSpriteUrl st iconId with
            | None => ret ops
            | Some iconUrl =>
                if iconUrl =? "" then ret ops
                else
                  let layout := IconLayout.computeIconLayout (inject_Z origW) (inject_Z origH)
                                  spriteAnchorX spriteAnchorY (spriteKey slot) tall in
                  let pivotX := (IconLayout.anchorX layout * IconLayout.width layout)%Q in
                  let pivotY := (IconLayout.anchorY layout * IconLayout.height layout)%Q in
                  tryCatch
                    (iconImg <- load iconUrl ;;
                     let iconAnchor := IconLayout.getIconAnchor (spriteData st) iconId in
                     let scaledW := (inject_Z (naturalWidth iconImg)
                                     * IconLayout.iconScale layout)%Q in
                     let scaledH := (inject_Z (naturalHeight iconImg)
                                     * IconLayout.iconScale layout)%Q in
                     let drawX := (pivotX + IconLayout.offsetX layout
                                   - fst iconAnchor * scaledW)%Q in
                     let drawY := (pivotY + IconLayout.offsetY layout
                                   - snd iconAnchor * scaledH)%Q in
                     let z := if floatingIcon meta then 10%Z
                              else if tall then (-1)%Z else 2%Z in
                     ret (ops ++ [mkDrawOp (ofImage iconImg) drawX drawY scaledW scaledH z])%list)
                    (ret ops)
            end
        end
  end.

(** *** The tall-plant texture overlays *)

Definition overlayStep (st : AppState) (canvas : HTMLCanvasElement) (origW origH : Z)
    (spriteAnchorX spriteAnchorY : Q) (mutId : string) (ops : list DrawOp)
    : M (list DrawOp) :=
  match MUTATION_META mutId with
  | None => ret ops
  | Some meta =>
      match tallOverlayKey meta with
      | None => ret ops
      | Some key =>
          if key =? "" then ret ops
          else
            match findSpriteUrl st key with
            | None => ret ops
            | Some overlayUrl =>
                if overlayUrl =? "" then ret ops
                else
                  tryCatch
                    (overlayImg <- load overlayUrl ;;
                     let ow := naturalWidth overlayImg in
                     let oh := naturalHeight overlayImg in
                     let hasTint :=
                       match FILTERS mutId with
                       | Some f => if Qlt_le_dec 0 (orElse (ColorMath.a f) 0%Q)
                                   then true else false
                       | None => false
                       end in
                     let drawH := if hasTint then oh
                                  else Math_round (inject_Z origH * 0.9) in
                     let drawW := if hasTint then ow
                                  else Math_round (inject_Z ow
                                                   * (inject_Z drawH / inject_Z oh)) in
                     let posX := (spriteAnchorX * inject_Z origW - inject_Z drawW * 0.5)%Q in
                     let posY := if hasTint then 0%Q
                                 else (spriteAnchorY * inject_Z origH
                                       - inject_Z drawH + 100)%Q in
                     let masked := createCanvas drawW drawH in
                     let masked := drawImageRect masked (ofImage overlayImg) 0 0
                                     (inject_Z drawW) (inject_Z drawH) in
                     let masked := set_globalCompositeOperation masked "destination-in" in
                     masked <- drawSource masked (ofCanvas canvas) (- posX) (- posY)
                                 (inject_Z (Canvas2D.width canvas))
                                 (inject_Z (Canvas2D.height canvas)) ;;
                     ret (ops ++ [mkDrawOp (ofCanvas masked) posX posY
                                    (inject_Z drawW) (inject_Z drawH) 3%Z])%list)
                    (ret ops)
            end
      end
  end.

(** *** Padding and z-ordered drawing *)

Definition Math_max (a b : Q) : Q := Qmax a b.
Definition Math_min (a b : Q) : Q := Qmin a b.

Definition composeOps (canvas : HTMLCanvasElement) (origW origH : Z) (ops : list DrawOp)
    : M HTMLCanvasElement :=
  let minX := fold_left (fun acc o => Math_min acc (opX o)) ops 0%Q in
  let minY := fold_left (fun acc o => Math_min acc (opY o)) ops 0%Q in
  let maxX := fold_left (fun acc o => Math_max acc (opX o + opW o)) ops (inject_Z origW) in
  let maxY := fold_left (fun acc o => Math_max acc (opY o + opH o)) ops (inject_Z origH) in
  let padH := Z.max (Z.max 0 (Math_ceil (- minX)))
                    (Z.max 0 (Math_ceil (maxX - inject_Z origW))) in
  let padV := Z.max (Z.max 0 (Math_ceil (- minY)))
                    (Z.max 0 (Math_ceil (maxY - inject_Z origH))) in
  let outCanvas := createCanvas (origW + padH * 2) (origH + padV * 2) in
  let sorted := sortBy (fun a b => (opZ a - opZ b)%Z) ops in
  let draw := fun (o : DrawOp) (c : HTMLCanvasElement) =>
                drawSource c (img o) (opX o + inject_Z padH) (opY o + inject_Z padV)
                           (opW o) (opH o) in
  let behind := (fix upTo (l : list DrawOp) : list DrawOp :=
                   match l with
                   | [] => []
                   | o :: rest => if (0 <=? opZ o)%Z then [] else o :: upTo rest
                   end) sorted in
  outCanvas <- forEach behind draw outCanvas ;;
  outCanvas <- (if drawable canvas then ret (drawImage outCanvas canvas padH padV)
                else throw InvalidStateError) ;;
  forEach (filter (fun o => negb (opZ o <? 0)%Z) sorted) draw outCanvas.

(** *** Cosmetic layers *)

Definition layerOrder : list string :=
  ["Default"; "Mid"; "Bottom"; "Top"; "Expression"; "FaceProp"; "Status"; "Banner"].

Fixpoint recordGet (r : list (string * string)) (k : string) : option string :=
  match r with
  | [] => None
  | (k', v) :: rest => if k' =? k then Some v else recordGet rest k
  end.

Definition cosmeticStep (st : AppState) (layers : list (string * string))
    (category : string) (canvas : HTMLCanvasElement) : M HTMLCanvasElement :=
  match recordGet layers category with
  | None => ret canvas
  | Some cosmeticId =>
      if cosmeticId =? "" then ret canvas
      else
        match cosmeticsData st with
        | None => ret canvas
        | Some data =>
            match find (fun c => cosmeticCat c =? category) (cosmeticCategories data) with
            | None => ret canvas
            | Some c =>
                match find (fun i => cosmeticItemId i =? cosmeticId) (cosmeticItems c) with
                | None => ret canvas
                | Some item =>
                    if cosmeticUrl item =? "" then ret canvas
                    else
                      tryCatch
                        (layerImg <- load (cosmeticUrl item) ;;
                         ret (drawImageRect canvas (ofImage layerImg) 0 0
                                (inject_Z (Canvas2D.width canvas))
                                (inject_Z (Canvas2D.height canvas))))
                        (ret canvas)
                end
            end
        end
  end.

(** *** [renderSlot] *)

Definition animatedFrames (slot : Slot) : option (list GifDecoder.GifFrame) :=
  if isAnimated slot then gifFrames slot else None.

(** The key under which [renderSlot] caches the slot. *)
Definition slotCacheKey (slot : Slot) (gifFrameIndex : option Z) : string :=
  let frameIdx := match animatedFrames slot with
                  | Some _ => orElse gifFrameIndex 0%Z
                  | None => (-1)%Z
                  end in
  RenderCache.makeKey (spriteUrl slot) (mutations slot) (optIcons slot) (optOverlays slot)
                      (scale slot) (rotation slot) None
  ++ "|" ++ color (customTint slot) ++ ":" ++ numberToString (opacity (customTint slot))
  ++ "|f" ++ numberToString (inject_Z frameIdx).

(** The working canvas: a copy of the current animation frame, or the
    loaded sprite.  The frames are those [decodeGif] produced, each with
    its canvas; frames that went through the JSON copy of the history have
    lost theirs, and drawing one is a [TypeError] this type has no value
    for. *)
Definition baseCanvas (slot : Slot) (gifFrameIndex : option Z) : M HTMLCanvasElement :=
  match animatedFrames slot with
  | Some (f :: fs) =>
      let frames := f :: fs in
      let frameIdx := orElse gifFrameIndex 0%Z in
      let fi := Z.max 0 (Z.min frameIdx (Z.of_nat (List.length frames) - 1)) in
      match FrameScheduler.frameAt frames fi with
      | Some frame =>
          let src := GifDecoder.canvas frame in
          if drawable src
          then ret (drawImage (createCanvas (Canvas2D.width src) (Canvas2D.height src)) src 0 0)
          else throw InvalidStateError
      | None => throw TypeError
      end
  | _ =>
      image <- load (spriteUrl slot) ;;
      ret (spriteToCanvas image)
  end.

(** Icons and overlays: the draw operations collected, then composed. *)
Definition decorate (st : AppState) (slot : Slot) (tall : bool)
    (canvas : HTMLCanvasElement) : M HTMLCanvasElement :=
  let origW := Canvas2D.width canvas in
  let origH := Canvas2D.height canvas in
  let spriteAnchor := getSpriteFrameAnchor st (spriteKey slot) in
  if optIcons slot || (tall && optOverlays slot) then
    ops <- (if optIcons slot
            then forEach (resolveActiveMutations (mutations slot))
                         (iconStep st slot tall origW origH (fst spriteAnchor) (snd spriteAnchor))
                         []
            else ret []) ;;
    ops <- (if tall && optOverlays slot
            then forEach (resolveActiveMutations (mutations slot))
                         (overlayStep st canvas origW origH (fst spriteAnchor) (snd spriteAnchor))
                         ops
            else ret ops) ;;
    match ops with
    | [] => ret canvas
    | _ => composeOps canvas origW origH ops
    end
  else ret canvas.

Definition cosmetics (st : AppState) (slot : Slot) (canvas : HTMLCanvasElement)
    : M HTMLCanvasElement :=
  match slotType slot, cosmeticLayers slot with
  | CosmeticSlot, Some layers => forEach layerOrder (cosmeticStep st layers) canvas
  | _, _ => ret canvas
  end.

(** [renderSlot(slot, gifFrameIndex)]: [Ok None] is the promise resolved
    with [null], [Thrown e] the promise rejected with [e]. *)
Definition renderSlot (st : AppState) (slot : Slot) (gifFrameIndex : option Z)
    : M (option HTMLCanvasElement) :=
  if spriteUrl slot =? "" then ret None
  else
    let cacheKey := slotCacheKey slot gifFrameIndex in
    cached <- cacheGet cacheKey ;;
    match cached with
    | Some c => ret (Some c)
    | None =>
        canvas <- baseCanvas slot gifFrameIndex ;;
        let tall := IconLayout.isTallKey (spriteKey slot) in
        canvas <- (if applyMutationsThrows canvas (mutations slot) (Some (customTint slot))
                   then throw InvalidStateError
                   else ret (applyMutations canvas (mutations slot) tall
                               (Some (customTint slot)))) ;;
        canvas <- decorate st slot tall canvas ;;
        canvas <- cosmetics st slot canvas ;;
        _ <- cacheSet cacheKey canvas ;;
        ret (Some canvas)
    end.

End WithPlatform.
End CanvasRenderer.

(** ** What the specification says of [pickBlendOp] *)

Module SpecReading.
Import ColorMath.

(** The fallback order as the specification words it: color, the
    hue/saturation family, overlay, screen, lighter, flat over. *)
Definition SPEC_FALLBACK_ORDER : list string :=
  ["color"; "hue"; "saturation"; "overlay"; "screen"; "lighter"; "source-atop"]%string.

(** The requested operator when supported, otherwise the first supported
    one in that order (flat over when none is). *)
Definition pickBlendOp_spec (supported : list string) (desired : string) : string :=
  match find (has supported) (desired :: SPEC_FALLBACK_ORDER) with
  | Some o => o
  | None => "source-atop"%string
  end.

End SpecReading.

(** ** The rendering order, as statements speak of it *)

Module RenderOrder.
Import MutationDefs.
Local Open Scope string_scope.

(** The ranks of the order table, then the rank of unknown ids. *)
Definition RANKS : list Z := [0; 1; 2; 3; 4; 5; 6; 7; 8; 9; 50]%Z.

(** The fixed rendering order, by name. *)
Definition RENDER_ORDER : list string :=
  ["Wet"; "Chilled"; "Frozen"; "Thunderstruck";
   "Dawnlit"; "Ambershine"; "Dawncharged"; "Ambercharged"; "Gold"; "Rainbow"].

Definition isKnown (id : string) : bool :=
  match MUTATION_RENDER_ORDER id with Some _ => true | None => false end.

(** The ids of [l] of rank [r], in the order of [l]. *)
Definition ofRank (l : list string) (r : Z) : list string :=
  filter (fun id => (renderRank id =? r)%Z) l.

(** The ids of [l] grouped by rank, each group in the order of [l]. *)
Definition byRank (rs : list Z) (l : list string) : list string :=
  flat_map (ofRank l) rs.

End RenderOrder.

(** ** Concrete hosts and inputs for the examples *)

Module Fixtures.
Import Canvas2D GifDecoder.
Local Open Scope string_scope.

Definition rgb255 (r g b : Z) : Colour :=
  mkColour (inject_Z r / 255) (inject_Z g / 255) (inject_Z b / 255) 1.

(** A colour parser that knows the colours of the filter table. *)
Definition tableColor (s : string) : option Colour :=
  if s =? "rgb(235,200,0)" then Some (rgb255 235 200 0)
  else if s =? "rgb(50,180,200)" then Some (rgb255 50 180 200)
  else if s =? "rgb(100,160,210)" then Some (rgb255 100 160 210)
  else if s =? "rgb(100,130,220)" then Some (rgb255 100 130 220)
  else if s =? "transparent" then Some (mkColour 0 0 0 0)
  else if s =? "#fff" then Some (rgb255 255 255 255)
  else if s =? "#ff0000" then Some (rgb255 255 0 0)
  else if s =? "#FF1744" then Some (rgb255 255 23 68)
  else None.

Definition firstStopColour (g : CanvasGradient) : Colour :=
  match stops g with
  | (_, c) :: _ => match tableColor c with Some col => col | None => rgb255 255 255 255 end
  | [] => mkColour 0 0 0 0
  end.

(** Nearest-pixel drawing, exact when the rectangle has the bitmap's size. *)
Definition nearest (w h : Z) (src : Z -> Z -> Pixel) (dx dy dw dh : Q) (x y : Z) : Pixel :=
  let sx := (x - Qfloor dx)%Z in
  let sy := (y - Qfloor dy)%Z in
  if ((0 <=? sx) && (sx <? w) && (0 <=? sy) && (sy <? h))%Z then src sx sy else transparent.

(** A host that honours the operators [ok] accepts, whose clock advances by
    one per reading, and whose loader resolves the URLs [loads] accepts. *)
Definition host (ok : string -> bool) (loads : string -> bool) : Platform :=
  {| honours := ok;
     cssColor := tableColor;
     Math_PI := 355 # 113;
     Math_cos := fun _ => 0;
     Math_sin := fun _ => -1;
     gradientColour := fun g _ _ => firstStopColour g;
     resample := nearest;
     numberToString := fun q => if Qeq_bool q 0 then "0" else if Qeq_bool q 1 then "1" else "n";
     World := Z;
     Date_now := fun w => (w, (w + 1)%Z);
     spriteLoader_load := fun w url =>
       (if loads url
        then Some (mkImage 2 2 (fun _ _ => premultiply (rgb255 10 20 30)))
        else None, w) |}.

Definition browser : Platform := host (fun _ => true) (fun _ => true).

(** A runtime that honours hue and overlay (and the Porter-Duff operators)
    but not color. *)
Definition hueOnly : Platform :=
  host (fun s => negb ((s =? "color") || (s =? "saturation") || (s =? "luminosity")
                       || (s =? "screen") || (s =? "lighter")))
       (fun _ => true).

(** A 2×1 canvas: a half-transparent grey pixel and an empty one. *)
Definition twoPixels : HTMLCanvasElement :=
  mkCanvas 2 1 (fun x _ => if (x =? 0)%Z then mkPixel (1 # 4) (1 # 4) (1 # 4) (1 # 2)
                           else transparent)
           defaultState [].

Definition blankFrame (d : Z) : GifFrame := mkGifFrame (createCanvas 1 1) d.

Definition threeFrames : list GifFrame := [blankFrame 100; blankFrame 100; blankFrame 100].

(** Cache keys [k0], [k1], ... and [n] insertions of them, the [i]-th at
    clock reading [clock i]. *)
Definition keyOf (i : nat) : string := "k" ++ NilEmpty.string_of_uint (Nat.to_uint i).

Definition fill (n : nat) (clock : nat -> Z) : list RenderCache.Op :=
  map (fun i => RenderCache.OpSet (clock i) (keyOf i) (createCanvas 1 1)) (seq 0 n).

(** The animation of the specification: a 10×10 transparent canvas, three
    frames, the second an opaque red 4×4 square at (2, 2) with disposal 2. *)
Definition redSquare (buffer : list Z) : list Z :=
  flat_map (fun n => let x := Z.of_nat (n mod 10) in
                     let y := Z.of_nat (n / 10) in
                     if inRect 2 2 4 4 x y then [255; 0; 0; 255]%Z else [0; 0; 0; 0]%Z)
           (seq 0 100).

Definition threeFrameGif : GifReader :=
  mkReader 10 10 3
    (fun i => match i with
              | 1%nat => mkFrameInfo 2 2 4 4 10 2
              | _ => mkFrameInfo 0 0 10 10 10 1
              end)
    (fun i buffer => match i with
                     | 1%nat => redSquare buffer
                     | _ => buffer
                     end).

(** A host whose loader resolves the base sprite only: every icon, overlay
    and cosmetic layer fails to load. *)
Definition baseOnly : Platform := host (fun _ => true) (fun url => url =? "base.png").

Definition wetIconUrl : string :=
  "https://mg-api.ariedam.fr/assets/sprites/mutation/Wet.png?v=abc".

Definition sampleState : CanvasRenderer.AppState :=
  CanvasRenderer.mkAppState
    (Some (mkSpriteData
             [mkCategory "mutation"
                [mkEntry Frame "sprite/mutation/Wet" "Wet" "https://cdn/Wet.png?v=abc" None]]))
    (Some (mkCosmetics
             [mkCosmeticCategory "Top" [mkCosmeticItem "hat" "https://cdn/hat.png"]]))
    None.

(** A cosmetic slot on the base sprite, Wet selected, icons and overlays
    on, a hat on top. *)
Definition sampleSlot : CanvasRenderer.Slot :=
  CanvasRenderer.mkSlot CanvasRenderer.CosmeticSlot "sprite/plant/Carrot" "base.png"
    ["Wet"] true true (MutationEngine.mkTint "#ffffff" 0) 1 0 true
    (Some [("Top", "hat")]) None false.

End Fixtures.

(** ** Further inputs for the examples *)

Module Samples.
Import Canvas2D GifDecoder.
Local Open Scope string_scope.

(** A 2×1 canvas in the default state: an opaque pixel and an empty one. *)
Definition opaqueAndEmpty : HTMLCanvasElement :=
  mkCanvas 2 1 (fun x _ => if (x =? 0)%Z then mkPixel (1 # 2) (1 # 4) (1 # 8) 1
                           else transparent)
           defaultState [].

(** A 2×1 animation of three frames: a red pixel on the left that is kept,
    a green pixel on the right with disposal 3, then an empty frame. *)
Definition restoreGif : GifReader :=
  mkReader 2 1 3
    (fun i => match i with
              | 1%nat => mkFrameInfo 0 0 2 1 10 3
              | _ => mkFrameInfo 0 0 2 1 10 1
              end)
    (fun i buffer => match i with
                     | 0%nat => [255; 0; 0; 255; 0; 0; 0; 0]%Z
                     | 1%nat => [0; 0; 0; 0; 0; 255; 0; 255]%Z
                     | _ => buffer
                     end).

(** The colours of the filter table, those of Rainbow included. *)
Definition rainbowColor (s : string) : option Colour :=
  if s =? "#FF9100" then Some (Fixtures.rgb255 255 145 0)
  else if s =? "#FFEA00" then Some (Fixtures.rgb255 255 234 0)
  else if s =? "#00E676" then Some (Fixtures.rgb255 0 230 118)
  else if s =? "#2979FF" then Some (Fixtures.rgb255 41 121 255)
  else if s =? "#D500F9" then Some (Fixtures.rgb255 213 0 249)
  else Fixtures.tableColor s.

(** A host like [Fixtures.browser] that parses these colours too; a
    gradient paints the colour of its first stop. *)
Definition painter : Platform :=
  {| honours := fun _ => true;
     cssColor := rainbowColor;
     Math_PI := 355 # 113;
     Math_cos := fun _ => 0;
     Math_sin := fun _ => -1;
     gradientColour := fun g _ _ =>
       match stops g with
       | (_, c) :: _ => match rainbowColor c with
                        | Some col => col
                        | None => Fixtures.rgb255 255 255 255
                        end
       | [] => mkColour 0 0 0 0
       end;
     resample := Fixtures.nearest;
     numberToString := fun q => if Qeq_bool q 0 then "0" else if Qeq_bool q 1 then "1" else "n";
     World := Z;
     Date_now := fun w => (w, (w + 1)%Z);
     spriteLoader_load := fun w url =>
       (Some (mkImage 2 2 (fun _ _ => premultiply (Fixtures.rgb255 10 20 30))), w) |}.

(** A host like [Fixtures.browser] whose network fails after the first
    load: the world is the clock and whether the network is still up. *)
Definition oneShot : Platform :=
  {| honours := fun _ => true;
     cssColor := Fixtures.tableColor;
     Math_PI := 355 # 113;
     Math_cos := fun _ => 0;
     Math_sin := fun _ => -1;
     gradientColour := fun g _ _ => Fixtures.firstStopColour g;
     resample := Fixtures.nearest;
     numberToString := fun q => if Qeq_bool q 0 then "0" else if Qeq_bool q 1 then "1" else "n";
     World := (Z * bool)%type;
     Date_now := fun w => (fst w, ((fst w + 1)%Z, snd w));
     spriteLoader_load := fun w url =>
       (if snd w
        then Some (mkImage 2 2 (fun _ _ => premultiply (Fixtures.rgb255 10 20 30)))
        else None, (fst w, false)) |}.

(** The slot of [Fixtures.sampleSlot] under a red custom tint. *)
Definition tintedSlot : CanvasRenderer.Slot :=
  CanvasRenderer.mkSlot CanvasRenderer.CosmeticSlot "sprite/plant/Carrot" "base.png"
    ["Wet"] true true (MutationEngine.mkTint "#ff0000" (1 # 2)) 1 0 true
    (Some [("Top", "hat")]) None false.

End Samples.

(** ** Notions the further properties are stated with *)

Module Notions.
Import Canvas2D GifDecoder ColorMath MutationEngine.

(** Two canvases of the same size in the same drawing state. *)
Definition sameFrame (c d : HTMLCanvasElement) : Prop :=
  width c = width d /\ height c = height d /\ state c = state d /\ saved c = saved d.

(** The operators under which an opaque backdrop stays opaque. *)
Definition keepsOpaque (o : CompositeOp) : bool :=
  match o with DestinationIn => false | _ => true end.

(** A pixel a canvas can hold: coverage in [[0,1]], no colour without
    coverage. *)
Definition validPixel (p : Pixel) : Prop :=
  0 <= pa p /\ pa p <= 1 /\ premultiplied p.

(** The buffer the reader fills is a [Uint8ClampedArray]: handed over
    zeroed, it holds bytes after the call. *)
Definition fillsBytes (reader : GifReader) : Prop :=
  forall i n,
    (0 <= byteAt (decodeAndBlitFrameRGBA reader i
                    (repeat 0%Z (Z.to_nat (readerWidth reader * readerHeight reader * 4)))) n
     <= 255)%Z.

(** What frame [i] leaves on the compositing canvas once drawn, before
    its disposal. *)
Definition drawn (reader : GifReader) (i : nat) : HTMLCanvasElement :=
  let info := frameInfo reader i in
  let comp := compBefore reader i in
  drawImage (if (disposal info =? 2)%Z
             then clearRect comp (fx info) (fy info) (fwidth info) (fheight info)
             else comp)
            (frameCanvas reader i) 0 0.

Section WithPlatform.
Context {P : Platform}.

(** The colours [fillGrad] hands to [addColorStop] for a filter. *)
Definition stopColours (f : FilterDef) : list string :=
  match colors f with [] => ["#fff"%string] | cols => cols end.

Definition parses (c : string) : bool :=
  match cssColor c with Some _ => true | None => false end.

(** A pipeline whose masked steps have stop colours that all parse: no
    [addColorStop] throws.  (A flat step assigns its colour to
    [fillStyle], which ignores what it cannot parse.) *)
Definition paintable (pipeline : list Step) : bool :=
  forallb (fun step => negb (masked (snd step)) || forallb parses (stopColours (snd step)))
          pipeline.

(** [later w w']: the host can get from [w] to [w'] by loads and readings
    of the clock. *)
Inductive later (w : World) : World -> Prop :=
  | later_now : later w w
  | later_load (w' : World) (url : string) :
      later w w' -> later w (snd (spriteLoader_load w' url))
  | later_clock (w' : World) :
      later w w' -> later w (snd (Date_now w')).

(** From [w] on, every load is rejected. *)
Definition offline (w : World) : Prop :=
  forall w' url, later w w' -> fst (spriteLoader_load w' url) = None.

End WithPlatform.

End Notions.

(** ** The scheduler and its host, as a client drives them *)

Module FrameLoop.
Import GifDecoder FrameScheduler.

(** The browser runs the oldest pending animation-frame request: the
    request is consumed and the callback registered with it, [tick],
    runs. *)
Definition fire (sh : Scheduler * Host) : Scheduler * Host :=
  let '(s, h) := sh in
  match pendingFrames h with
  | [] => sh
  | _ :: rest => tick (s, mkHost (now h) (nextHandle h) rest (events h))
  end.

(** Time passes on the clock of [performance.now()]. *)
Definition elapse (sh : Scheduler * Host) (dt : Q) : Scheduler * Host :=
  let '(s, h) := sh in
  (s, mkHost (now h + dt) (nextHandle h) (pendingFrames h) (events h)).

(** What can happen to a scheduler: a call of one of its public methods
    ([seek] with an integer index, [setCallback] with a callback that only
    records its call), an animation frame, time passing. *)
Inductive Call : Type :=
  | Play
  | Pause
  | Stop
  | Seek (index : Z)
  | SetFrames (frames : list GifFrame)
  | SetCallback (cb : Callback)
  | Fire
  | Elapse (dt : Q).

Definition call (sh : Scheduler * Host) (c : Call) : Scheduler * Host :=
  match c with
  | Play => play sh
  | Pause => pause sh
  | Stop => stop sh
  | Seek index => seek sh index
  | SetFrames fs => setFrames sh fs
  | SetCallback cb => (setCallback (fst sh) cb, snd sh)
  | Fire => fire sh
  | Elapse dt => elapse sh dt
  end.

Definition calls (cs : list Call) (sh : Scheduler * Host) : Scheduler * Host :=
  fold_left call cs sh.

(** A fresh scheduler in a host with nothing pending. *)
Definition boot : Scheduler * Host := (initial, mkHost 0 1 [] []).

(** The calls that leave the scheduler alone. *)
Definition passive (c : Call) : bool :=
  match c with Fire | Elapse _ => true | _ => false end.

(** What holds of a scheduler between calls: the index is in range, the
    loop is scheduled exactly while playing, and then only once, and there
    is something to play. *)
Definition steady (sh : Scheduler * Host) : Prop :=
  let '(s, h) := sh in
  (0 <= currentIndex s <= Z.max 0 (frameCount s - 1))%Z
  /\ pendingFrames h = match animationId s with Some id => [id] | None => [] end
  /\ playing s = match animationId s with Some _ => true | None => false end
  /\ (playing s = true -> frames s <> []).

(** An event that hands the callback a frame that exists. *)
Definition carriesFrame (e : Event) : Prop :=
  match e with
  | OnFrame _ (Some _) index => (0 <= index)%Z
  | OnFrame _ None _ => False
  end.

End FrameLoop.

(* ================================================================== *)
(** * Part II. Properties *)
(* ================================================================== *)

(** Case analysis on every comparison of strings in the goal. *)
Ltac string_cases :=
  repeat match goal with
         | |- context [String.eqb ?a ?b] =>
             destruct (String.eqb_spec a b); subst; try discriminate
         end.

(** ** [pickBlendOp] *)

Section PickBlendOp.
Import ColorMath SpecReading.
Local Open Scope string_scope.

Lemma has_In (s : list string) (x : string) : has s x = true <-> In x s.
Proof.
  unfold has. rewrite existsb_exists. split.
  - intros [y [Hy Heq]]. apply String.eqb_eq in Heq. now subst.
  - intros H. exists x. split; [assumption | apply String.eqb_refl].
Qed.

(** C8, as the code has it: [pickBlendOp] returns the requested operator
    when it is supported, and otherwise the first supported operator in the
    order overlay, screen, lighter; when none of these is supported it
    returns source-atop, supported or not.  The result is thus always the
    requested operator, one of these three, or source-atop. *)
Theorem pickBlendOp_first_supported (supported : list string) (desired : string) :
  pickBlendOp supported desired
  = match find (has supported) [desired; "overlay"; "screen"; "lighter"] with
    | Some o => o
    | None => "source-atop"
    end
  /\ (In desired supported -> pickBlendOp supported desired = desired)
  /\ (pickBlendOp supported desired = "source-atop"
      \/ In (pickBlendOp supported desired) supported).
Proof.
  unfold pickBlendOp; cbn [find].
  destruct (has supported desired) eqn:Hd.
  { repeat split; auto. right. now apply has_In. }
  destruct (has supported "overlay") eqn:Ho.
  { repeat split; auto.
    - intros Hin. apply has_In in Hin. congruence.
    - right. now apply has_In. }
  destruct (has supported "screen") eqn:Hs.
  { repeat split; auto.
    - intros Hin. apply has_In in Hin. congruence.
    - right. now apply has_In. }
  destruct (has supported "lighter") eqn:Hl.
  { repeat split; auto.
    - intros Hin. apply has_In in Hin. congruence.
    - right. now apply has_In. }
  repeat split; auto.
  intros Hin. apply has_In in Hin. congruence.
Qed.

(** C8, as the specification words it, fails: on a runtime that honours hue
    and overlay but not color, a request for color falls back to overlay,
    where the order "color, hue/saturation family, overlay, ..." gives
    hue. *)
Lemma pickBlendOp_skips_hue :
  @SUPPORTED_BLEND_OPS Fixtures.hueOnly = ["hue"; "overlay"; "source-atop"]
  /\ pickBlendOp (@SUPPORTED_BLEND_OPS Fixtures.hueOnly) "color" = "overlay"
  /\ pickBlendOp_spec (@SUPPORTED_BLEND_OPS Fixtures.hueOnly) "color" = "hue"
  /\ pickBlendOp (@SUPPORTED_BLEND_OPS Fixtures.hueOnly) "color"
     <> pickBlendOp_spec (@SUPPORTED_BLEND_OPS Fixtures.hueOnly) "color".
Proof.
  assert (E : @SUPPORTED_BLEND_OPS Fixtures.hueOnly = ["hue"; "overlay"; "source-atop"])
    by (vm_compute; reflexivity).
  rewrite E. repeat split; try (vm_compute; reflexivity).
  vm_compute. discriminate.
Qed.

End PickBlendOp.

(** ** The frame scheduler *)

Section Seek.
Import GifDecoder FrameScheduler.

Lemma frameAt_in_range (fs : list GifFrame) (i : Z) :
  (0 <= i < Z.of_nat (List.length fs))%Z -> exists f, frameAt fs i = Some f.
Proof.
  intros [Hlo Hhi]. unfold frameAt.
  destruct (Z.ltb_spec i 0); [lia |].
  destruct (nth_error fs (Z.to_nat i)) eqn:E; [eauto |].
  apply nth_error_None in E. lia.
Qed.

Lemma frameAt_empty (i : Z) : frameAt [] i = None.
Proof.
  unfold frameAt. destruct (i <? 0)%Z; [reflexivity |].
  now destruct (Z.to_nat i).
Qed.

(** C6: on a non-empty frame list of length [n], with a callback [cb]
    registered, [seek(i)] sets the current index to [i] clamped into
    [[0, n-1]] and, before it returns, calls [cb] once with the frame at
    that index and the index; whether the scheduler is playing, paused or
    stopped plays no part, and that state is left as it was. *)
Theorem seek_clamps_and_notifies (s : Scheduler) (h : Host) (i : Z) (cb : Callback) :
  frames s <> [] ->
  onFrame s = Some cb ->
  let n := frameCount s in
  let j := (if i <? 0 then 0 else if n - 1 <? i then n - 1 else i)%Z in
  let '(s', h') := seek (s, h) i in
  currentFrameIndex s' = j
  /\ (0 <= j <= n - 1)%Z
  /\ (exists frame, frameAt (frames s) j = Some frame
                    /\ events h' = events h ++ [OnFrame cb (Some frame) j])
  /\ isPlaying s' = isPlaying s
  /\ animationId s' = animationId s
  /\ frames s' = frames s
  /\ pendingFrames h' = pendingFrames h.
Proof.
  intros Hne Hcb n j.
  assert (Hn : (1 <= n)%Z).
  { unfold n, frameCount. destruct (frames s); [congruence | cbn [List.length]; lia]. }
  assert (Hj : Z.max 0 (Z.min i (n - 1)) = j).
  { unfold j. destruct (Z.ltb_spec i 0); destruct (Z.ltb_spec (n - 1) i); lia. }
  assert (Hr : (0 <= j <= n - 1)%Z).
  { unfold j. destruct (Z.ltb_spec i 0); destruct (Z.ltb_spec (n - 1) i); lia. }
  destruct (frameAt_in_range (frames s) j) as [f Hf].
  { unfold n, frameCount in Hr. lia. }
  unfold seek, notify. cbn [frames currentIndex onFrame playing animationId].
  fold n. rewrite Hj, Hcb, Hf.
  unfold currentFrameIndex, isPlaying. cbn.
  split; [reflexivity |]. split; [exact Hr |].
  split; [exists f; split; reflexivity |]. repeat split.
Qed.

(** C6 at work: three frames, [seek(1)], on a scheduler that is playing. *)
Lemma seek_clamps_and_notifies_witness :
  let s := mkScheduler Fixtures.threeFrames 2 (Some 7%Z) 0 true (Some 5%nat) in
  let h := mkHost 0 8 [7%Z] [] in
  currentFrameIndex (fst (seek (s, h) 1)) = 1%Z
  /\ events (snd (seek (s, h) 1)) = [OnFrame 5%nat (Some (Fixtures.blankFrame 100)) 1].
Proof.
  intros s h.
  pose proof (seek_clamps_and_notifies s h 1 5%nat) as H.
  assert (H1 : frames s <> []) by (unfold s; cbn; discriminate).
  assert (H2 : onFrame s = Some 5%nat) by reflexivity.
  specialize (H H1 H2). cbv zeta in H.
  destruct (seek (s, h) 1) as [s' h'] eqn:E.
  destruct H as [Hi [_ [[f [Hf He]] _]]].
  cbn [fst snd]. split.
  - exact Hi.
  - rewrite He. vm_compute in Hf. injection Hf as <-. reflexivity.
Defined.

(** C10: on an empty frame list, [seek(i)] calls no callback and leaves the
    current index at 0, for every [i] and whether or not a callback is
    registered. *)
Theorem seek_empty_is_silent (s : Scheduler) (h : Host) (i : Z) :
  frames s = [] ->
  currentFrameIndex (fst (seek (s, h) i)) = 0%Z
  /\ snd (seek (s, h) i) = h.
Proof.
  intros He. unfold seek, notify, frameCount, currentFrameIndex.
  cbn [fst snd frames currentIndex onFrame]. rewrite He. cbn [List.length Z.of_nat].
  split; [lia |].
  rewrite frameAt_empty. now destruct (onFrame s).
Qed.

Lemma seek_empty_is_silent_witness :
  let s := mkScheduler [] 0 None 0 false (Some 5%nat) in
  let h := mkHost 0 0 [] [] in
  currentFrameIndex (fst (seek (s, h) 4)) = 0%Z /\ snd (seek (s, h) 4) = h.
Proof.
  intros s h. apply (seek_empty_is_silent s h 4). reflexivity.
Defined.

End Seek.

(** ** The rendering order *)

Section RenderOrderFacts.
Import MutationDefs RenderOrder.
Local Open Scope string_scope.
Local Open Scope list_scope.

Let cmp (a b : string) : Z := (renderRank a - renderRank b)%Z.

Lemma insertBy_skip (x : string) (front back : list string) :
  Forall (fun y => (renderRank y < renderRank x)%Z) front ->
  insertBy cmp x (front ++ back) = front ++ insertBy cmp x back.
Proof.
  induction 1 as [| y front Hy _ IH]; [reflexivity |].
  cbn [app insertBy]. unfold cmp at 1.
  destruct (Z.leb_spec (renderRank x - renderRank y) 0); [lia |].
  now rewrite IH.
Qed.

Lemma insertBy_front (x : string) (l : list string) :
  Forall (fun y => (renderRank x <= renderRank y)%Z) l ->
  insertBy cmp x l = x :: l.
Proof.
  destruct 1 as [| y l Hy _]; [reflexivity |].
  cbn [insertBy]. unfold cmp.
  destruct (Z.leb_spec (renderRank x - renderRank y) 0); [reflexivity | lia].
Qed.

Lemma ofRank_rank (l : list string) (r : Z) :
  Forall (fun y => renderRank y = r) (ofRank l r).
Proof.
  apply Forall_forall. intros y Hy. apply filter_In in Hy. lia.
Qed.

Lemma byRank_above (rs : list Z) (l : list string) (b : Z) :
  Forall (fun r => (b <= r)%Z) rs ->
  Forall (fun y => (b <= renderRank y)%Z) (byRank rs l).
Proof.
  intros Hrs. apply Forall_forall. intros y Hy.
  apply in_flat_map in Hy. destruct Hy as [r [Hr Hy]].
  apply filter_In in Hy. rewrite Forall_forall in Hrs. specialize (Hrs r Hr). lia.
Qed.

Lemma byRank_other (rs : list Z) (l : list string) (x : string) :
  ~ In (renderRank x) rs -> byRank rs (x :: l) = byRank rs l.
Proof.
  induction rs as [| r rs IH]; [reflexivity |].
  intros Hn. cbn [byRank flat_map]. unfold ofRank at 1. cbn [filter].
  destruct (Z.eqb_spec (renderRank x) r) as [E | _].
  - exfalso. apply Hn. now left.
  - f_equal. apply IH. intros Hin. apply Hn. now right.
Qed.

(** Inserting [x] into the grouping of [l] gives the grouping of [x :: l]:
    [x] goes to the front of its own group. *)
Lemma insertBy_byRank (rs : list Z) (l : list string) (x : string) :
  Sorted.StronglySorted Z.lt rs ->
  In (renderRank x) rs ->
  insertBy cmp x (byRank rs l) = byRank rs (x :: l).
Proof.
  induction 1 as [| r rs Hs IH Hr]; [contradiction |].
  intros Hin. cbn [byRank flat_map].
  destruct (Z.eq_dec (renderRank x) r) as [E | NE].
  - (* the group of [x] *)
    assert (Hfresh : ~ In (renderRank x) rs).
    { intros Hx. rewrite Forall_forall in Hr. specialize (Hr _ Hx). lia. }
    fold (byRank rs (x :: l)) (byRank rs l). rewrite (byRank_other rs l x Hfresh).
    unfold ofRank at 2. cbn [filter]. rewrite (proj2 (Z.eqb_eq _ _) E).
    cbn [app]. apply insertBy_front.
    apply Forall_app. split.
    + eapply Forall_impl; [| apply ofRank_rank]. cbn. intros; lia.
    + eapply Forall_impl; [| apply (byRank_above rs l r)].
      * cbn. intros; lia.
      * eapply Forall_impl; [| exact Hr]. cbn. intros; lia.
  - (* a later group *)
    assert (Hin' : In (renderRank x) rs) by (destruct Hin; [congruence | assumption]).
    assert (Hlt : (r < renderRank x)%Z).
    { rewrite Forall_forall in Hr. exact (Hr _ Hin'). }
    fold (byRank rs (x :: l)) (byRank rs l).
    rewrite insertBy_skip.
    + rewrite (IH Hin'). f_equal.
      unfold ofRank. cbn [filter].
      destruct (Z.eqb_spec (renderRank x) r); [contradiction | reflexivity].
    + eapply Forall_impl; [| apply ofRank_rank]. cbn. intros; lia.
Qed.

Lemma RANKS_sorted : Sorted.StronglySorted Z.lt RANKS.
Proof.
  unfold RANKS. repeat (constructor; [| repeat constructor; lia]). constructor.
Qed.

Lemma renderRank_in_RANKS (id : string) : In (renderRank id) RANKS.
Proof.
  unfold renderRank, MUTATION_RENDER_ORDER, orElse, RANKS.
  repeat match goal with
         | |- context [String.eqb ?a ?b] => destruct (String.eqb a b)
         end; cbn; tauto.
Qed.

(** The sort is the grouping by rank. *)
Lemma resolve_byRank (l : list string) : resolveActiveMutations l = byRank RANKS l.
Proof.
  unfold resolveActiveMutations. induction l as [| x l IH].
  - reflexivity.
  - cbn [sortBy]. rewrite IH. apply insertBy_byRank.
    + apply RANKS_sorted.
    + apply renderRank_in_RANKS.
Qed.

(** A known rank belongs to one name only. *)
Lemma renderRank_known_inj (x y : string) :
  renderRank x = renderRank y -> isKnown x = true -> x = y.
Proof.
  unfold isKnown, renderRank, MUTATION_RENDER_ORDER, orElse.
  string_cases; intros; try reflexivity; discriminate.
Qed.

Lemma renderRank_unknown (x : string) : isKnown x = false <-> renderRank x = 50%Z.
Proof.
  unfold isKnown, renderRank, MUTATION_RENDER_ORDER, orElse.
  repeat match goal with
         | |- context [String.eqb ?a ?b] => destruct (String.eqb a b)
         end; split; intros; try reflexivity; try discriminate.
Qed.

(** Lists over a single value are equal when their lengths are. *)
Lemma constant_lists_eq (c : string) (l1 l2 : list string) :
  Forall (eq c) l1 -> Forall (eq c) l2 -> List.length l1 = List.length l2 -> l1 = l2.
Proof.
  intros H1. revert l2. induction H1 as [| a l1 Ha _ IH]; intros l2 H2 Hlen.
  - destruct l2; [reflexivity | discriminate].
  - destruct H2 as [| b l2 Hb H2]; [discriminate |].
    subst. f_equal. apply IH; [assumption | now injection Hlen].
Qed.

Lemma Permutation_filter_local {A : Type} (f : A -> bool) (l1 l2 : list A) :
  Permutation l1 l2 -> Permutation (filter f l1) (filter f l2).
Proof.
  induction 1 as [| x l1 l2 _ IH | x y l | l1 l2 l3 _ IH1 _ IH2]; cbn [filter].
  - constructor.
  - destruct (f x); [now constructor | assumption].
  - destruct (f x), (f y); try apply Permutation_refl. apply perm_swap.
  - eapply perm_trans; eassumption.
Qed.

Lemma ofRank_known_perm (l1 l2 : list string) (r : Z) :
  r <> 50%Z -> Permutation l1 l2 -> ofRank l1 r = ofRank l2 r.
Proof.
  intros Hr Hp.
  pose proof (Permutation_filter_local (fun id => (renderRank id =? r)%Z) l1 l2 Hp) as Hf.
  fold (ofRank l1 r) (ofRank l2 r) in Hf.
  destruct (ofRank l1 r) as [| c t1] eqn:E1.
  - apply Permutation_nil in Hf. now rewrite Hf.
  - assert (Hc : renderRank c = r).
    { pose proof (ofRank_rank l1 r) as H. rewrite E1 in H. now inversion H. }
    assert (Hk : isKnown c = true).
    { destruct (isKnown c) eqn:K; [reflexivity |].
      apply renderRank_unknown in K. congruence. }
    assert (Hall : forall l, Forall (eq c) (ofRank l r)).
    { intros l. eapply Forall_impl; [| apply ofRank_rank].
      cbn. intros y Hy. apply renderRank_known_inj; [congruence | assumption]. }
    rewrite <- E1.
    apply (constant_lists_eq c); try apply Hall.
    rewrite E1. now apply Permutation_length.
Qed.

Lemma ofRank_unknown (l : list string) :
  ofRank l 50 = filter (fun id => negb (isKnown id)) l.
Proof.
  unfold ofRank. apply filter_ext. intros id.
  destruct (isKnown id) eqn:K; cbn [negb].
  - apply Z.eqb_neq. intros E. apply renderRank_unknown in E. congruence.
  - apply Z.eqb_eq. now apply renderRank_unknown.
Qed.

(** C3, as the code has it: for ids none of which is a property name
    inherited from [Object.prototype] (for those the comparator is [NaN]
    and the order is the engine's), [resolveActiveMutations] returns the
    selected ids grouped in the fixed rendering order (Wet, Chilled, Frozen,
    Thunderstruck, Dawnlit, Ambershine, Dawncharged, Ambercharged, Gold,
    Rainbow), the unknown ids after all known ones and in their original
    relative order; and two inputs that are permutations of each other
    with the same sequence of unknown ids (in particular two inputs of
    known ids only) give the identical output. *)
Theorem resolveActiveMutations_order (l1 l2 : list string) :
  JsObject.ownKeys l1 ->
  Permutation l1 l2 ->
  filter (fun id => negb (isKnown id)) l1 = filter (fun id => negb (isKnown id)) l2 ->
  resolveActiveMutations l1 = resolveActiveMutations l2
  /\ resolveActiveMutations l1
     = flat_map (fun name => filter (String.eqb name) l1) RENDER_ORDER
       ++ filter (fun id => negb (isKnown id)) l1.
Proof.
  intros _ Hp Hu. split.
  - rewrite !resolve_byRank. unfold byRank, RANKS. cbn [flat_map].
    rewrite !ofRank_unknown, Hu.
    assert (Hr : forall r, In r [0; 1; 2; 3; 4; 5; 6; 7; 8; 9]%Z -> ofRank l1 r = ofRank l2 r).
    { intros r Hin. apply ofRank_known_perm; [| exact Hp].
      intros ->. cbn in Hin. intuition discriminate. }
    rewrite (Hr 0%Z), (Hr 1%Z), (Hr 2%Z), (Hr 3%Z), (Hr 4%Z), (Hr 5%Z), (Hr 6%Z),
      (Hr 7%Z), (Hr 8%Z), (Hr 9%Z) by (cbn; tauto).
    reflexivity.
  - assert (Hn : forall name r,
               In (name, r) (combine RENDER_ORDER [0; 1; 2; 3; 4; 5; 6; 7; 8; 9]%Z) ->
               ofRank l1 r = filter (String.eqb name) l1).
    { intros name r Hin. apply filter_ext. intros id. cbn in Hin.
      repeat (destruct Hin as [Hin | Hin];
              [ injection Hin as <- <-;
                unfold renderRank, MUTATION_RENDER_ORDER, orElse;
                rewrite (String.eqb_sym _ id); string_cases; reflexivity
              | ]).
      contradiction. }
    rewrite resolve_byRank. unfold byRank, RANKS, RENDER_ORDER. cbn [flat_map].
    rewrite ofRank_unknown, !app_nil_r, <- !app_assoc.
    rewrite (Hn "Wet" 0%Z), (Hn "Chilled" 1%Z), (Hn "Frozen" 2%Z), (Hn "Thunderstruck" 3%Z),
      (Hn "Dawnlit" 4%Z), (Hn "Ambershine" 5%Z), (Hn "Dawncharged" 6%Z),
      (Hn "Ambercharged" 7%Z), (Hn "Gold" 8%Z), (Hn "Rainbow" 9%Z) by (cbn; tauto).
    reflexivity.
Qed.

Lemma resolveActiveMutations_order_witness :
  JsObject.ownKeys ["Zap"; "Rainbow"; "Wet"]
  /\ resolveActiveMutations ["Zap"; "Rainbow"; "Wet"] = resolveActiveMutations ["Zap"; "Wet"; "Rainbow"]
  /\ resolveActiveMutations ["Zap"; "Rainbow"; "Wet"] = ["Wet"; "Rainbow"; "Zap"].
Proof.
  assert (Hown : JsObject.ownKeys ["Zap"; "Rainbow"; "Wet"]) by (repeat constructor).
  split; [exact Hown |].
  destruct (resolveActiveMutations_order ["Zap"; "Rainbow"; "Wet"] ["Zap"; "Wet"; "Rainbow"])
    as [H1 H2].
  - exact Hown.
  - apply perm_skip. apply perm_swap.
  - reflexivity.
  - split; [exact H1 | rewrite H2; reflexivity].
Defined.

(** C3, for every permutation, fails: two unknown ids, neither of them an
    inherited property name, keep the order in which they were selected. *)
Lemma resolveActiveMutations_unknown_order :
  Permutation ["Zap"; "Fizz"] ["Fizz"; "Zap"]
  /\ JsObject.ownKeys ["Zap"; "Fizz"]
  /\ resolveActiveMutations ["Zap"; "Fizz"] = ["Zap"; "Fizz"]
  /\ resolveActiveMutations ["Fizz"; "Zap"] = ["Fizz"; "Zap"]
  /\ resolveActiveMutations ["Zap"; "Fizz"] <> resolveActiveMutations ["Fizz"; "Zap"].
Proof.
  split; [apply perm_swap |].
  split; [repeat constructor |].
  split; [reflexivity |]. split; [reflexivity |].
  vm_compute. discriminate.
Qed.

End RenderOrderFacts.

(** ** Icon layout *)

Section IconLayoutFacts.
Import MutationDefs IconLayout.

(** On a base name that is not an inherited property name, the offsets
    JavaScript computes are numbers, those of [computeIconLayout]. *)
Lemma offsetNumbers_own (w h ax ay : Q) (spriteKey : string) (isTall : bool) :
  JsObject.inherited (baseNameOf spriteKey) = false ->
  offsetNumbers w h ax ay spriteKey
  = (Some (offsetX (computeIconLayout w h ax ay spriteKey isTall)),
     Some (offsetY (computeIconLayout w h ax ay spriteKey isTall))).
Proof.
  intros Hown. unfold offsetNumbers, computeIconLayout, JsObject.numberOr, targetX, targetY.
  cbn [offsetX offsetY]. rewrite Hown.
  destruct (MUT_ICON_X_EXCEPT (baseNameOf spriteKey)),
    (MUT_ICON_Y_EXCEPT (baseNameOf spriteKey)); reflexivity.
Qed.

(** C7, the code at the failing input: the sprite key [constructor] (an
    uploaded [constructor.png]) is in neither exception table, yet for the
    sprite of the specification, 100×300 with anchor (0.5, 0.9), the offset
    the source computes is [NaN] on both axes: the lookup finds the
    inherited [Object.prototype.constructor], which [??] does not replace
    by the default.  The stated formulas give the offset (0, 0). *)
Theorem computeIconLayout_inherited_key :
  MUT_ICON_X_EXCEPT (baseNameOf "constructor") = None
  /\ MUT_ICON_Y_EXCEPT (baseNameOf "constructor") = None
  /\ JsObject.inherited (baseNameOf "constructor") = true
  /\ offsetNumbers 100 300 0.5 0.9 "constructor" = (None, None).
Proof. repeat split. Qed.

(** X18: for a sprite whose base name is in neither exception table and is
    not a property name inherited from [Object.prototype], the target
    anchor Y of [computeIconLayout] is the sprite's own anchor Y when
    [h > 1.5 × w] and 0.4 otherwise; the offset is
    [((targetX - ax) × w, (targetY - ay) × h)] with [targetX = ax]; and the
    icon scale is [0.5 × min(1.5, min(w, h) / 256)], doubled for a tall
    sprite. *)
Theorem computeIconLayout_default (w h ax ay : Q) (spriteKey : string) (isTall : bool) :
  JsObject.inherited (baseNameOf spriteKey) = false ->
  MUT_ICON_X_EXCEPT (baseNameOf spriteKey) = None ->
  MUT_ICON_Y_EXCEPT (baseNameOf spriteKey) = None ->
  let layout := computeIconLayout w h ax ay spriteKey isTall in
  targetX ax spriteKey = ax
  /\ (w * 1.5 < h -> targetY w h ay spriteKey = ay /\ offsetY layout == 0)
  /\ (h <= w * 1.5 -> targetY w h ay spriteKey = 0.4 /\ offsetY layout = (0.4 - ay) * h)
  /\ offsetX layout = (targetX ax spriteKey - ax) * w
  /\ offsetY layout = (targetY w h ay spriteKey - ay) * h
  /\ offsetX layout == 0
  /\ iconScale layout
     = (if isTall then 0.5 * Qmin 1.5 (Qmin w h / 256) * 2
        else 0.5 * Qmin 1.5 (Qmin w h / 256))
  /\ (width layout, height layout, anchorX layout, anchorY layout) = (w, h, ax, ay).
Proof.
  intros _ Hx Hy layout.
  assert (HtX : targetX ax spriteKey = ax) by (unfold targetX; now rewrite Hx).
  assert (HtY : targetY w h ay spriteKey = if isVerticalShape w h then ay else 0.4)
    by (unfold targetY; now rewrite Hy).
  unfold layout, computeIconLayout.
  cbn [offsetX offsetY iconScale width height anchorX anchorY].
  rewrite HtX, HtY. unfold isVerticalShape.
  split; [reflexivity |]. split; [| split].
  - intros Hv. destruct (Qlt_le_dec (w * 1.5) h) as [_ | Hle].
    + split; [reflexivity | ring].
    + exfalso. apply (Qlt_irrefl h). eapply Qle_lt_trans; eassumption.
  - intros Hv. destruct (Qlt_le_dec (w * 1.5) h) as [Hlt | _].
    + exfalso. apply (Qlt_irrefl h). eapply Qle_lt_trans; eassumption.
    + split; reflexivity.
  - split; [reflexivity |]. split; [reflexivity |]. split; [ring |].
    split; [| reflexivity].
    unfold BASE_ICON_SCALE, TILE_SIZE_WORLD, TALL_PLANT_MUTATION_ICON_SCALE_BOOST.
    now destruct isTall.
Qed.

(** On the sprite of the specification: 100×300, anchor (0.5, 0.9). *)
Lemma computeIconLayout_default_witness :
  targetY 100 300 0.9 "sprite/plant/Bamboo" = 0.9
  /\ offsetY (computeIconLayout 100 300 0.5 0.9 "sprite/plant/Bamboo" false) == 0
  /\ iconScale (computeIconLayout 100 300 0.5 0.9 "sprite/plant/Bamboo" false)
     == 25 # 128.
Proof.
  pose proof (computeIconLayout_default 100 300 0.5 0.9 "sprite/plant/Bamboo" false
                eq_refl eq_refl eq_refl) as H.
  cbv zeta in H. destruct H as [_ [Hv [_ [_ [_ [_ [Hs _]]]]]]].
  destruct Hv as [Ht Ho]; [reflexivity |].
  split; [exact Ht |]. split; [exact Ho |].
  rewrite Hs. reflexivity.
Defined.

End IconLayoutFacts.

(** ** The render cache *)

Section RenderCacheFacts.
Import Canvas2D RenderCache.
Local Open Scope Z_scope.

(** A cache as the operations keep it: one entry per key, no empty key. *)
Definition wellFormed (entries : Entries) : Prop :=
  NoDup (keys entries) /\ ~ In ""%string (keys entries).

Lemma mapGet_In (m : Entries) (k : string) (v : CacheEntry) :
  mapGet m k = Some v -> In (k, v) m.
Proof.
  induction m as [| [k' v'] m IH]; cbn [mapGet]; [discriminate |].
  destruct (String.eqb_spec k' k) as [-> | _].
  - intros [= ->]. now left.
  - intros H. right. now apply IH.
Qed.

Lemma In_mapGet (m : Entries) (k : string) (v : CacheEntry) :
  NoDup (keys m) -> In (k, v) m -> mapGet m k = Some v.
Proof.
  induction m as [| [k' v'] m IH]; cbn [mapGet keys map fst]; [contradiction |].
  intros Hnd [[= -> ->] | Hin].
  - now rewrite String.eqb_refl.
  - inversion Hnd as [| ? ? Hnot Hnd']; subst.
    destruct (String.eqb_spec k' k) as [-> | _].
    + exfalso. apply Hnot. change k with (fst (k, v)). now apply in_map.
    + now apply IH.
Qed.

Lemma mapGet_None (m : Entries) (k : string) :
  mapGet m k = None <-> ~ In k (keys m).
Proof.
  induction m as [| [k' v'] m IH]; cbn [mapGet keys map fst].
  - tauto.
  - destruct (String.eqb_spec k' k) as [-> | Hne].
    + split; [discriminate | intros H; exfalso; apply H; now left].
    + fold (keys m). rewrite IH. cbn [In]. intuition congruence.
Qed.

Lemma keys_mapSet_present (m : Entries) (k : string) (v : CacheEntry) :
  In k (keys m) -> keys (mapSet m k v) = keys m.
Proof.
  induction m as [| [k' v'] m IH]; cbn [mapSet keys map fst]; [contradiction |].
  destruct (String.eqb_spec k' k) as [-> | Hne]; [reflexivity |].
  intros [E | Hin]; [contradiction |]. cbn [map fst]. f_equal. now apply IH.
Qed.

Lemma keys_mapSet_absent (m : Entries) (k : string) (v : CacheEntry) :
  ~ In k (keys m) -> keys (mapSet m k v) = keys m ++ [k].
Proof.
  induction m as [| [k' v'] m IH]; cbn [mapSet keys map fst app]; [reflexivity |].
  destruct (String.eqb_spec k' k) as [-> | Hne].
  - intros H. exfalso. apply H. now left.
  - intros H. cbn [map fst]. f_equal. apply IH. intros Hin. apply H. now right.
Qed.

Lemma size_mapSet (m : Entries) (k : string) (v : CacheEntry) :
  size (mapSet m k v) = match mapGet m k with Some _ => size m | None => size m + 1 end.
Proof.
  unfold size. induction m as [| [k' v'] m IH]; cbn [mapSet mapGet List.length].
  - reflexivity.
  - destruct (String.eqb_spec k' k) as [-> | Hne]; [reflexivity |].
    cbn [List.length]. destruct (mapGet m k); lia.
Qed.

Lemma wellFormed_mapSet (m : Entries) (k : string) (v : CacheEntry) :
  k <> ""%string -> wellFormed m -> wellFormed (mapSet m k v).
Proof.
  intros Hk [Hnd Hne]. unfold wellFormed.
  destruct (in_dec string_dec k (keys m)) as [Hin | Hout].
  - rewrite keys_mapSet_present by assumption. now split.
  - rewrite keys_mapSet_absent by assumption. split.
    + apply NoDup_app; [assumption | repeat constructor; intros [] | ].
      intros x Hx [<- | []]. contradiction.
    + intros Hin. apply in_app_or in Hin. destruct Hin as [Hin | [E | []]];
        [contradiction | congruence].
Qed.

Lemma mapGet_mapSet_same (m : Entries) (k : string) (v : CacheEntry) :
  mapGet (mapSet m k v) k = Some v.
Proof.
  induction m as [| [k' v'] m IH]; cbn [mapSet mapGet].
  - now rewrite String.eqb_refl.
  - destruct (String.eqb_spec k' k) as [-> | Hne]; cbn [mapGet].
    + now rewrite String.eqb_refl.
    + destruct (String.eqb_spec k' k); [contradiction | assumption].
Qed.

Lemma mapGet_mapSet_other (m : Entries) (k k2 : string) (v : CacheEntry) :
  k2 <> k -> mapGet (mapSet m k v) k2 = mapGet m k2.
Proof.
  intros Hne. induction m as [| [k' v'] m IH]; cbn [mapSet mapGet].
  - destruct (String.eqb_spec k k2); [congruence | reflexivity].
  - destruct (String.eqb_spec k' k) as [-> | Hne']; cbn [mapGet].
    + destruct (String.eqb_spec k k2); [congruence | reflexivity].
    + now rewrite IH.
Qed.

Lemma mapGet_mapDelete_other (m : Entries) (k k2 : string) :
  k2 <> k -> mapGet (mapDelete m k) k2 = mapGet m k2.
Proof.
  intros Hne. induction m as [| [k' v'] m IH]; cbn [mapDelete mapGet]; [reflexivity |].
  destruct (String.eqb_spec k' k) as [-> | Hne']; cbn [mapGet].
  - destruct (String.eqb_spec k k2); [congruence | reflexivity].
  - now rewrite IH.
Qed.

Lemma filter_keeps_all {A : Type} (f : A -> bool) (l : list A) :
  (forall x, In x l -> f x = true) -> filter f l = l.
Proof.
  induction l as [| a l IH]; cbn [filter]; [reflexivity |].
  intros H. rewrite (H a) by now left. f_equal. apply IH. intros x Hx. apply H. now right.
Qed.

Lemma keys_mapDelete (m : Entries) (k : string) :
  NoDup (keys m) -> keys (mapDelete m k) = filter (fun k' => negb (String.eqb k' k)) (keys m).
Proof.
  induction m as [| [k' v'] m IH]; cbn [mapDelete keys map fst filter]; [reflexivity |].
  intros Hnd. inversion Hnd as [| ? ? Hnot Hnd']; subst.
  destruct (String.eqb_spec k' k) as [-> | Hne]; cbn [negb].
  - fold (keys m). symmetry. apply filter_keeps_all. intros x Hx.
    destruct (String.eqb_spec x k) as [-> | _]; [contradiction | reflexivity].
  - cbn [map fst]. f_equal. now apply IH.
Qed.

Lemma size_mapDelete (m : Entries) (k : string) :
  In k (keys m) -> size (mapDelete m k) = size m - 1.
Proof.
  unfold size. induction m as [| [k' v'] m IH]; cbn [mapDelete keys map fst List.length];
    [contradiction |].
  destruct (String.eqb_spec k' k) as [-> | Hne].
  - intros _. lia.
  - intros [E | Hin]; [contradiction |]. cbn [List.length]. fold (keys m) in Hin.
    specialize (IH Hin). lia.
Qed.

Lemma wellFormed_mapDelete (m : Entries) (k : string) :
  wellFormed m -> wellFormed (mapDelete m k).
Proof.
  intros [Hnd Hne]. unfold wellFormed. rewrite keys_mapDelete by assumption. split.
  - now apply NoDup_filter.
  - intros Hin. apply filter_In in Hin. tauto.
Qed.

(** *** The scan of [evictLru] *)

Let scanStep (acc : option Z * string) (kv : string * CacheEntry) : option Z * string :=
  let '(oldest, oldestKey) := acc in
  let '(k, v) := kv in
  match oldest with
  | None => (Some (lastUsed v), k)
  | Some o => if (lastUsed v <? o)%Z then (Some (lastUsed v), k) else acc
  end.

(** From a current candidate [(t0, k0)], the scan ends either on the
    candidate, no entry being older, or on the first of the entries whose
    timestamp is least. *)
Lemma scan_from (m : Entries) (t0 : Z) (k0 : string) :
  (fold_left scanStep m (Some t0, k0) = (Some t0, k0)
   /\ Forall (fun kv => t0 <= lastUsed (snd kv)) m)
  \/ (exists front k v back,
        m = front ++ (k, v) :: back
        /\ fold_left scanStep m (Some t0, k0) = (Some (lastUsed v), k)
        /\ lastUsed v < t0
        /\ Forall (fun kv => lastUsed v < lastUsed (snd kv)) front
        /\ Forall (fun kv => lastUsed v <= lastUsed (snd kv)) back).
Proof.
  revert t0 k0. induction m as [| [k1 v1] m IH]; intros t0 k0.
  - left. split; [reflexivity | constructor].
  - cbn [fold_left scanStep].
    destruct (Z.ltb_spec (lastUsed v1) t0) as [Hlt | Hge].
    + right.
      destruct (IH (lastUsed v1) k1)
        as [[Hf Hall] | [front [k [v [back [Hm [Hf [Hlt' [Hfront Hback]]]]]]]]].
      * exists [], k1, v1, m. repeat split; try assumption. constructor.
      * exists ((k1, v1) :: front), k, v, back. rewrite Hm. repeat split; try assumption.
        -- now rewrite <- Hm.
        -- lia.
        -- constructor; [cbn; lia | assumption].
    + destruct (IH t0 k0)
        as [[Hf Hall] | [front [k [v [back [Hm [Hf [Hlt' [Hfront Hback]]]]]]]]].
      * left. split; [assumption |]. constructor; [cbn; lia | assumption].
      * right. exists ((k1, v1) :: front), k, v, back. rewrite Hm.
        repeat split; try assumption.
        -- now rewrite <- Hm.
        -- constructor; [cbn; lia | assumption].
Qed.

(** On a non-empty cache the scan names the first of the entries whose
    [lastUsed] is least. *)
Lemma scanOldest_least (m : Entries) :
  m <> [] ->
  exists front k v back,
    m = front ++ (k, v) :: back
    /\ snd (scanOldest m) = k
    /\ Forall (fun kv => lastUsed v < lastUsed (snd kv)) front
    /\ Forall (fun kv => lastUsed v <= lastUsed (snd kv)) back.
Proof.
  destruct m as [| [k1 v1] m]; [congruence |]. intros _.
  unfold scanOldest. cbn [fold_left].
  change (fold_left _ m (Some (lastUsed v1), k1))
    with (fold_left scanStep m (Some (lastUsed v1), k1)).
  destruct (scan_from m (lastUsed v1) k1)
    as [[Hf Hall] | [front [k [v [back [Hm [Hf [Hlt [Hfront Hback]]]]]]]]].
  - exists [], k1, v1, m. rewrite Hf. repeat split; try assumption. constructor.
  - exists ((k1, v1) :: front), k, v, back. rewrite Hf, Hm. repeat split; try assumption.
    constructor; [cbn; lia | assumption].
Qed.

(** [evictLru] on a well-formed, non-empty cache removes exactly the entry
    the scan names. *)
Lemma evictLru_least (m : Entries) :
  wellFormed m -> m <> [] ->
  exists front k v back,
    m = front ++ (k, v) :: back
    /\ Forall (fun kv => lastUsed v < lastUsed (snd kv)) front
    /\ Forall (fun kv => lastUsed v <= lastUsed (snd kv)) back
    /\ evictLru m = mapDelete m k
    /\ size (evictLru m) = size m - 1.
Proof.
  intros [Hnd Hne] Hm.
  destruct (scanOldest_least m Hm) as [front [k [v [back [Hsplit [Hk [Hfront Hback]]]]]]].
  assert (Hkeys : In k (keys m)).
  { rewrite Hsplit. unfold keys. rewrite map_app. apply in_or_app. right. now left. }
  exists front, k, v, back. repeat split; try assumption.
  - unfold evictLru. rewrite Hk.
    destruct (String.eqb_spec k "") as [-> | _]; [contradiction | reflexivity].
  - unfold evictLru. rewrite Hk.
    destruct (String.eqb_spec k "") as [-> | _]; [contradiction |].
    now apply size_mapDelete.
Qed.

Lemma split_least (front back : Entries) (k : string) (v : CacheEntry) :
  Forall (fun kv => lastUsed v < lastUsed (snd kv)) front ->
  Forall (fun kv => lastUsed v <= lastUsed (snd kv)) back ->
  Forall (fun kv => lastUsed v <= lastUsed (snd kv)) (front ++ (k, v) :: back).
Proof.
  intros Hf Hb. apply Forall_app. split.
  - eapply Forall_impl; [| exact Hf]. cbn. intros; lia.
  - constructor; [cbn; lia | exact Hb].
Qed.

Lemma set_size (now : Z) (key : string) (c : HTMLCanvasElement) (m : Entries) :
  key <> ""%string -> wellFormed m -> size m <= MAX_ENTRIES ->
  wellFormed (set now key c m) /\ size (set now key c m) <= MAX_ENTRIES.
Proof.
  intros Hkey Hwf Hsz. unfold set.
  destruct (Z.leb_spec MAX_ENTRIES (size m)) as [Hfull | Hroom].
  - assert (Hm : m <> []) by (intros ->; cbn in Hfull; unfold MAX_ENTRIES in Hfull; lia).
    destruct (evictLru_least m Hwf Hm) as [front [k [v [back [_ [_ [_ [He Hs]]]]]]]].
    split.
    + apply wellFormed_mapSet; [assumption |]. rewrite He. now apply wellFormed_mapDelete.
    + rewrite size_mapSet. destruct (mapGet (evictLru m) key); lia.
  - split; [now apply wellFormed_mapSet |].
    rewrite size_mapSet. destruct (mapGet m key); lia.
Qed.

Lemma get_keeps (now : Z) (key : string) (m : Entries) :
  wellFormed m -> wellFormed (snd (get now key m)) /\ size (snd (get now key m)) = size m.
Proof.
  intros Hwf. unfold get. destruct (mapGet m key) as [e |] eqn:E; cbn [snd]; [| now split].
  assert (Hin : In key (keys m)).
  { apply mapGet_In in E. change key with (fst (key, e)). now apply in_map. }
  split.
  - destruct Hwf as [Hnd Hne]. unfold wellFormed.
    rewrite keys_mapSet_present by assumption. now split.
  - rewrite size_mapSet, E. reflexivity.
Qed.

(** Every run of keyed operations keeps the cache well formed and within
    its capacity. *)
Lemma run_invariant (ops : list Op) (m : Entries) :
  Forall keyed ops -> wellFormed m -> size m <= MAX_ENTRIES ->
  wellFormed (run ops m) /\ size (run ops m) <= MAX_ENTRIES.
Proof.
  intros Hops. revert m. induction Hops as [| o ops Ho _ IH]; intros m Hwf Hsz.
  - now split.
  - cbn [run fold_left]. apply IH; destruct o as [t key | t key c |]; cbn [step keyed] in *.
    + apply get_keeps; assumption.
    + now apply set_size.
    + split; [constructor | intros []].
    + rewrite (proj2 (get_keeps t key m Hwf)). assumption.
    + now apply set_size.
    + unfold MAX_ENTRIES. cbn. lia.
Qed.

(** C4, as the code has it: over every sequence of get/set/clear operations
    with non-empty keys, the cache never holds more than 300 entries; a set
    on a full cache evicts exactly one entry, the first in insertion order
    of those whose last-used timestamp is least; and since get refreshes the
    timestamp of the entry it returns, that entry survives the next set
    whenever some other entry was last used strictly earlier. *)
Theorem renderCache_lru (ops : list Op) (now : Z) (key : string) (c : HTMLCanvasElement) :
  Forall keyed ops ->
  key <> ""%string ->
  let m := run ops empty in
  size m <= MAX_ENTRIES
  /\ size (set now key c m) <= MAX_ENTRIES
  /\ (size m = MAX_ENTRIES ->
      exists front k v back,
        m = front ++ (k, v) :: back
        /\ mapGet m k = Some v
        /\ (forall k' v', mapGet m k' = Some v' -> lastUsed v <= lastUsed v')
        /\ (forall k' v', In (k', v') front -> lastUsed v < lastUsed v')
        /\ set now key c m = mapSet (mapDelete m k) key (mkCacheEntry c now)
        /\ size (mapDelete m k) = size m - 1
        /\ (forall k', k' <> k -> mapGet (mapDelete m k) k' = mapGet m k'))
  /\ (forall touched t e other,
        size m = MAX_ENTRIES ->
        mapGet m touched = Some e ->
        touched <> other ->
        (exists v, mapGet m other = Some v /\ lastUsed v < t) ->
        fst (get t touched m) = Some (canvas e)
        /\ (touched <> key ->
            mapGet (set now key c (snd (get t touched m))) touched
            = Some (mkCacheEntry (canvas e) t))).
Proof.
  intros Hops Hkey m.
  assert (Hinv : wellFormed m /\ size m <= MAX_ENTRIES).
  { apply run_invariant; [assumption | split; [constructor | intros []] |].
    unfold MAX_ENTRIES. cbn. lia. }
  destruct Hinv as [Hwf Hsz].
  split; [exact Hsz |].
  split; [now apply set_size |].
  split.
  - intros Hfull.
    assert (Hm : m <> []) by (intros E; rewrite E in Hfull; cbn in Hfull; discriminate).
    destruct (evictLru_least m Hwf Hm)
      as [front [k [v [back [Hsplit [Hfront [Hback [He Hs]]]]]]]].
    assert (Hin : In (k, v) m) by (rewrite Hsplit; apply in_or_app; right; now left).
    pose proof (split_least front back k v Hfront Hback) as Hall.
    rewrite <- Hsplit in Hall.
    exists front, k, v, back.
    split; [exact Hsplit |].
    split; [apply In_mapGet; [apply Hwf | exact Hin] |].
    split.
    { intros k' v' Hg. apply mapGet_In in Hg. rewrite Forall_forall in Hall.
      exact (Hall _ Hg). }
    split.
    { intros k' v' Hg. rewrite Forall_forall in Hfront. exact (Hfront _ Hg). }
    split.
    { unfold set. rewrite Hfull, Z.leb_refl, He. reflexivity. }
    split; [rewrite <- He; exact Hs |].
    intros k' Hk'. now apply mapGet_mapDelete_other.
  - intros touched t e other Hfull Ht Hne [v2 [Ho Hlt]].
    unfold get at 1. rewrite Ht. cbn [fst]. split; [reflexivity |].
    intros Htk.
    set (m1 := snd (get t touched m)).
    assert (Hm1 : m1 = mapSet m touched (mkCacheEntry (canvas e) t)).
    { unfold m1, get. now rewrite Ht. }
    destruct (get_keeps t touched m Hwf) as [Hwf1 Hsz1]. fold m1 in Hwf1, Hsz1.
    assert (Hm1ne : m1 <> []).
    { intros E. rewrite E in Hsz1. cbn in Hsz1. rewrite Hfull in Hsz1. discriminate. }
    destruct (evictLru_least m1 Hwf1 Hm1ne)
      as [front [k [v [back [Hsplit [Hfront [Hback [He _]]]]]]]].
    assert (Hin : In (k, v) m1) by (rewrite Hsplit; apply in_or_app; right; now left).
    pose proof (split_least front back k v Hfront Hback) as Hall.
    rewrite <- Hsplit in Hall.
    assert (Hk : k <> touched).
    { intros ->.
      assert (Hv : v = mkCacheEntry (canvas e) t).
      { apply In_mapGet in Hin; [| apply Hwf1].
        rewrite Hm1, mapGet_mapSet_same in Hin. congruence. }
      assert (Ho1 : In (other, v2) m1).
      { apply mapGet_In. rewrite Hm1, mapGet_mapSet_other by congruence. exact Ho. }
      rewrite Forall_forall in Hall. specialize (Hall _ Ho1).
      subst v. cbn in Hall. lia. }
    unfold set. rewrite Hsz1, Hfull, Z.leb_refl, He.
    rewrite mapGet_mapSet_other by congruence.
    rewrite mapGet_mapDelete_other by congruence.
    rewrite Hm1. apply mapGet_mapSet_same.
Qed.

Lemma fill_keyed (n : nat) (clock : nat -> Z) : Forall keyed (Fixtures.fill n clock).
Proof.
  apply Forall_forall. intros o Ho. unfold Fixtures.fill in Ho.
  apply in_map_iff in Ho. destruct Ho as [i [<- _]]. cbn. discriminate.
Qed.

(** C4 at work: 300 entries inserted at clock readings 0, 1, ..., 299; [k0]
    is touched at 1000; the insertion of a new key then evicts [k1] and
    keeps [k0]. *)
Lemma renderCache_lru_witness :
  let m := run (Fixtures.fill 300 Z.of_nat) empty in
  let m' := set 1001 "new" (createCanvas 1 1) (snd (get 1000 "k0" m)) in
  size m = 300
  /\ size m' <= MAX_ENTRIES
  /\ mapGet m' "k0" = Some (mkCacheEntry (createCanvas 1 1) 1000)
  /\ mapGet m' "k1" = None.
Proof.
  intros m m'.
  pose proof (renderCache_lru (Fixtures.fill 300 Z.of_nat) 1001 "new" (createCanvas 1 1)
                (fill_keyed 300 Z.of_nat) ltac:(discriminate)) as H.
  cbv zeta in H. fold m in H. destruct H as [_ [_ [_ Htouch]]].
  assert (Hsize : size m = 300) by (vm_compute; reflexivity).
  split; [exact Hsize |].
  destruct (Htouch "k0"%string 1000 (mkCacheEntry (createCanvas 1 1) 0) "k1"%string)
    as [_ Hkeep].
  - exact Hsize.
  - vm_compute. reflexivity.
  - discriminate.
  - exists (mkCacheEntry (createCanvas 1 1) 1). split; [vm_compute; reflexivity | cbn; lia].
  - split; [| split].
    + vm_compute. discriminate.
    + apply Hkeep. discriminate.
    + vm_compute. reflexivity.
Defined.

(** C4, for every sequence of operations, fails when clock readings tie:
    300 entries inserted within one millisecond, [k0] touched in that same
    millisecond; the next insertion evicts [k0], the entry just touched. *)
Lemma renderCache_tie_evicts_touched :
  let m := run (Fixtures.fill 300 (fun _ => 0)) empty in
  let m' := set 0 "new" (createCanvas 1 1) (snd (get 0 "k0" m)) in
  size m = MAX_ENTRIES
  /\ fst (get 0 "k0" m) = Some (createCanvas 1 1)
  /\ mapGet m' "k0" = None
  /\ size m' = MAX_ENTRIES.
Proof.
  vm_compute. repeat split; reflexivity.
Qed.

(** The empty string as a key defeats the eviction: [evictLru] cannot tell
    it from "no entry found", nothing is evicted, and the cache grows past
    its capacity. *)
Lemma renderCache_empty_key_overflow :
  let m := run (OpSet 0 "" (createCanvas 1 1) :: Fixtures.fill 299 (fun i => Z.of_nat i + 1))
               empty in
  size m = MAX_ENTRIES
  /\ size (set 300 "new" (createCanvas 1 1) m) = MAX_ENTRIES + 1.
Proof.
  vm_compute. split; reflexivity.
Qed.

End RenderCacheFacts.

(** ** The mutation pipeline *)

Section PipelineFacts.
Import Canvas2D ColorMath MutationDefs MutationEngine.
Context {P : Platform}.

(** *** Drawing state *)

Lemma restore_bitmap (c : HTMLCanvasElement) : bitmap (restore c) = bitmap c.
Proof. unfold restore. now destruct (saved c). Qed.

Lemma restore_size (c : HTMLCanvasElement) :
  width (restore c) = width c /\ height (restore c) = height c.
Proof. unfold restore. now destruct (saved c). Qed.

Lemma set_gco_keeps (c : HTMLCanvasElement) (s : string) :
  bitmap (set_globalCompositeOperation c s) = bitmap c
  /\ width (set_globalCompositeOperation c s) = width c
  /\ height (set_globalCompositeOperation c s) = height c
  /\ saved (set_globalCompositeOperation c s) = saved c.
Proof.
  unfold set_globalCompositeOperation.
  destruct (op_of_string s); [destruct (honours s) |]; repeat split.
Qed.

Lemma set_alpha_keeps (c : HTMLCanvasElement) (al : Q) :
  bitmap (set_globalAlpha c al) = bitmap c
  /\ width (set_globalAlpha c al) = width c
  /\ height (set_globalAlpha c al) = height c
  /\ saved (set_globalAlpha c al) = saved c
  /\ globalCompositeOperation (state (set_globalAlpha c al))
     = globalCompositeOperation (state c).
Proof.
  unfold set_globalAlpha. destruct (Qle_bool 0 al && Qle_bool al 1); repeat split.
Qed.

Lemma set_fill_keeps (c : HTMLCanvasElement) (s : string) :
  bitmap (set_fillStyle c s) = bitmap c
  /\ width (set_fillStyle c s) = width c
  /\ height (set_fillStyle c s) = height c
  /\ saved (set_fillStyle c s) = saved c
  /\ globalCompositeOperation (state (set_fillStyle c s))
     = globalCompositeOperation (state c)
  /\ globalAlpha (state (set_fillStyle c s)) = globalAlpha (state c).
Proof.
  unfold set_fillStyle. destruct (cssColor s); repeat split.
Qed.

Lemma set_gco_source_atop (c : HTMLCanvasElement) :
  honours "source-atop" = true ->
  globalCompositeOperation (state (set_globalCompositeOperation c "source-atop")) = SourceAtop
  /\ globalAlpha (state (set_globalCompositeOperation c "source-atop")) = globalAlpha (state c)
  /\ fillStyle (state (set_globalCompositeOperation c "source-atop")) = fillStyle (state c).
Proof.
  intros H. unfold set_globalCompositeOperation.
  change (op_of_string "source-atop") with (Some SourceAtop). rewrite H. repeat split.
Qed.

(** *** Source-atop keeps the backdrop's alpha *)

Lemma source_atop_alpha (s b : Pixel) : pa (composite SourceAtop s b) == pa b.
Proof. unfold composite, porterDuff. cbn [pa]. ring. Qed.

Lemma fillRect_atop_alpha (c : HTMLCanvasElement) (rx ry rw rh x y : Z) :
  globalCompositeOperation (state c) = SourceAtop ->
  pa (bitmap (fillRect c rx ry rw rh) x y) == pa (bitmap c x y).
Proof.
  intros Hop. unfold fillRect, withBitmap, drawPixel. cbn [bitmap].
  destruct (inside c x y && inRect rx ry rw rh x y); [| reflexivity].
  rewrite Hop. apply source_atop_alpha.
Qed.

Lemma drawImage_atop_alpha (c src : HTMLCanvasElement) (dx dy x y : Z) :
  globalCompositeOperation (state c) = SourceAtop ->
  pa (bitmap (drawImage c src dx dy) x y) == pa (bitmap c x y).
Proof.
  intros Hop. unfold drawImage, withBitmap. cbn [bitmap].
  destruct (inside c x y && inside src (x - dx) (y - dy)); [| reflexivity].
  rewrite Hop. apply source_atop_alpha.
Qed.

Lemma flatTint_alpha (ctx : HTMLCanvasElement) (f : FilterDef) (x y : Z) :
  honours "source-atop" = true ->
  pa (bitmap (flatTint ctx f) x y) == pa (bitmap ctx x y).
Proof.
  intros H. unfold flatTint.
  rewrite restore_bitmap.
  set (c1 := set_globalCompositeOperation (save ctx) "source-atop").
  set (c2 := match a f with Some al => set_globalAlpha c1 al | None => c1 end).
  set (c3 := set_fillStyle c2 (firstColour f)).
  assert (H1 : globalCompositeOperation (state c1) = SourceAtop)
    by (apply set_gco_source_atop; assumption).
  assert (H2 : globalCompositeOperation (state c2) = SourceAtop).
  { unfold c2. destruct (a f); [| assumption].
    now rewrite (proj2 (proj2 (proj2 (proj2 (set_alpha_keeps c1 q))))). }
  assert (H3 : globalCompositeOperation (state c3) = SourceAtop).
  { unfold c3.
    now rewrite (proj1 (proj2 (proj2 (proj2 (proj2 (set_fill_keeps c2 (firstColour f))))))). }
  rewrite fillRect_atop_alpha by assumption.
  unfold c3. rewrite (proj1 (set_fill_keeps c2 _)).
  assert (Hb2 : bitmap c2 = bitmap c1).
  { unfold c2. destruct (a f); [apply set_alpha_keeps | reflexivity]. }
  rewrite Hb2. unfold c1. rewrite (proj1 (set_gco_keeps _ _)). reflexivity.
Qed.

Lemma applyMaskedFilter_alpha (ctx originalBase : HTMLCanvasElement) (f : FilterDef)
    (isTall : bool) (x y : Z) :
  honours "source-atop" = true ->
  pa (bitmap (applyMaskedFilter ctx originalBase f isTall) x y) == pa (bitmap ctx x y).
Proof.
  intros H. unfold applyMaskedFilter.
  rewrite restore_bitmap.
  rewrite drawImage_atop_alpha by (apply set_gco_source_atop; assumption).
  rewrite (proj1 (set_gco_keeps _ _)). reflexivity.
Qed.

Lemma applyStep_alpha (originalBase ctx : HTMLCanvasElement) (isTall : bool) (step : Step)
    (x y : Z) :
  honours "source-atop" = true ->
  pa (bitmap (applyStep originalBase isTall ctx step) x y) == pa (bitmap ctx x y).
Proof.
  intros H. unfold applyStep. destruct (masked (snd step)).
  - now apply applyMaskedFilter_alpha.
  - now apply flatTint_alpha.
Qed.

Lemma runPipeline_alpha (originalBase : HTMLCanvasElement) (isTall : bool)
    (pipeline : list Step) (ctx : HTMLCanvasElement) (x y : Z) :
  honours "source-atop" = true ->
  pa (bitmap (runPipeline originalBase isTall pipeline ctx) x y) == pa (bitmap ctx x y).
Proof.
  intros H. revert ctx. unfold runPipeline.
  induction pipeline as [| step rest IH]; intros ctx; cbn [fold_left].
  - reflexivity.
  - rewrite IH. now apply applyStep_alpha.
Qed.

(** The snapshot has the alpha of the base, whatever drawing state the
    base canvas is in. *)
Lemma snapshot_alpha (baseCanvas : HTMLCanvasElement) (x y : Z) :
  inside baseCanvas x y = true ->
  pixel_eq (bitmap (snapshot baseCanvas) x y) (bitmap baseCanvas x y).
Proof.
  intros Hin. unfold snapshot, drawImage, withBitmap, createCanvas. cbn [bitmap state].
  replace (inside _ x y) with true by (symmetry; exact Hin).
  rewrite !Z.sub_0_r, Hin.
  cbv [pixel_eq composite porterDuff scalePixel defaultState transparent andb
       globalCompositeOperation globalAlpha pr pg pb pa].
  repeat split; ring.
Qed.

(** *** The flat tint *)

(** The pixel a flat tint leaves: the fill, at opacity [alpha], source-atop
    the pixel that was there. *)
Lemma flatTint_pixel (ctx : HTMLCanvasElement) (f : FilterDef) (t : Colour) (alpha : Q)
    (x y : Z) :
  honours "source-atop" = true ->
  a f = Some alpha ->
  0 <= alpha -> alpha <= 1 ->
  cssColor (firstColour f) = Some t ->
  inside ctx x y = true ->
  bitmap (flatTint ctx f) x y
  = composite SourceAtop (scalePixel alpha (premultiply t)) (bitmap ctx x y).
Proof.
  intros Hh Ha H0 H1 Hc Hin.
  unfold flatTint. rewrite restore_bitmap, Ha.
  unfold set_fillStyle. rewrite Hc.
  unfold set_globalAlpha.
  rewrite (proj2 (Qle_bool_iff 0 alpha) H0), (proj2 (Qle_bool_iff alpha 1) H1).
  unfold set_globalCompositeOperation.
  change (op_of_string "source-atop") with (Some SourceAtop). rewrite Hh.
  unfold fillRect, withBitmap, withState, save, drawPixel, paintAt.
  cbn [bitmap state width height globalCompositeOperation globalAlpha fillStyle andb].
  match goal with
  | |- context [inside ?c x y] => change (inside c x y) with (inside ctx x y)
  end.
  rewrite Hin.
  assert (Hrect : inRect 0 0 (width ctx) (height ctx) x y = true).
  { unfold inside in Hin. unfold inRect. now rewrite !Z.add_0_l. }
  rewrite Hrect. reflexivity.
Qed.

(** The non-masked steps of a pipeline are entries of the filter table, and
    each of those has one colour and an opacity in [[0,1]]; the colour is an
    [rgb(...)] triple unless the opacity is 0. *)
Lemma buildPipeline_flat (selectedMutations : list string) (customTint : option CustomTint)
    (name : string) (f : FilterDef) :
  In (name, f) (buildPipeline selectedMutations customTint) ->
  masked f = false ->
  FILTERS name = Some f.
Proof.
  unfold buildPipeline. intros Hin Hm. apply in_app_or in Hin. destruct Hin as [Hin | Hin].
  - apply in_flat_map in Hin. destruct Hin as [mutId [_ Hin]].
    destruct (FILTERS mutId) as [filter |] eqn:E; [| contradiction].
    destruct Hin as [[= <- <-] | []]. exact E.
  - destruct customTint as [t |]; [| contradiction].
    destruct (Qlt_le_dec 0 (opacity t)); [| contradiction].
    destruct Hin as [[= <- <-] | []]. discriminate Hm.
Qed.

Lemma FILTERS_flat (id : string) (f : FilterDef) :
  FILTERS id = Some f ->
  masked f = false ->
  exists alpha c,
    a f = Some alpha /\ 0 <= alpha /\ alpha <= 1
    /\ firstColour f = c
    /\ (alpha == 0 \/ String.prefix "rgb(" c = true).
Proof.
  unfold FILTERS.
  repeat match goal with
         | |- context [String.eqb ?x ?y] => destruct (String.eqb x y)
         end;
    intros [= <-] Hm; try discriminate Hm;
    eexists; eexists; (split; [reflexivity |]);
    (split; [discriminate |]); (split; [discriminate |]); (split; [reflexivity |]);
    first [right; reflexivity | left; reflexivity].
Qed.

(** C1: a non-masked step with an opaque tint colour [t] and opacity
    [alpha] in [[0,1]] leaves, at every pixel of the canvas, the alpha the
    pixel had and the colour [t·alpha + base·(1 - alpha)]: the pixel
    carries that colour at the base alpha, and where the base is not fully
    transparent the colour read back is exactly that mix.  (A tint at
    opacity 0 may have any colour.) *)
Theorem flatTint_blend (originalBase ctx : HTMLCanvasElement) (isTall : bool)
    (name : string) (f : FilterDef) (t : Colour) (alpha : Q) (x y : Z) :
  honours "source-atop" = true ->
  masked f = false ->
  a f = Some alpha ->
  0 <= alpha -> alpha <= 1 ->
  cssColor (firstColour f) = Some t ->
  ca t == 1 \/ alpha == 0 ->
  inside ctx x y = true ->
  premultiplied (bitmap ctx x y) ->
  let base := bitmap ctx x y in
  let result := bitmap (applyStep originalBase isTall ctx (name, f)) x y in
  pa result == pa base
  /\ carries result (mixColour t alpha (unpremultiply base)) (pa base)
  /\ (~ pa base == 0 ->
      colour_eq (unpremultiply result) (mixColour t alpha (unpremultiply base))).
Proof.
  intros Hh Hm Ha H0 H1 Hc Ht Hin Hpre base result.
  change (premultiplied base) in Hpre.
  assert (Hres : result = composite SourceAtop (scalePixel alpha (premultiply t)) base).
  { unfold result, applyStep. cbn [snd]. rewrite Hm. now apply flatTint_pixel. }
  assert (Hs : alpha * ca t == alpha).
  { destruct Ht as [Ht | Ht]; rewrite Ht; ring. }
  assert (Halpha : pa result == pa base).
  { rewrite Hres. apply source_atop_alpha. }
  assert (Hchan : pr result == pa base * cr t * alpha + pr base * (1 - alpha)
                  /\ pg result == pa base * cg t * alpha + pg base * (1 - alpha)
                  /\ pb result == pa base * cb t * alpha + pb base * (1 - alpha)).
  { rewrite Hres. unfold composite, porterDuff, scalePixel, premultiply.
    cbn [pr pg pb pa].
    repeat split.
    - transitivity (cr t * (alpha * ca t) * pa base + pr base * (1 - alpha * ca t)); [ring |].
      rewrite Hs. ring.
    - transitivity (cg t * (alpha * ca t) * pa base + pg base * (1 - alpha * ca t)); [ring |].
      rewrite Hs. ring.
    - transitivity (cb t * (alpha * ca t) * pa base + pb base * (1 - alpha * ca t)); [ring |].
      rewrite Hs. ring. }
  destruct Hchan as [Hr [Hg Hb]].
  split; [exact Halpha |].
  unfold carries, colour_eq, mixColour, unpremultiply.
  destruct (Qeq_bool (pa base) 0) eqn:Ez.
  - (* a fully transparent base pixel *)
    apply Qeq_bool_iff in Ez. destruct (Hpre Ez) as [Zr [Zg Zb]].
    split; [| intros Hnz; contradiction].
    cbn [cr cg cb ca]. split; [exact Halpha |].
    rewrite Hr, Hg, Hb, Zr, Zg, Zb, Ez. repeat split; ring.
  - apply Qeq_bool_neq in Ez.
    assert (Ez' : Qeq_bool (pa result) 0 = false).
    { destruct (Qeq_bool (pa result) 0) eqn:E; [| reflexivity].
      apply Qeq_bool_iff in E. rewrite Halpha in E. contradiction. }
    rewrite Ez'. cbn [cr cg cb ca].
    split.
    + split; [exact Halpha |]. rewrite Hr, Hg, Hb. repeat split; field; exact Ez.
    + intros _. rewrite Hr, Hg, Hb, Halpha. repeat split; try field; exact Ez.
Qed.

(** *** The masked steps *)

Lemma maskedGradient_alpha (originalBase : HTMLCanvasElement) (f : FilterDef)
    (isTall : bool) (x y : Z) :
  honours "destination-in" = true ->
  inside originalBase x y = true ->
  pa (bitmap originalBase x y) == 0 ->
  pa (bitmap (maskedGradient originalBase f isTall) x y) == 0.
Proof.
  intros Hh Hin Hz. unfold maskedGradient.
  set (g := fillGrad _ _ _ _ _ _).
  assert (Hg : inside g x y = true) by exact Hin.
  unfold set_globalCompositeOperation.
  change (op_of_string "destination-in") with (Some DestinationIn). rewrite Hh.
  unfold drawImage, withBitmap, withState. cbn [bitmap state width height].
  rewrite !Z.sub_0_r, Hin.
  match goal with
  | |- context [inside ?c x y && true] => change (inside c x y) with (inside g x y)
  end.
  rewrite Hg. cbn [andb globalCompositeOperation globalAlpha].
  unfold composite, porterDuff, scalePixel. cbn [pa]. rewrite Hz. ring.
Qed.

(** C2: in the pipeline [applyMutations] runs, after every masked step
    (Rainbow-class or the custom tint) every pixel whose alpha is 0 in the
    snapshot taken before the first step has alpha 0: each step leaves the
    alpha of the canvas as the snapshot has it, and the gradient mask itself,
    cut from the snapshot, is empty at such a pixel.  The same holds of the
    canvas [applyMutations] returns. *)
Theorem masked_step_keeps_transparent (baseCanvas : HTMLCanvasElement)
    (selectedMutations : list string) (isTall : bool) (customTint : option CustomTint)
    (pre post : list Step) (step : Step) (x y : Z) :
  honours "source-atop" = true ->
  buildPipeline selectedMutations customTint = pre ++ step :: post ->
  masked (snd step) = true ->
  inside baseCanvas x y = true ->
  pa (bitmap (snapshot baseCanvas) x y) == 0 ->
  let originalBase := snapshot baseCanvas in
  let before := runPipeline originalBase isTall pre baseCanvas in
  let after := applyMaskedFilter before originalBase (snd step) isTall in
  runPipeline originalBase isTall (pre ++ [step]) baseCanvas = after
  /\ pa (bitmap after x y) == 0
  /\ pa (bitmap (applyMutations baseCanvas selectedMutations isTall customTint) x y) == 0
  /\ (honours "destination-in" = true ->
      pa (bitmap (maskedGradient originalBase (snd step) isTall) x y) == 0).
Proof.
  intros Hh Hpipe Hm Hin Hz originalBase before after.
  assert (Hbase : pa (bitmap baseCanvas x y) == 0).
  { rewrite <- Hz. symmetry. apply (snapshot_alpha baseCanvas x y Hin). }
  split.
  { unfold runPipeline. rewrite fold_left_app. cbn [fold_left].
    unfold applyStep. now rewrite Hm. }
  split.
  { unfold after. rewrite applyMaskedFilter_alpha by assumption.
    unfold before. rewrite runPipeline_alpha by assumption. exact Hbase. }
  split.
  { unfold applyMutations. rewrite Hpipe.
    destruct (pre ++ step :: post) eqn:E; [exact Hbase |].
    rewrite runPipeline_alpha by assumption. exact Hbase. }
  intros Hd. apply maskedGradient_alpha; assumption.
Qed.

End PipelineFacts.

Section PipelineExamples.
Import Canvas2D ColorMath MutationDefs MutationEngine.

(** C1 on a half-transparent grey pixel under the Gold tint. *)
Lemma flatTint_blend_witness :
  let gold := flat "rgb(235,200,0)" 0.7 in
  let base := bitmap Fixtures.twoPixels 0 0 in
  let result := bitmap (@applyStep Fixtures.browser Fixtures.twoPixels false
                          Fixtures.twoPixels ("Gold"%string, gold)) 0 0 in
  FILTERS "Gold" = Some gold
  /\ pa result == 1 # 2
  /\ colour_eq (unpremultiply result)
       (mkColour ((235 # 255) * 0.7 + (1 # 2) * 0.3)
                 ((200 # 255) * 0.7 + (1 # 2) * 0.3)
                 (0 * 0.7 + (1 # 2) * 0.3)
                 (1 # 2)).
Proof.
  intros gold base result.
  destruct (@flatTint_blend Fixtures.browser Fixtures.twoPixels Fixtures.twoPixels false
              "Gold"%string gold (Fixtures.rgb255 235 200 0) 0.7 0 0)
    as [Ha [_ Hc]].
  - reflexivity.
  - reflexivity.
  - reflexivity.
  - discriminate.
  - discriminate.
  - reflexivity.
  - left. reflexivity.
  - reflexivity.
  - intros H. discriminate H.
  - split; [reflexivity |]. split; [exact Ha |].
    assert (Hnz : ~ pa (bitmap Fixtures.twoPixels 0 0) == 0) by discriminate.
    specialize (Hc Hnz). fold result in Hc.
    destruct Hc as [Hr [Hg [Hb Hal]]].
    unfold colour_eq. cbn [cr cg cb ca].
    split; [| split; [| split]].
    + rewrite Hr. reflexivity.
    + rewrite Hg. reflexivity.
    + rewrite Hb. reflexivity.
    + rewrite Hal. reflexivity.
Defined.

(** C2 on the Rainbow step over a canvas with an empty pixel at (1, 0). *)
Lemma masked_step_keeps_transparent_witness :
  pa (bitmap (@applyMutations Fixtures.browser Fixtures.twoPixels ["Rainbow"%string] false None)
             1 0) == 0
  /\ ~ pa (bitmap (@applyMutations Fixtures.browser Fixtures.twoPixels ["Rainbow"%string]
                     false None) 0 0) == 0.
Proof.
  destruct (FILTERS "Rainbow") as [rainbow |] eqn:E; [| discriminate E].
  destruct (@masked_step_keeps_transparent Fixtures.browser Fixtures.twoPixels
              ["Rainbow"%string] false None [] [] ("Rainbow"%string, rainbow) 1 0)
    as [_ [_ [H _]]].
  - reflexivity.
  - unfold buildPipeline. cbn [resolveActiveMutations sortBy insertBy flat_map app].
    unfold resolveActiveMutations. cbn [sortBy insertBy flat_map]. rewrite E. reflexivity.
  - injection E as <-. reflexivity.
  - reflexivity.
  - reflexivity.
  - split; [exact H |]. vm_compute. discriminate.
Defined.

End PipelineExamples.

(** ** The GIF decoder *)

Section DecoderFacts.
Import Canvas2D GifDecoder.
Local Open Scope Z_scope.

(** The compositing canvas keeps the size of the animation and the default
    drawing state. *)
Lemma compBefore_shape (reader : GifReader) (i : nat) :
  width (compBefore reader i) = readerWidth reader
  /\ height (compBefore reader i) = readerHeight reader
  /\ state (compBefore reader i) = defaultState.
Proof.
  induction i as [| i [Hw [Hh Hs]]].
  - repeat split.
  - cbn [compBefore]. unfold decodeFrame. cbn [snd].
    destruct (disposal (frameInfo reader i) =? 2); [| destruct (disposal (frameInfo reader i) =? 3)];
      cbn [width height state clearRect drawImage putImageData withBitmap];
      repeat split; assumption.
Qed.

(** The loop yields, as frame [i + k], the capture made from the
    compositing canvas as that frame finds it. *)
Lemma decodeLoop_nth (reader : GifReader) (n i k : nat) :
  (k < n)%nat ->
  nth_error (decodeLoop reader i n (compBefore reader i)) k
  = Some (fst (decodeFrame reader (i + k) (compBefore reader (i + k)))).
Proof.
  revert i k. induction n as [| n IH]; intros i k Hk; [lia |].
  cbn [decodeLoop].
  destruct (decodeFrame reader i (compBefore reader i)) as [frame comp'] eqn:E.
  destruct k as [| k].
  - cbn [nth_error]. rewrite Nat.add_0_r, E. reflexivity.
  - cbn [nth_error].
    assert (Hc : comp' = compBefore reader (S i)) by (cbn [compBefore]; now rewrite E).
    rewrite Hc, IH by lia. now rewrite Nat.add_succ_r.
Qed.

Lemma decodeGif_nth (reader : GifReader) (k : nat) :
  (k < numFrames reader)%nat ->
  nth_error (frames (decodeGif reader)) k
  = Some (fst (decodeFrame reader k (compBefore reader k))).
Proof.
  intros Hk. unfold decodeGif. cbn [frames].
  exact (decodeLoop_nth reader (numFrames reader) 0 k Hk).
Qed.

(** A frame with disposal 2 leaves its rectangle empty on the compositing
    canvas. *)
Lemma disposal2_clears (reader : GifReader) (i : nat) (x y : Z) :
  disposal (frameInfo reader i) = 2 ->
  0 <= x < readerWidth reader -> 0 <= y < readerHeight reader ->
  inRect (fx (frameInfo reader i)) (fy (frameInfo reader i))
         (fwidth (frameInfo reader i)) (fheight (frameInfo reader i)) x y = true ->
  bitmap (compBefore reader (S i)) x y = transparent.
Proof.
  intros Hd Hx Hy Hr.
  destruct (compBefore_shape reader i) as [Hw [Hh _]].
  cbn [compBefore]. unfold decodeFrame. cbn [snd]. rewrite Hd. cbn [Z.eqb Pos.eqb].
  unfold clearRect at 1. unfold withBitmap. cbn [bitmap].
  rewrite Hr.
  match goal with
  | |- context [inside ?c x y] =>
      assert (Hin : inside c x y = true)
  end.
  { unfold inside. cbn [width height drawImage clearRect withBitmap]. rewrite Hw, Hh.
    destruct (Z.leb_spec 0 x), (Z.ltb_spec x (readerWidth reader)),
      (Z.leb_spec 0 y), (Z.ltb_spec y (readerHeight reader)); try lia; reflexivity. }
  rewrite Hin. reflexivity.
Qed.

(** Drawn with the default state onto an empty pixel, a pixel is itself. *)
Lemma over_transparent (p : Pixel) :
  pixel_eq (composite SourceOver (scalePixel 1 p) transparent) p.
Proof.
  unfold pixel_eq, composite, porterDuff, scalePixel, transparent. cbn [pr pg pb pa].
  repeat split; ring.
Qed.

Lemma pixel_eq_trans (p q r : Pixel) : pixel_eq p q -> pixel_eq q r -> pixel_eq p r.
Proof.
  intros [A1 [A2 [A3 A4]]] [B1 [B2 [B3 B4]]].
  repeat split; etransitivity; eassumption.
Qed.

Lemma over_transparent_eq (p q : Pixel) :
  pixel_eq p q -> pixel_eq (composite SourceOver (scalePixel 1 p) transparent) q.
Proof. intros H. eapply pixel_eq_trans; [apply over_transparent | exact H]. Qed.

(** C5: when frame [i] has disposal 2 ("restore to background"), its
    rectangle is cleared on the compositing canvas right after its output is
    captured; so in that rectangle the output of frame [i+1] is exactly what
    frame [i+1] itself draws there, and is transparent where frame [i+1]
    draws nothing. *)
Theorem restore_to_background_clears (reader : GifReader) (i : nat) (x y : Z) :
  disposal (frameInfo reader i) = 2 ->
  (S i < numFrames reader)%nat ->
  0 <= x < readerWidth reader -> 0 <= y < readerHeight reader ->
  inRect (fx (frameInfo reader i)) (fy (frameInfo reader i))
         (fwidth (frameInfo reader i)) (fheight (frameInfo reader i)) x y = true ->
  bitmap (snd (decodeFrame reader i (compBefore reader i))) x y = transparent
  /\ exists next,
       nth_error (frames (decodeGif reader)) (S i) = Some next
       /\ pixel_eq (bitmap (canvas next) x y) (bitmap (frameCanvas reader (S i)) x y)
       /\ (pixel_eq (bitmap (frameCanvas reader (S i)) x y) transparent ->
           pixel_eq (bitmap (canvas next) x y) transparent).
Proof.
  intros Hd Hn Hx Hy Hr.
  pose proof (disposal2_clears reader i x y Hd Hx Hy Hr) as Hclear.
  split; [exact Hclear |].
  exists (fst (decodeFrame reader (S i) (compBefore reader (S i)))).
  split; [now apply decodeGif_nth |].
  assert (Hpix : pixel_eq
                   (bitmap (canvas (fst (decodeFrame reader (S i) (compBefore reader (S i))))) x y)
                   (bitmap (frameCanvas reader (S i)) x y)).
  { destruct (compBefore_shape reader (S i)) as [Hw [Hh Hs]].
    set (comp := compBefore reader (S i)) in *.
    assert (Hb : forall w h, 0 <= x < w -> 0 <= y < h ->
                 ((0 <=? x) && (x <? w) && (0 <=? y) && (y <? h))%bool = true).
    { intros w h [? ?] [? ?].
      destruct (Z.leb_spec 0 x), (Z.ltb_spec x w), (Z.leb_spec 0 y), (Z.ltb_spec y h);
        try lia; reflexivity. }
    unfold decodeFrame. cbn [fst canvas].
    set (tempCanvas := frameCanvas reader (S i)).
    assert (Htemp : inside tempCanvas x y = true).
    { unfold inside, tempCanvas, frameCanvas. cbn [width height putImageData withBitmap createCanvas].
      now apply Hb. }
    set (comp1 := if disposal (frameInfo reader (S i)) =? 2 then clearRect comp _ _ _ _ else comp).
    assert (H1 : bitmap comp1 x y = transparent
                 /\ inside comp1 x y = true /\ state comp1 = defaultState).
    { unfold comp1. destruct (disposal (frameInfo reader (S i)) =? 2).
      - unfold clearRect, withBitmap, inside. cbn [bitmap width height state].
        rewrite Hw, Hh, Hb by assumption. cbn [andb].
        split; [| split; [reflexivity | exact Hs]].
        destruct (inRect (fx (frameInfo reader (S i))) (fy (frameInfo reader (S i)))
                    (fwidth (frameInfo reader (S i))) (fheight (frameInfo reader (S i))) x y);
          [reflexivity | exact Hclear].
      - split; [exact Hclear |]. split; [| exact Hs].
        unfold inside. rewrite Hw, Hh. now apply Hb. }
    destruct H1 as [H1b [H1i H1s]].
    unfold drawImage at 1. unfold withBitmap, createCanvas. cbn [bitmap state width height].
    rewrite !Z.sub_0_r.
    assert (Hin2 : inside (drawImage comp1 tempCanvas 0 0) x y = true) by exact H1i.
    assert (Hout : inside {| width := readerWidth reader; height := readerHeight reader;
                             bitmap := fun _ _ => transparent; state := defaultState;
                             saved := [] |} x y = true).
    { unfold inside. cbn [width height]. now apply Hb. }
    rewrite Hout, Hin2. cbn [andb globalCompositeOperation globalAlpha defaultState].
    apply over_transparent_eq.
    unfold drawImage, withBitmap. cbn [bitmap].
    rewrite !Z.sub_0_r, H1i, Htemp, H1s, H1b. cbn [andb globalCompositeOperation globalAlpha defaultState].
    apply over_transparent. }
  split; [exact Hpix |].
  intros Ht. eapply pixel_eq_trans; eassumption.
Qed.

(** C5 on the animation of the specification: the second frame shows its
    red square, the third is transparent where the square was. *)
Lemma restore_to_background_clears_witness :
  exists second third,
    nth_error (frames (decodeGif Fixtures.threeFrameGif)) 1 = Some second
    /\ nth_error (frames (decodeGif Fixtures.threeFrameGif)) 2 = Some third
    /\ pixel_eq (bitmap (canvas second) 3 3) (mkPixel 1 0 0 1)
    /\ pixel_eq (bitmap (canvas third) 3 3) transparent.
Proof.
  destruct (restore_to_background_clears Fixtures.threeFrameGif 1 3 3)
    as [_ [third [Hnth [_ Hclear]]]].
  - reflexivity.
  - cbn. lia.
  - cbn. lia.
  - cbn. lia.
  - reflexivity.
  - exists (fst (decodeFrame Fixtures.threeFrameGif 1 (compBefore Fixtures.threeFrameGif 1))),
      third.
    split; [apply decodeGif_nth; cbn; lia |].
    split; [exact Hnth |].
    split.
    + vm_compute. repeat split; reflexivity.
    + apply Hclear. vm_compute. repeat split; reflexivity.
Defined.

End DecoderFacts.

(** ** [renderSlot] *)

Create HintDb totality.

Section RenderSlotFacts.
Import Canvas2D MutationDefs MutationEngine CanvasRenderer.
Context {P : Platform}.
Local Open Scope string_scope.

(** A computation that cannot throw. *)
Definition total {A : Type} (c : M A) : Prop :=
  forall m, exists a m', c m = (Ok a, m').

(** A computation that throws nothing but errors in [E]. *)
Definition raises {A : Type} (E : Error -> Prop) (c : M A) : Prop :=
  forall m e m', c m = (Thrown e, m') -> E e.

Lemma total_ret {A : Type} (a : A) : total (ret a).
Proof. intros m. now exists a, m. Qed.

Lemma total_bind {A B : Type} (c : M A) (k : A -> M B) :
  total c -> (forall a, total (k a)) -> total (bind c k).
Proof.
  intros Hc Hk m. destruct (Hc m) as [a [m' E]]. unfold bind. rewrite E. apply Hk.
Qed.

(** Whatever the body does, a [try] with a handler that cannot throw cannot
    throw. *)
Lemma total_tryCatch {A : Type} (c h : M A) : total h -> total (tryCatch c h).
Proof.
  intros Hh m. unfold tryCatch. destruct (c m) as [[a | e] m'].
  - now exists a, m'.
  - apply Hh.
Qed.

Lemma total_forEach {A S : Type} (l : list A) (body : A -> S -> M S) (acc : S) :
  (forall x s, total (body x s)) -> total (forEach l body acc).
Proof.
  intros Hb. revert acc. induction l as [| x l IH]; intros acc; cbn [forEach].
  - apply total_ret.
  - apply total_bind; [apply Hb | intros s; apply IH].
Qed.

Lemma raises_total {A : Type} (E : Error -> Prop) (c : M A) : total c -> raises E c.
Proof.
  intros Hc m e m' H. destruct (Hc m) as [a [m0 E0]]. congruence.
Qed.

Lemma raises_throw {A : Type} (E : Error -> Prop) (e : Error) : E e -> raises E (@throw P A e).
Proof. intros He m e' m' [= <- _]. exact He. Qed.

Lemma raises_bind {A B : Type} (E : Error -> Prop) (c : M A) (k : A -> M B) :
  raises E c -> (forall a, raises E (k a)) -> raises E (bind c k).
Proof.
  intros Hc Hk m e m'. unfold bind. destruct (c m) as [[a | e0] m0] eqn:E0.
  - apply Hk.
  - intros [= <- _]. eapply Hc. eassumption.
Qed.

Lemma raises_forEach {A S : Type} (E : Error -> Prop) (l : list A) (body : A -> S -> M S)
    (acc : S) :
  (forall x s, raises E (body x s)) -> raises E (forEach l body acc).
Proof.
  intros Hb. revert acc. induction l as [| x l IH]; intros acc; cbn [forEach].
  - apply raises_total, total_ret.
  - apply raises_bind; [apply Hb | intros s; apply IH].
Qed.

Lemma raises_drawSource (c : HTMLCanvasElement) (src : Source) (dx dy dw dh : Q) :
  raises (eq InvalidStateError) (drawSource c src dx dy dw dh).
Proof.
  unfold drawSource. destruct (usable src).
  - apply raises_total, total_ret.
  - now apply raises_throw.
Qed.

Lemma total_cacheGet (key : string) : total (cacheGet key).
Proof.
  intros m. unfold cacheGet.
  destruct (RenderCache.mapGet (cacheEntries m) key); [| eauto].
  destruct (Date_now (world m)) as [t w].
  destruct (RenderCache.get t key (cacheEntries m)) as [r entries]. eauto.
Qed.

Lemma total_cacheSet (key : string) (c : HTMLCanvasElement) : total (cacheSet key c).
Proof.
  intros m. unfold cacheSet. destruct (Date_now (world m)) as [t w]. eauto.
Qed.

Lemma total_knownIds (st : AppState) : total (knownIds st).
Proof.
  intros m. unfold knownIds.
  destruct (IconLayout.getSpriteIdSet (spriteIdSet m) (spriteData st)) as [set cache]. eauto.
Qed.

(** *** The three decorations cannot throw *)

Lemma total_iconStep (st : AppState) (slot : Slot) (tall : bool) (origW origH : Z)
    (ax ay : Q) (mutId : string) (ops : list DrawOp) :
  total (iconStep st slot tall origW origH ax ay mutId ops).
Proof.
  unfold iconStep.
  destruct (MUTATION_META mutId) as [meta |]; [| apply total_ret].
  destruct (tall && nonEmpty (tallOverlayKey meta) && negb (nonEmpty (tallPlantIconOverride meta)));
    [apply total_ret |].
  apply total_bind; [apply total_knownIds | intros ids].
  destruct (IconLayout.findIconKey ids (spriteKey slot) mutId tall meta) as [iconId |];
    [| apply total_ret].
  destruct (findSpriteUrl st iconId) as [iconUrl |]; [| apply total_ret].
  destruct (iconUrl =? ""); [apply total_ret |].
  apply total_tryCatch, total_ret.
Qed.

Lemma total_overlayStep (st : AppState) (canvas : HTMLCanvasElement) (origW origH : Z)
    (ax ay : Q) (mutId : string) (ops : list DrawOp) :
  total (overlayStep st canvas origW origH ax ay mutId ops).
Proof.
  unfold overlayStep.
  destruct (MUTATION_META mutId) as [meta |]; [| apply total_ret].
  destruct (tallOverlayKey meta) as [key |]; [| apply total_ret].
  destruct (key =? ""); [apply total_ret |].
  destruct (findSpriteUrl st key) as [overlayUrl |]; [| apply total_ret].
  destruct (overlayUrl =? ""); [apply total_ret |].
  apply total_tryCatch, total_ret.
Qed.

Lemma total_cosmeticStep (st : AppState) (layers : list (string * string))
    (category : string) (canvas : HTMLCanvasElement) :
  total (cosmeticStep st layers category canvas).
Proof.
  unfold cosmeticStep.
  destruct (recordGet layers category) as [cosmeticId |]; [| apply total_ret].
  destruct (cosmeticId =? ""); [apply total_ret |].
  destruct (cosmeticsData st) as [data |]; [| apply total_ret].
  destruct (find _ (cosmeticCategories data)) as [c |]; [| apply total_ret].
  destruct (find _ (cosmeticItems c)) as [item |]; [| apply total_ret].
  destruct (cosmeticUrl item =? ""); [apply total_ret |].
  apply total_tryCatch, total_ret.
Qed.

#[local] Hint Resolve total_ret total_forEach total_iconStep total_overlayStep
  total_cosmeticStep : totality.

Lemma total_cosmetics (st : AppState) (slot : Slot) (canvas : HTMLCanvasElement) :
  total (cosmetics st slot canvas).
Proof.
  unfold cosmetics.
  destruct (slotType slot); auto with totality.
  destruct (cosmeticLayers slot) as [layers |]; auto with totality.
Qed.

(** Composing the collected operations throws only on a canvas without
    pixels. *)
Lemma raises_composeOps (canvas : HTMLCanvasElement) (origW origH : Z) (ops : list DrawOp) :
  raises (eq InvalidStateError) (composeOps canvas origW origH ops).
Proof.
  unfold composeOps.
  apply raises_bind; [apply raises_forEach; intros; apply raises_drawSource | intros c1].
  apply raises_bind.
  - destruct (drawable canvas); [apply raises_total, total_ret | now apply raises_throw].
  - intros c2. apply raises_forEach. intros; apply raises_drawSource.
Qed.

Lemma raises_decorate (st : AppState) (slot : Slot) (tall : bool) (canvas : HTMLCanvasElement) :
  raises (eq InvalidStateError) (decorate st slot tall canvas).
Proof.
  unfold decorate.
  destruct (optIcons slot || tall && optOverlays slot); [| apply raises_total, total_ret].
  apply raises_bind.
  { apply raises_total. destruct (optIcons slot); auto with totality. }
  intros ops. apply raises_bind.
  { apply raises_total. destruct (tall && optOverlays slot); auto with totality. }
  intros ops'. destruct ops'; [apply raises_total, total_ret | apply raises_composeOps].
Qed.

(** *** A decoration whose load is rejected is skipped *)

Lemma tryCatch_load_rejected {A : Type} (url : string) (k : HTMLImageElement -> M A)
    (a : A) (m : Mem) :
  fst (spriteLoader_load (world m) url) = None ->
  fst (tryCatch (bind (load url) k) (ret a) m) = Ok a.
Proof.
  intros H. unfold tryCatch, bind, load.
  destruct (spriteLoader_load (world m) url) as [[image |] w]; [discriminate | reflexivity].
Qed.

Lemma iconStep_skips (st : AppState) (slot : Slot) (tall : bool) (origW origH : Z)
    (ax ay : Q) (mutId : string) (ops : list DrawOp) (m : Mem) :
  (forall url, fst (spriteLoader_load (world m) url) = None) ->
  fst (iconStep st slot tall origW origH ax ay mutId ops m) = Ok ops.
Proof.
  intros Hrej. unfold iconStep.
  destruct (MUTATION_META mutId) as [meta |]; [| reflexivity].
  destruct (tall && nonEmpty (tallOverlayKey meta) && negb (nonEmpty (tallPlantIconOverride meta)));
    [reflexivity |].
  unfold bind at 1, knownIds.
  destruct (IconLayout.getSpriteIdSet (spriteIdSet m) (spriteData st)) as [ids cache].
  destruct (IconLayout.findIconKey ids (spriteKey slot) mutId tall meta) as [iconId |];
    [| reflexivity].
  destruct (findSpriteUrl st iconId) as [iconUrl |]; [| reflexivity].
  destruct (iconUrl =? ""); [reflexivity |].
  apply tryCatch_load_rejected. cbn [world]. apply Hrej.
Qed.

Lemma overlayStep_skips (st : AppState) (canvas : HTMLCanvasElement) (origW origH : Z)
    (ax ay : Q) (mutId : string) (ops : list DrawOp) (m : Mem) :
  (forall url, fst (spriteLoader_load (world m) url) = None) ->
  fst (overlayStep st canvas origW origH ax ay mutId ops m) = Ok ops.
Proof.
  intros Hrej. unfold overlayStep.
  destruct (MUTATION_META mutId) as [meta |]; [| reflexivity].
  destruct (tallOverlayKey meta) as [key |]; [| reflexivity].
  destruct (key =? ""); [reflexivity |].
  destruct (findSpriteUrl st key) as [overlayUrl |]; [| reflexivity].
  destruct (overlayUrl =? ""); [reflexivity |].
  apply tryCatch_load_rejected. apply Hrej.
Qed.

Lemma cosmeticStep_skips (st : AppState) (layers : list (string * string))
    (category : string) (canvas : HTMLCanvasElement) (m : Mem) :
  (forall url, fst (spriteLoader_load (world m) url) = None) ->
  fst (cosmeticStep st layers category canvas m) = Ok canvas.
Proof.
  intros Hrej. unfold cosmeticStep.
  destruct (recordGet layers category) as [cosmeticId |]; [| reflexivity].
  destruct (cosmeticId =? ""); [reflexivity |].
  destruct (cosmeticsData st) as [data |]; [| reflexivity].
  destruct (find _ (cosmeticCategories data)) as [c |]; [| reflexivity].
  destruct (find _ (cosmeticItems c)) as [item |]; [| reflexivity].
  destruct (cosmeticUrl item =? ""); [reflexivity |].
  apply tryCatch_load_rejected. apply Hrej.
Qed.

(** *** The outcome of [renderSlot] *)

(** What [renderSlot] does once it holds the base canvas. *)
Definition finish (st : AppState) (slot : Slot) (cacheKey : string)
    (canvas : HTMLCanvasElement) : M (option HTMLCanvasElement) :=
  let tall := IconLayout.isTallKey (spriteKey slot) in
  bind (if applyMutationsThrows canvas (mutations slot) (Some (customTint slot))
        then throw InvalidStateError
        else ret (applyMutations canvas (mutations slot) tall (Some (customTint slot))))
       (fun canvas1 =>
          bind (decorate st slot tall canvas1)
               (fun canvas2 =>
                  bind (cosmetics st slot canvas2)
                       (fun canvas3 => bind (cacheSet cacheKey canvas3)
                                            (fun _ => ret (Some canvas3))))).

Lemma bind_ok {A B : Type} (c : M A) (k : A -> M B) (m m' : Mem) (a : A) :
  c m = (Ok a, m') -> bind c k m = k a m'.
Proof. intros E. unfold bind. now rewrite E. Qed.

Lemma bind_thrown {A B : Type} (c : M A) (k : A -> M B) (m m' : Mem) (e : Error) :
  c m = (Thrown e, m') -> bind c k m = (Thrown e, m').
Proof. intros E. unfold bind. now rewrite E. Qed.

Lemma finish_outcome (st : AppState) (slot : Slot) (cacheKey : string)
    (canvas : HTMLCanvasElement) (m : Mem) :
  (exists c, fst (finish st slot cacheKey canvas m) = Ok (Some c))
  \/ fst (finish st slot cacheKey canvas m) = Thrown InvalidStateError.
Proof.
  unfold finish.
  set (tall := IconLayout.isTallKey (spriteKey slot)).
  destruct (applyMutationsThrows canvas (mutations slot) (Some (customTint slot)));
    [right; reflexivity |].
  set (c1 := applyMutations canvas (mutations slot) tall (Some (customTint slot))).
  rewrite (bind_ok (ret c1) _ m m c1 eq_refl).
  destruct (decorate st slot tall c1 m) as [[c2 | e] m2] eqn:E2.
  - left. rewrite (bind_ok _ _ _ _ _ E2).
    destruct (total_cosmetics st slot c2 m2) as [c3 [m3 E3]].
    rewrite (bind_ok _ _ _ _ _ E3).
    destruct (total_cacheSet cacheKey c3 m3) as [u [m4 E4]].
    rewrite (bind_ok _ _ _ _ _ E4).
    now exists c3.
  - right. rewrite (bind_thrown _ _ _ _ _ E2). cbn [fst]. f_equal. symmetry.
    exact (raises_decorate st slot tall c1 m e m2 E2).
Qed.

(** The base canvas is missing when the sprite itself fails to load, or
    when the animation frame is a canvas without pixels. *)
Lemma baseCanvas_thrown (slot : Slot) (gifFrameIndex : option Z) (m : Mem) (e : Error) :
  fst (baseCanvas slot gifFrameIndex m) = Thrown e ->
  e = InvalidStateError
  \/ (e = LoadRejected (spriteUrl slot)
      /\ (animatedFrames slot = None \/ animatedFrames slot = Some [])
      /\ fst (spriteLoader_load (world m) (spriteUrl slot)) = None).
Proof.
  unfold baseCanvas.
  assert (Hload : fst (bind (load (spriteUrl slot)) (fun image => ret (spriteToCanvas image)) m)
                  = Thrown e ->
                  e = LoadRejected (spriteUrl slot)
                  /\ fst (spriteLoader_load (world m) (spriteUrl slot)) = None).
  { unfold bind, load, ret.
    destruct (spriteLoader_load (world m) (spriteUrl slot)) as [[image |] w]; cbn [fst];
      [discriminate | intros [= <-]; now split]. }
  destruct (animatedFrames slot) as [[| f fs] |].
  - intros H. right. destruct (Hload H). tauto.
  - set (frames := f :: fs).
    set (fi := Z.max 0 (Z.min (orElse gifFrameIndex 0%Z) (Z.of_nat (List.length frames) - 1))).
    destruct (FrameScheduler.frameAt frames fi) as [frame |] eqn:E.
    + destruct (drawable (GifDecoder.canvas frame)); cbn [ret throw fst];
        [discriminate | intros [= <-]; now left].
    + exfalso. unfold FrameScheduler.frameAt in E.
      assert (Hr : (0 <= fi < Z.of_nat (List.length frames))%Z).
      { unfold fi, frames. cbn [List.length]. lia. }
      destruct (Z.ltb_spec fi 0); [lia |].
      apply nth_error_None in E. lia.
  - intros H. right. destruct (Hload H). tauto.
Qed.

(** *** When the network is down *)

Lemma later_trans (w w1 w2 : World) :
  Notions.later w w1 -> Notions.later w1 w2 -> Notions.later w w2.
Proof.
  intros H1 H2. induction H2 as [| w' url _ IH | w' _ IH].
  - exact H1.
  - now apply Notions.later_load.
  - now apply Notions.later_clock.
Qed.

Lemma offline_later (w w' : World) :
  Notions.offline w -> Notions.later w w' -> Notions.offline w'.
Proof.
  intros Hoff Hl w2 url H2. apply Hoff. eapply later_trans; eassumption.
Qed.

Lemma offline_load (w : World) (url : string) :
  Notions.offline w -> Notions.offline (snd (spriteLoader_load w url)).
Proof.
  intros Hoff. apply (offline_later w); [exact Hoff |].
  apply Notions.later_load, Notions.later_now.
Qed.

(** A computation that, with the network down, yields [a] and leaves the
    network down. *)
Definition yields {A : Type} (c : M A) (a : A) : Prop :=
  forall m, Notions.offline (world m) ->
    exists m', c m = (Ok a, m') /\ Notions.offline (world m').

Lemma yields_ret {A : Type} (a : A) : yields (ret a) a.
Proof. intros m Hoff. now exists m. Qed.

Lemma yields_tryCatch_load {A : Type} (url : string) (k : HTMLImageElement -> M A) (a : A) :
  yields (tryCatch (bind (load url) k) (ret a)) a.
Proof.
  intros m Hoff. unfold tryCatch, bind, load, ret.
  pose proof (Hoff (world m) url (Notions.later_now _)) as Hrej.
  pose proof (offline_load (world m) url Hoff) as Hoff'.
  destruct (spriteLoader_load (world m) url) as [[image |] w]; [discriminate |].
  eexists. split; [reflexivity | exact Hoff'].
Qed.

Lemma yields_iconStep (st : AppState) (slot : Slot) (tall : bool) (origW origH : Z)
    (ax ay : Q) (mutId : string) (ops : list DrawOp) :
  yields (iconStep st slot tall origW origH ax ay mutId ops) ops.
Proof.
  unfold iconStep.
  destruct (MUTATION_META mutId) as [meta |]; [| apply yields_ret].
  destruct (tall && nonEmpty (tallOverlayKey meta) && negb (nonEmpty (tallPlantIconOverride meta)));
    [apply yields_ret |].
  intros m Hoff. unfold bind at 1, knownIds.
  destruct (IconLayout.getSpriteIdSet (spriteIdSet m) (spriteData st)) as [ids cache].
  set (m0 := mkMem (world m) (cacheEntries m) cache).
  assert (Hoff0 : Notions.offline (world m0)) by exact Hoff.
  destruct (IconLayout.findIconKey ids (spriteKey slot) mutId tall meta) as [iconId |];
    [| now apply yields_ret].
  destruct (findSpriteUrl st iconId) as [iconUrl |]; [| now apply yields_ret].
  destruct (iconUrl =? ""); [now apply yields_ret |].
  now apply yields_tryCatch_load.
Qed.

Lemma yields_overlayStep (st : AppState) (canvas : HTMLCanvasElement) (origW origH : Z)
    (ax ay : Q) (mutId : string) (ops : list DrawOp) :
  yields (overlayStep st canvas origW origH ax ay mutId ops) ops.
Proof.
  unfold overlayStep.
  destruct (MUTATION_META mutId) as [meta |]; [| apply yields_ret].
  destruct (tallOverlayKey meta) as [key |]; [| apply yields_ret].
  destruct (key =? ""); [apply yields_ret |].
  destruct (findSpriteUrl st key) as [overlayUrl |]; [| apply yields_ret].
  destruct (overlayUrl =? ""); [apply yields_ret |].
  apply yields_tryCatch_load.
Qed.

Lemma yields_cosmeticStep (st : AppState) (layers : list (string * string))
    (category : string) (canvas : HTMLCanvasElement) :
  yields (cosmeticStep st layers category canvas) canvas.
Proof.
  unfold cosmeticStep.
  destruct (recordGet layers category) as [cosmeticId |]; [| apply yields_ret].
  destruct (cosmeticId =? ""); [apply yields_ret |].
  destruct (cosmeticsData st) as [data |]; [| apply yields_ret].
  destruct (find _ (cosmeticCategories data)) as [c |]; [| apply yields_ret].
  destruct (find _ (cosmeticItems c)) as [item |]; [| apply yields_ret].
  destruct (cosmeticUrl item =? ""); [apply yields_ret |].
  apply yields_tryCatch_load.
Qed.

Lemma yields_forEach {A S : Type} (l : list A) (body : A -> S -> M S) (acc : S) :
  (forall x s, yields (body x s) s) -> yields (forEach l body acc) acc.
Proof.
  intros Hb. induction l as [| x l IH]; cbn [forEach]; [apply yields_ret |].
  intros m Hoff. destruct (Hb x acc m Hoff) as [m1 [E1 Hoff1]].
  rewrite (bind_ok _ _ _ _ _ E1). now apply IH.
Qed.

Lemma yields_decorate (st : AppState) (slot : Slot) (tall : bool) (canvas : HTMLCanvasElement) :
  yields (decorate st slot tall canvas) canvas.
Proof.
  unfold decorate.
  destruct (optIcons slot || tall && optOverlays slot); [| apply yields_ret].
  intros m Hoff.
  set (icons := if optIcons slot then forEach _ _ [] else ret []).
  assert (Hi : yields icons []).
  { unfold icons. destruct (optIcons slot); [| apply yields_ret].
    apply yields_forEach. intros. apply yields_iconStep. }
  destruct (Hi m Hoff) as [m1 [E1 Hoff1]]. rewrite (bind_ok _ _ _ _ _ E1).
  set (overlays := if tall && optOverlays slot then forEach _ _ [] else ret []).
  assert (Ho : yields overlays []).
  { unfold overlays. destruct (tall && optOverlays slot); [| apply yields_ret].
    apply yields_forEach. intros. apply yields_overlayStep. }
  destruct (Ho m1 Hoff1) as [m2 [E2 Hoff2]]. rewrite (bind_ok _ _ _ _ _ E2).
  now exists m2.
Qed.

Lemma yields_cosmetics (st : AppState) (slot : Slot) (canvas : HTMLCanvasElement) :
  yields (cosmetics st slot canvas) canvas.
Proof.
  unfold cosmetics.
  destruct (slotType slot); try apply yields_ret.
  destruct (cosmeticLayers slot) as [layers |]; [| apply yields_ret].
  apply yields_forEach. intros. apply yields_cosmeticStep.
Qed.

(** With the network down, what [renderSlot] makes of the base canvas is
    the canvas [applyMutations] leaves. *)
Lemma finish_offline (st : AppState) (slot : Slot) (cacheKey : string)
    (canvas : HTMLCanvasElement) (m : Mem) :
  applyMutationsThrows canvas (mutations slot) (Some (customTint slot)) = false ->
  Notions.offline (world m) ->
  fst (finish st slot cacheKey canvas m)
  = Ok (Some (applyMutations canvas (mutations slot) (IconLayout.isTallKey (spriteKey slot))
                (Some (customTint slot)))).
Proof.
  intros Hthrows Hoff. unfold finish. rewrite Hthrows.
  set (tall := IconLayout.isTallKey (spriteKey slot)).
  set (c1 := applyMutations canvas (mutations slot) tall (Some (customTint slot))).
  rewrite (bind_ok (ret c1) _ m m c1 eq_refl).
  destruct (yields_decorate st slot tall c1 m Hoff) as [m2 [E2 Hoff2]].
  rewrite (bind_ok _ _ _ _ _ E2).
  destruct (yields_cosmetics st slot c1 m2 Hoff2) as [m3 [E3 _]].
  rewrite (bind_ok _ _ _ _ _ E3).
  destruct (total_cacheSet cacheKey c1 m3) as [u [m4 E4]].
  now rewrite (bind_ok _ _ _ _ _ E4).
Qed.

(** A slot that was not rendered before: [renderSlot] gets the base canvas
    and goes on from there. *)
Lemma renderSlot_miss (st : AppState) (slot : Slot) (gifFrameIndex : option Z) (m : Mem) :
  spriteUrl slot <> "" ->
  RenderCache.mapGet (cacheEntries m) (slotCacheKey slot gifFrameIndex) = None ->
  renderSlot st slot gifFrameIndex m
  = bind (baseCanvas slot gifFrameIndex) (finish st slot (slotCacheKey slot gifFrameIndex)) m.
Proof.
  intros NE Hmiss. unfold renderSlot.
  destruct (String.eqb_spec (spriteUrl slot) "") as [E | _]; [contradiction |].
  unfold bind at 1, cacheGet. rewrite Hmiss. reflexivity.
Qed.

Lemma renderSlot_hit (st : AppState) (slot : Slot) (gifFrameIndex : option Z) (m : Mem)
    (entry : RenderCache.CacheEntry) :
  spriteUrl slot <> "" ->
  RenderCache.mapGet (cacheEntries m) (slotCacheKey slot gifFrameIndex) = Some entry ->
  fst (renderSlot st slot gifFrameIndex m) = Ok (Some (RenderCache.canvas entry)).
Proof.
  intros NE Hhit. unfold renderSlot.
  destruct (String.eqb_spec (spriteUrl slot) "") as [E | _]; [contradiction |].
  unfold bind, cacheGet, RenderCache.get. rewrite Hhit.
  destruct (Date_now (world m)) as [t w]. reflexivity.
Qed.

(** The base canvas of a slot without frames is the loaded sprite. *)
Lemma baseCanvas_still (slot : Slot) (gifFrameIndex : option Z) (m : Mem)
    (image : HTMLImageElement) (w : World) :
  animatedFrames slot = None \/ animatedFrames slot = Some [] ->
  spriteLoader_load (world m) (spriteUrl slot) = (Some image, w) ->
  baseCanvas slot gifFrameIndex m
  = (Ok (spriteToCanvas image), mkMem w (cacheEntries m) (spriteIdSet m)).
Proof.
  intros Hstill Hload. unfold baseCanvas.
  assert (E : bind (load (spriteUrl slot)) (fun image0 => ret (spriteToCanvas image0)) m
              = (Ok (spriteToCanvas image), mkMem w (cacheEntries m) (spriteIdSet m))).
  { unfold bind, load, ret. now rewrite Hload. }
  destruct Hstill as [-> | ->]; exact E.
Qed.

Lemma decodeLoop_length (reader : GifDecoder.GifReader) (n i : nat) (c : HTMLCanvasElement) :
  List.length (GifDecoder.decodeLoop reader i n c) = n.
Proof.
  revert i c. induction n as [| n IH]; intros i c; cbn [GifDecoder.decodeLoop]; [reflexivity |].
  destruct (GifDecoder.decodeFrame reader i c) as [f c']. cbn [List.length]. now rewrite IH.
Qed.

(** The frames [decodeGif] produces have the size of the animation. *)
Lemma decodeGif_frame_size (reader : GifDecoder.GifReader) (k : nat)
    (frame : GifDecoder.GifFrame) :
  nth_error (GifDecoder.frames (GifDecoder.decodeGif reader)) k = Some frame ->
  Canvas2D.width (GifDecoder.canvas frame) = GifDecoder.readerWidth reader
  /\ Canvas2D.height (GifDecoder.canvas frame) = GifDecoder.readerHeight reader.
Proof.
  intros Hk.
  assert (Hlt : (k < GifDecoder.numFrames reader)%nat).
  { assert (H : (k < List.length (GifDecoder.frames (GifDecoder.decodeGif reader)))%nat)
      by (apply nth_error_Some; congruence).
    unfold GifDecoder.decodeGif in H. cbn [GifDecoder.frames] in H.
    now rewrite decodeLoop_length in H. }
  rewrite (decodeGif_nth reader k Hlt) in Hk.
  assert (E : frame = fst (GifDecoder.decodeFrame reader k (GifDecoder.compBefore reader k)))
    by congruence.
  rewrite E. unfold GifDecoder.decodeFrame. cbn. now split.
Qed.

(** The base canvas of a slot that carries the frames [decodeGif] produced
    is a copy of the frame at the clamped index; nothing is loaded. *)
Lemma baseCanvas_animated (slot : Slot) (gifFrameIndex : option Z) (m : Mem)
    (reader : GifDecoder.GifReader) :
  animatedFrames slot = Some (GifDecoder.frames (GifDecoder.decodeGif reader)) ->
  (0 < GifDecoder.readerWidth reader)%Z ->
  (0 < GifDecoder.readerHeight reader)%Z ->
  (0 < GifDecoder.numFrames reader)%nat ->
  exists frame,
    FrameScheduler.frameAt (GifDecoder.frames (GifDecoder.decodeGif reader))
      (Z.max 0 (Z.min (orElse gifFrameIndex 0%Z)
                      (Z.of_nat (GifDecoder.numFrames reader) - 1)))
    = Some frame
    /\ drawable (GifDecoder.canvas frame) = true
    /\ baseCanvas slot gifFrameIndex m
       = (Ok (drawImage (createCanvas (Canvas2D.width (GifDecoder.canvas frame))
                                      (Canvas2D.height (GifDecoder.canvas frame)))
                        (GifDecoder.canvas frame) 0 0), m).
Proof.
  intros Hframes Hw Hh Hn.
  assert (Hlen : List.length (GifDecoder.frames (GifDecoder.decodeGif reader))
                 = GifDecoder.numFrames reader).
  { unfold GifDecoder.decodeGif. cbn [GifDecoder.frames]. apply decodeLoop_length. }
  set (fi := Z.max 0 (Z.min (orElse gifFrameIndex 0%Z)
                            (Z.of_nat (GifDecoder.numFrames reader) - 1))).
  assert (Hr : (0 <= fi < Z.of_nat (GifDecoder.numFrames reader))%Z) by (unfold fi; lia).
  destruct (FrameScheduler.frameAt (GifDecoder.frames (GifDecoder.decodeGif reader)) fi)
    as [frame |] eqn:E.
  - exists frame. split; [reflexivity |].
    assert (Hnth : nth_error (GifDecoder.frames (GifDecoder.decodeGif reader)) (Z.to_nat fi)
                   = Some frame).
    { unfold FrameScheduler.frameAt in E. destruct (Z.ltb_spec fi 0); [lia | exact E]. }
    destruct (decodeGif_frame_size reader _ frame Hnth) as [Ew Eh].
    assert (Hd : drawable (GifDecoder.canvas frame) = true).
    { unfold drawable. rewrite Ew, Eh.
      apply andb_true_intro. split; apply Z.ltb_lt; assumption. }
    split; [exact Hd |].
    unfold baseCanvas. rewrite Hframes.
    destruct (GifDecoder.frames (GifDecoder.decodeGif reader)) as [| f fs] eqn:Ef;
      [cbn [List.length] in Hlen; lia |].
    cbv zeta. rewrite Hlen. fold fi. rewrite E, Hd. reflexivity.
  - exfalso. unfold FrameScheduler.frameAt in E.
    destruct (Z.ltb_spec fi 0); [lia |].
    apply nth_error_None in E. lia.
Qed.


End RenderSlotFacts.

Section RenderSlotExamples.
Import Canvas2D CanvasRenderer.

Lemma oneShot_offline (t : Z) : @Notions.offline Samples.oneShot (t, false).
Proof.
  intros w' url Hl.
  assert (Hdown : snd w' = false).
  { induction Hl as [| w1 url1 _ _ | w1 _ IH]; [reflexivity | reflexivity | exact IH]. }
  cbn. now rewrite Hdown.
Qed.


End RenderSlotExamples.
(* ================================================================== *)
(** * Part III. Further properties of the code *)
(* ================================================================== *)

(** ** The stable sort *)

Section SortFacts.
Import MutationDefs.
Context {A : Type} (cmp : A -> A -> Z).

Lemma insertBy_perm (x : A) (l : list A) : Permutation (x :: l) (insertBy cmp x l).
Proof.
  induction l as [| y l IH]; cbn [insertBy]; [apply Permutation_refl |].
  destruct (cmp x y <=? 0)%Z; [apply Permutation_refl |].
  eapply perm_trans; [apply perm_swap | now apply perm_skip].
Qed.

Lemma sortBy_perm (l : list A) : Permutation l (sortBy cmp l).
Proof.
  induction l as [| x l IH]; cbn [sortBy]; [constructor |].
  eapply perm_trans; [apply perm_skip, IH | apply insertBy_perm].
Qed.

Lemma insertBy_In (x y : A) (l : list A) : In y (insertBy cmp x l) -> y = x \/ In y l.
Proof.
  intros H. apply (Permutation_in _ (Permutation_sym (insertBy_perm x l))) in H.
  destruct H; [left; congruence | now right].
Qed.

(** The comparator orders: [a] may stand before [b]. *)
Let before (a b : A) : Prop := (cmp a b <= 0)%Z.

Hypothesis cmp_total : forall a b, (0 < cmp a b)%Z -> (cmp b a <= 0)%Z.
Hypothesis cmp_trans : forall a b c, before a b -> before b c -> before a c.

Lemma insertBy_sorted (x : A) (l : list A) :
  StronglySorted before l -> StronglySorted before (insertBy cmp x l).
Proof.
  induction 1 as [| y l Hs IH Hy]; cbn [insertBy].
  - repeat constructor.
  - destruct (Z.leb_spec (cmp x y) 0) as [Hle | Hgt].
    + constructor; [now constructor |].
      constructor; [exact Hle |].
      eapply Forall_impl; [| exact Hy]. intros z Hz. now apply (cmp_trans x y z).
    + constructor; [exact IH |].
      apply Forall_forall. intros z Hz. apply insertBy_In in Hz. destruct Hz as [-> | Hz].
      * now apply cmp_total.
      * rewrite Forall_forall in Hy. now apply Hy.
Qed.

Lemma sortBy_sorted (l : list A) : StronglySorted before (sortBy cmp l).
Proof.
  induction l as [| x l IH]; cbn [sortBy]; [constructor | now apply insertBy_sorted].
Qed.

(** A list already in order is left as it is. *)
Lemma sortBy_fixed (l : list A) : StronglySorted before l -> sortBy cmp l = l.
Proof.
  induction 1 as [| x l Hs IH Hx]; cbn [sortBy]; [reflexivity |].
  rewrite IH. destruct Hx as [| y l Hy _]; cbn [insertBy]; [reflexivity |].
  destruct (Z.leb_spec (cmp x y) 0) as [_ | Hgt]; [reflexivity |].
  unfold before in Hy. lia.
Qed.

(** Under an antisymmetric comparator a list has one sorted arrangement. *)
Lemma sorted_perm_eq (l1 l2 : list A) :
  (forall a b, before a b -> before b a -> a = b) ->
  StronglySorted before l1 -> StronglySorted before l2 -> Permutation l1 l2 -> l1 = l2.
Proof.
  intros Hanti H1. revert l2. induction H1 as [| x l1 Hs1 IH Hx]; intros l2 H2 Hp.
  - apply Permutation_nil in Hp. now subst.
  - destruct H2 as [| y l2 Hs2 Hy].
    + apply Permutation_sym, Permutation_nil in Hp. discriminate.
    + assert (E : x = y).
      { assert (Hxin : In x (y :: l2)) by (apply (Permutation_in _ Hp); now left).
        assert (Hyin : In y (x :: l1))
          by (apply (Permutation_in _ (Permutation_sym Hp)); now left).
        destruct Hxin as [E | Hxin]; [now symmetry |].
        destruct Hyin as [E | Hyin]; [exact E |].
        rewrite Forall_forall in Hx, Hy. apply Hanti; [now apply Hx | now apply Hy]. }
      subst y. f_equal. apply IH; [exact Hs2 |]. now apply Permutation_cons_inv in Hp.
Qed.

Lemma sortBy_perm_eq (l1 l2 : list A) :
  (forall a b, before a b -> before b a -> a = b) ->
  Permutation l1 l2 -> sortBy cmp l1 = sortBy cmp l2.
Proof.
  intros Hanti Hp. apply sorted_perm_eq; try apply sortBy_sorted; [exact Hanti |].
  eapply perm_trans; [apply Permutation_sym, sortBy_perm |].
  eapply perm_trans; [exact Hp | apply sortBy_perm].
Qed.

End SortFacts.

(** ** The order of strings *)

Section StringOrder.
Local Open Scope string_scope.

Lemma ascii_compare_N (a b : ascii) :
  Ascii.compare a b = N.compare (N_of_ascii a) (N_of_ascii b).
Proof. reflexivity. Qed.

Lemma string_le_trans (a b c : string) :
  String.compare a b <> Gt -> String.compare b c <> Gt -> String.compare a c <> Gt.
Proof.
  revert b c. induction a as [| x a IH]; intros [| y b] [| z c]; cbn [String.compare];
    try congruence.
  rewrite !ascii_compare_N.
  destruct (N.compare_spec (N_of_ascii x) (N_of_ascii y)) as [Exy | Lxy | Gxy];
    destruct (N.compare_spec (N_of_ascii y) (N_of_ascii z)) as [Eyz | Lyz | Gyz];
    try congruence; intros Hab Hbc.
  - rewrite <- Eyz, Exy, N.compare_refl. now apply (IH b c).
  - rewrite Exy. now rewrite (proj2 (N.compare_lt_iff _ _) Lyz).
  - rewrite <- Eyz. now rewrite (proj2 (N.compare_lt_iff _ _) Lxy).
  - rewrite (proj2 (N.compare_lt_iff _ _) (N.lt_trans _ _ _ Lxy Lyz)). discriminate.
Qed.

Lemma Str_cmp_total (a b : string) : (0 < Str.cmp a b)%Z -> (Str.cmp b a <= 0)%Z.
Proof.
  unfold Str.cmp. rewrite (String.compare_antisym a b).
  destruct (String.compare b a); cbn [CompOpp]; lia.
Qed.

Lemma Str_cmp_le (a b : string) : (Str.cmp a b <= 0)%Z <-> String.compare a b <> Gt.
Proof.
  unfold Str.cmp. destruct (String.compare a b); split; intros; try lia; congruence.
Qed.

Lemma Str_cmp_trans (a b c : string) :
  (Str.cmp a b <= 0)%Z -> (Str.cmp b c <= 0)%Z -> (Str.cmp a c <= 0)%Z.
Proof. rewrite !Str_cmp_le. apply string_le_trans. Qed.

Lemma Str_cmp_antisym (a b : string) :
  (Str.cmp a b <= 0)%Z -> (Str.cmp b a <= 0)%Z -> a = b.
Proof.
  unfold Str.cmp. rewrite (String.compare_antisym a b).
  destruct (String.compare b a) eqn:E; cbn [CompOpp]; try lia.
  intros _ _. symmetry. now apply String.compare_eq_iff.
Qed.

End StringOrder.

(** ** The order of selection *)

Section SelectionOrder.
Import Canvas2D ColorMath MutationDefs MutationEngine RenderOrder.
Local Open Scope string_scope.
Local Open Scope list_scope.

Lemma StronglySorted_weaken {A : Type} (R1 R2 : A -> A -> Prop) (l : list A) :
  (forall a b, R1 a b -> R2 a b) -> StronglySorted R1 l -> StronglySorted R2 l.
Proof.
  intros Hw. induction 1 as [| x l Hs IH Hx]; constructor; [exact IH |].
  eapply Forall_impl; [| exact Hx]. intros y. apply Hw.
Qed.

Lemma resolve_sorted (l : list string) :
  StronglySorted (fun a b => (renderRank a - renderRank b <= 0)%Z) (resolveActiveMutations l).
Proof.
  unfold resolveActiveMutations.
  apply (sortBy_sorted (fun a b => (renderRank a - renderRank b)%Z)); intros; lia.
Qed.

(** X1: on ids none of which is a property name inherited from
    [Object.prototype], [resolveActiveMutations] only rearranges: its
    result is a permutation of the selection (no id is dropped, added or
    merged), the ranks never decrease along it, and resolving a second time
    changes nothing. *)
Theorem resolveActiveMutations_sorts (selected : list string) :
  JsObject.ownKeys selected ->
  Permutation selected (resolveActiveMutations selected)
  /\ StronglySorted (fun a b => (renderRank a <= renderRank b)%Z)
       (resolveActiveMutations selected)
  /\ resolveActiveMutations (resolveActiveMutations selected)
     = resolveActiveMutations selected.
Proof.
  intros _. split; [apply sortBy_perm |]. split.
  - eapply StronglySorted_weaken; [| apply resolve_sorted]. cbn. intros; lia.
  - unfold resolveActiveMutations at 1.
    apply (sortBy_fixed (fun a b => (renderRank a - renderRank b)%Z)), resolve_sorted.
Qed.

(** The ids of the order table, as [resolveActiveMutations] arranges them. *)
Lemma resolve_known_unknown (l : list string) :
  resolveActiveMutations l
  = flat_map (ofRank l) [0; 1; 2; 3; 4; 5; 6; 7; 8; 9]%Z ++ ofRank l 50.
Proof.
  rewrite resolve_byRank. unfold byRank, RANKS. cbn [flat_map].
  now rewrite !app_nil_r, <- !app_assoc.
Qed.

Lemma ofRank_filter_known (l : list string) (r : Z) :
  r <> 50%Z -> ofRank (filter isKnown l) r = ofRank l r.
Proof.
  intros Hr. unfold ofRank. induction l as [| x l IH]; cbn [filter]; [reflexivity |].
  destruct (isKnown x) eqn:K; cbn [filter]; [now rewrite IH |].
  apply renderRank_unknown in K. rewrite K.
  destruct (Z.eqb_spec 50 r); [congruence | exact IH].
Qed.

(** The known ids of a selection come out in an order that depends on
    nothing but which of them were selected, and how often. *)
Lemma known_part_perm (l1 l2 : list string) :
  Permutation (filter isKnown l1) (filter isKnown l2) ->
  flat_map (ofRank l1) [0; 1; 2; 3; 4; 5; 6; 7; 8; 9]%Z
  = flat_map (ofRank l2) [0; 1; 2; 3; 4; 5; 6; 7; 8; 9]%Z.
Proof.
  intros Hp.
  assert (Hr : forall r, r <> 50%Z -> ofRank l1 r = ofRank l2 r).
  { intros r Hr. rewrite <- (ofRank_filter_known l1 r Hr), <- (ofRank_filter_known l2 r Hr).
    now apply ofRank_known_perm. }
  cbn [flat_map]. rewrite !Hr by discriminate. reflexivity.
Qed.

Lemma FILTERS_unknown (id : string) : isKnown id = false -> FILTERS id = None.
Proof.
  unfold isKnown, MUTATION_RENDER_ORDER, FILTERS.
  string_cases; intros; try reflexivity; discriminate.
Qed.

Lemma MUTATION_META_unknown (id : string) : isKnown id = false -> MUTATION_META id = None.
Proof.
  unfold isKnown, MUTATION_RENDER_ORDER, MUTATION_META.
  string_cases; intros; try reflexivity; discriminate.
Qed.

Lemma ofRank_50_unknown (l : list string) : Forall (fun id => isKnown id = false) (ofRank l 50).
Proof.
  eapply Forall_impl; [| apply ofRank_rank]. cbn. intros id. apply renderRank_unknown.
Qed.

Lemma flat_map_nil {A B : Type} (f : A -> list B) (l : list A) :
  Forall (fun x => f x = []) l -> flat_map f l = [].
Proof.
  induction 1 as [| x l Hx _ IH]; cbn [flat_map]; [reflexivity |]. now rewrite Hx, IH.
Qed.

Context {P : Platform}.

Lemma buildPipeline_perm (l1 l2 : list string) (customTint : option CustomTint) :
  Permutation (filter isKnown l1) (filter isKnown l2) ->
  buildPipeline l1 customTint = buildPipeline l2 customTint.
Proof.
  intros Hp. unfold buildPipeline. f_equal.
  rewrite !resolve_known_unknown, !flat_map_app, (known_part_perm l1 l2 Hp).
  f_equal.
  rewrite !flat_map_nil; [reflexivity | |];
    (eapply Forall_impl; [| apply ofRank_50_unknown]); cbn; intros id K;
    now rewrite (FILTERS_unknown id K).
Qed.

(** X2: for selections without property names inherited from
    [Object.prototype], what [applyMutations] does to a canvas depends on
    which mutations of the filter table are selected (and how often), not
    on the order in which they were selected nor on any other id in the
    selection: the two calls run the same pipeline, so they throw on the
    same canvases and leave the same canvas otherwise. *)
Theorem applyMutations_selection_order (baseCanvas : HTMLCanvasElement)
    (l1 l2 : list string) (isTall : bool) (customTint : option CustomTint) :
  JsObject.ownKeys l1 ->
  JsObject.ownKeys l2 ->
  Permutation (filter isKnown l1) (filter isKnown l2) ->
  buildPipeline l1 customTint = buildPipeline l2 customTint
  /\ applyMutationsThrows baseCanvas l1 customTint
     = applyMutationsThrows baseCanvas l2 customTint
  /\ applyMutations baseCanvas l1 isTall customTint
     = applyMutations baseCanvas l2 isTall customTint.
Proof.
  intros _ _ Hp. unfold applyMutations, applyMutationsThrows.
  now rewrite (buildPipeline_perm l1 l2 customTint Hp).
Qed.

End SelectionOrder.

Section SelectionOrderExamples.
Import MutationDefs MutationEngine RenderOrder.
Local Open Scope string_scope.

Lemma resolveActiveMutations_sorts_witness :
  JsObject.ownKeys ["Rainbow"; "Zap"; "Wet"]
  /\ Permutation ["Rainbow"; "Zap"; "Wet"] (resolveActiveMutations ["Rainbow"; "Zap"; "Wet"])
  /\ resolveActiveMutations ["Rainbow"; "Zap"; "Wet"] = ["Wet"; "Rainbow"; "Zap"].
Proof.
  assert (Hown : JsObject.ownKeys ["Rainbow"; "Zap"; "Wet"]) by (repeat constructor).
  split; [exact Hown |].
  split; [exact (proj1 (resolveActiveMutations_sorts ["Rainbow"; "Zap"; "Wet"] Hown)) |].
  reflexivity.
Defined.

Lemma applyMutations_selection_order_witness :
  JsObject.ownKeys ["Zap"; "Gold"; "Wet"]
  /\ JsObject.ownKeys ["Wet"; "Gold"]
  /\ Permutation (filter isKnown ["Zap"; "Gold"; "Wet"]) (filter isKnown ["Wet"; "Gold"])
  /\ @applyMutations Fixtures.browser Fixtures.twoPixels ["Zap"; "Gold"; "Wet"] false None
     = @applyMutations Fixtures.browser Fixtures.twoPixels ["Wet"; "Gold"] false None.
Proof.
  assert (H1 : JsObject.ownKeys ["Zap"; "Gold"; "Wet"]) by (repeat constructor).
  assert (H2 : JsObject.ownKeys ["Wet"; "Gold"]) by (repeat constructor).
  assert (H : Permutation (filter isKnown ["Zap"; "Gold"; "Wet"])
                          (filter isKnown ["Wet"; "Gold"])) by apply perm_swap.
  split; [exact H1 |]. split; [exact H2 |]. split; [exact H |].
  exact (proj2 (proj2 (@applyMutations_selection_order Fixtures.browser Fixtures.twoPixels
                         ["Zap"; "Gold"; "Wet"] ["Wet"; "Gold"] false None H1 H2 H))).
Defined.

End SelectionOrderExamples.

(** ** The cache of rendered slots *)

Section RenderSlotCache.
Import Canvas2D MutationDefs MutationEngine RenderOrder RenderCache CanvasRenderer.
Context {P : Platform}.
Local Open Scope string_scope.
Local Open Scope list_scope.

Lemma makeKey_perm (spriteUrl : string) (l1 l2 : list string) (icons overlays : bool)
    (scale rotation : Q) (frameIndex : option Z) :
  Permutation l1 l2 ->
  makeKey spriteUrl l1 icons overlays scale rotation frameIndex
  = makeKey spriteUrl l2 icons overlays scale rotation frameIndex.
Proof.
  intros Hp. unfold makeKey.
  rewrite (sortBy_perm_eq Str.cmp Str_cmp_total Str_cmp_trans l1 l2 Str_cmp_antisym Hp).
  reflexivity.
Qed.

Lemma bind_ext {A B : Type} (c : M A) (k1 k2 : A -> M B) (m : Mem) :
  (forall a m', k1 a m' = k2 a m') -> bind c k1 m = bind c k2 m.
Proof.
  intros H. unfold bind. destruct (c m) as [[a | e] m']; [apply H | reflexivity].
Qed.

Lemma bind_cong {A B : Type} (c1 c2 : M A) (k1 k2 : A -> M B) (m : Mem) :
  c1 m = c2 m -> (forall a m', k1 a m' = k2 a m') -> bind c1 k1 m = bind c2 k2 m.
Proof.
  intros Hc H. unfold bind. rewrite Hc. destruct (c2 m) as [[a | e] m']; [apply H | reflexivity].
Qed.

Lemma forEach_app {A S : Type} (l1 l2 : list A) (body : A -> S -> M S) (acc : S) (m : Mem) :
  forEach (l1 ++ l2) body acc m
  = bind (forEach l1 body acc) (fun acc' => forEach l2 body acc') m.
Proof.
  revert acc m. induction l1 as [| x l1 IH]; intros acc m; cbn [app forEach].
  - reflexivity.
  - unfold bind. destruct (body x acc m) as [[s | e] m']; [| reflexivity].
    rewrite IH. reflexivity.
Qed.

Lemma forEach_idle {A S : Type} (l : list A) (body : A -> S -> M S) (acc : S) (m : Mem) :
  Forall (fun x => forall s m0, body x s m0 = (Ok s, m0)) l ->
  forEach l body acc m = (Ok acc, m).
Proof.
  induction 1 as [| x l Hx _ IH]; cbn [forEach]; [reflexivity |].
  unfold bind. now rewrite Hx.
Qed.

Lemma bind_ret_r {A : Type} (c : M A) (k : A -> M A) (m : Mem) :
  (forall a m', k a m' = (Ok a, m')) -> bind c k m = c m.
Proof.
  intros H. unfold bind. destruct (c m) as [[a | e] m']; [apply H | reflexivity].
Qed.

(** A loop over the resolved mutations whose body passes over the ids
    outside the tables runs the same for every order of selection. *)
Lemma forEach_resolve {S : Type} (body : string -> S -> M S) (l1 l2 : list string)
    (acc : S) (m : Mem) :
  (forall x s m0, isKnown x = false -> body x s m0 = (Ok s, m0)) ->
  Permutation l1 l2 ->
  forEach (resolveActiveMutations l1) body acc m
  = forEach (resolveActiveMutations l2) body acc m.
Proof.
  intros Hb Hp.
  assert (Hidle : forall l s m0, forEach (ofRank l 50) body s m0 = (Ok s, m0)).
  { intros l s m0. apply forEach_idle.
    eapply Forall_impl; [| apply ofRank_50_unknown]. cbn. intros x K s0 m1. now apply Hb. }
  rewrite !resolve_known_unknown, !forEach_app.
  rewrite !bind_ret_r by (intros; apply Hidle).
  rewrite (known_part_perm l1 l2); [reflexivity |].
  now apply Permutation_filter_local.
Qed.

Lemma iconStep_unknown (st : AppState) (slot : Slot) (tall : bool) (origW origH : Z)
    (ax ay : Q) (mutId : string) (ops : list DrawOp) (m : Mem) :
  isKnown mutId = false ->
  iconStep st slot tall origW origH ax ay mutId ops m = (Ok ops, m).
Proof.
  intros K. unfold iconStep. now rewrite (MUTATION_META_unknown mutId K).
Qed.

Lemma overlayStep_unknown (st : AppState) (canvas : HTMLCanvasElement) (origW origH : Z)
    (ax ay : Q) (mutId : string) (ops : list DrawOp) (m : Mem) :
  isKnown mutId = false ->
  overlayStep st canvas origW origH ax ay mutId ops m = (Ok ops, m).
Proof.
  intros K. unfold overlayStep. now rewrite (MUTATION_META_unknown mutId K).
Qed.

(** X3: [renderSlot] does the same for two slots that differ only in the
    order of their mutations: the same cache key, the same outcome, the same
    effects.  The key sorts the mutations by name and the pipeline sorts
    them by rank, so sharing a cache entry between the two is sound. *)
Theorem renderSlot_selection_order (st : AppState) (l1 l2 : list string)
    (ty : SlotType) (key url : string) (icons overlays : bool) (tint : CustomTint)
    (sc rot : Q) (vis : bool) (layers : option (list (string * string)))
    (frames : option (list GifDecoder.GifFrame)) (animated : bool)
    (gifFrameIndex : option Z) (m : Mem) :
  Permutation l1 l2 ->
  let slot1 := mkSlot ty key url l1 icons overlays tint sc rot vis layers frames animated in
  let slot2 := mkSlot ty key url l2 icons overlays tint sc rot vis layers frames animated in
  slotCacheKey slot1 gifFrameIndex = slotCacheKey slot2 gifFrameIndex
  /\ renderSlot st slot1 gifFrameIndex m = renderSlot st slot2 gifFrameIndex m.
Proof.
  intros Hp slot1 slot2.
  assert (Hkey : slotCacheKey slot1 gifFrameIndex = slotCacheKey slot2 gifFrameIndex).
  { unfold slotCacheKey, slot1, slot2, animatedFrames.
    cbn [spriteUrl mutations optIcons optOverlays scale rotation customTint isAnimated gifFrames].
    now rewrite (makeKey_perm url l1 l2 icons overlays sc rot None Hp). }
  split; [exact Hkey |].
  assert (Hk : Permutation (filter isKnown l1) (filter isKnown l2))
    by now apply Permutation_filter_local.
  unfold renderSlot. rewrite Hkey.
  change (spriteUrl slot1) with url. change (spriteUrl slot2) with url.
  destruct (url =? ""); [reflexivity |].
  apply bind_ext. intros [c |] m1; [reflexivity |].
  change (baseCanvas slot1 gifFrameIndex) with (baseCanvas slot2 gifFrameIndex).
  apply bind_ext. intros canvas m2.
  change (mutations slot1) with l1. change (mutations slot2) with l2.
  change (customTint slot1) with tint. change (customTint slot2) with tint.
  change (spriteKey slot1) with key. change (spriteKey slot2) with key.
  unfold applyMutationsThrows.
  rewrite (buildPipeline_perm l1 l2 (Some tint) Hk).
  unfold applyMutations. rewrite (buildPipeline_perm l1 l2 (Some tint) Hk).
  apply bind_ext. intros canvas1 m3.
  assert (Hdec : forall mm, decorate st slot1 (IconLayout.isTallKey key) canvas1 mm
                            = decorate st slot2 (IconLayout.isTallKey key) canvas1 mm).
  { intros mm. unfold decorate.
    change (optIcons slot1) with icons. change (optIcons slot2) with icons.
    change (optOverlays slot1) with overlays. change (optOverlays slot2) with overlays.
    change (mutations slot1) with l1. change (mutations slot2) with l2.
    change (spriteKey slot1) with key. change (spriteKey slot2) with key.
    destruct (icons || IconLayout.isTallKey key && overlays); [| reflexivity].
    set (a := getSpriteFrameAnchor st key).
    apply bind_cong.
    { destruct icons; [| reflexivity].
      change (iconStep st slot1) with (iconStep st slot2).
      apply forEach_resolve; [| exact Hp]. intros. now apply iconStep_unknown. }
    intros ops m0. apply bind_cong; [| reflexivity].
    destruct (IconLayout.isTallKey key && overlays); [| reflexivity].
    apply forEach_resolve; [| exact Hp]. intros. now apply overlayStep_unknown. }
  apply bind_cong; [apply Hdec | reflexivity].
Qed.

(** Whatever [set] evicts, the entry it writes is there afterwards. *)
Lemma mapGet_set (now : Z) (key : string) (c : HTMLCanvasElement) (entries : Entries) :
  mapGet (set now key c entries) key = Some (mkCacheEntry c now).
Proof. unfold set. apply mapGet_mapSet_same. Qed.

Lemma finish_caches (st : AppState) (slot : Slot) (cacheKey : string)
    (canvas c : HTMLCanvasElement) (m m' : Mem) :
  finish st slot cacheKey canvas m = (Ok (Some c), m') ->
  exists t, mapGet (cacheEntries m') cacheKey = Some (mkCacheEntry c t).
Proof.
  unfold finish.
  destruct (applyMutationsThrows canvas (mutations slot) (Some (customTint slot)));
    [discriminate |].
  set (tall := IconLayout.isTallKey (spriteKey slot)).
  set (c1 := applyMutations canvas (mutations slot) tall (Some (customTint slot))).
  rewrite (bind_ok (ret c1) _ m m c1 eq_refl).
  destruct (decorate st slot tall c1 m) as [[c2 | e] m2] eqn:E2;
    [rewrite (bind_ok _ _ _ _ _ E2) | rewrite (bind_thrown _ _ _ _ _ E2); discriminate].
  destruct (cosmetics st slot c2 m2) as [[c3 | e] m3] eqn:E3;
    [rewrite (bind_ok _ _ _ _ _ E3) | rewrite (bind_thrown _ _ _ _ _ E3); discriminate].
  unfold bind, cacheSet, ret. destruct (Date_now (world m3)) as [t w].
  intros [= <- <-]. exists t. cbn [cacheEntries]. apply mapGet_set.
Qed.

Lemma renderSlot_caches (st : AppState) (slot : Slot) (gifFrameIndex : option Z)
    (m m' : Mem) (c : HTMLCanvasElement) :
  renderSlot st slot gifFrameIndex m = (Ok (Some c), m') ->
  spriteUrl slot <> ""
  /\ exists t, mapGet (cacheEntries m') (slotCacheKey slot gifFrameIndex)
               = Some (mkCacheEntry c t).
Proof.
  unfold renderSlot.
  destruct (String.eqb_spec (spriteUrl slot) "") as [E | NE]; [discriminate |].
  intros H. split; [exact NE |]. revert H.
  set (key := slotCacheKey slot gifFrameIndex).
  change (bind (cacheGet key) _ m)
    with (bind (cacheGet key)
               (fun cached : option HTMLCanvasElement =>
                  match cached with
                  | Some c => ret (Some c)
                  | None => bind (baseCanvas slot gifFrameIndex) (finish st slot key)
                  end) m).
  unfold bind at 1, cacheGet, get.
  destruct (mapGet (cacheEntries m) key) as [entry |] eqn:E.
  - destruct (Date_now (world m)) as [t w].
    intros [= <- <-]. exists t. cbn [cacheEntries]. apply mapGet_mapSet_same.
  - destruct (baseCanvas slot gifFrameIndex m) as [[canvas | e] m2] eqn:E2.
    + rewrite (bind_ok _ _ _ _ _ E2). apply finish_caches.
    + rewrite (bind_thrown _ _ _ _ _ E2). discriminate.
Qed.

(** X4: once [renderSlot] has resolved with a canvas, calling it again for
    the same slot and frame resolves with that same canvas straight from
    the cache: the second call loads nothing and draws nothing, it reads
    the clock and refreshes the time stamp of the entry. *)
Theorem renderSlot_twice (st : AppState) (slot : Slot) (gifFrameIndex : option Z)
    (m m' : Mem) (c : HTMLCanvasElement) :
  renderSlot st slot gifFrameIndex m = (Ok (Some c), m') ->
  renderSlot st slot gifFrameIndex m'
  = (Ok (Some c),
     mkMem (snd (Date_now (world m')))
           (mapSet (cacheEntries m') (slotCacheKey slot gifFrameIndex)
                   (mkCacheEntry c (fst (Date_now (world m')))))
           (spriteIdSet m')).
Proof.
  intros H. destruct (renderSlot_caches st slot gifFrameIndex m m' c H) as [NE [t E]].
  unfold renderSlot.
  destruct (String.eqb_spec (spriteUrl slot) "") as [E0 | _]; [contradiction |].
  unfold bind, cacheGet, get. rewrite E. destruct (Date_now (world m')) as [t' w'].
  reflexivity.
Qed.

End RenderSlotCache.

Section RenderSlotCacheExamples.
Import Canvas2D CanvasRenderer.
Local Open Scope string_scope.

Lemma renderSlot_selection_order_witness :
  Permutation ["Gold"; "Wet"] ["Wet"; "Gold"]
  /\ @renderSlot Fixtures.baseOnly Fixtures.sampleState
       (mkSlot CosmeticSlot "sprite/plant/Carrot" "base.png" ["Gold"; "Wet"] true true
          (MutationEngine.mkTint "#ffffff" 0) 1 0 true (Some [("Top", "hat")]) None false)
       None (@mkMem Fixtures.baseOnly 0%Z [] None)
     = @renderSlot Fixtures.baseOnly Fixtures.sampleState
         (mkSlot CosmeticSlot "sprite/plant/Carrot" "base.png" ["Wet"; "Gold"] true true
            (MutationEngine.mkTint "#ffffff" 0) 1 0 true (Some [("Top", "hat")]) None false)
         None (@mkMem Fixtures.baseOnly 0%Z [] None).
Proof.
  assert (H : Permutation ["Gold"; "Wet"] ["Wet"; "Gold"]) by apply perm_swap.
  split; [exact H |].
  exact (proj2 (@renderSlot_selection_order Fixtures.baseOnly Fixtures.sampleState
                  ["Gold"; "Wet"] ["Wet"; "Gold"] CosmeticSlot "sprite/plant/Carrot" "base.png"
                  true true (MutationEngine.mkTint "#ffffff" 0) 1 0 true
                  (Some [("Top", "hat")]) None false None
                  (@mkMem Fixtures.baseOnly 0%Z [] None) H)).
Defined.

Lemma renderSlot_twice_witness :
  exists c m',
    @renderSlot Fixtures.baseOnly Fixtures.sampleState Fixtures.sampleSlot None
      (@mkMem Fixtures.baseOnly 0%Z [] None) = (Ok (Some c), m')
    /\ fst (@renderSlot Fixtures.baseOnly Fixtures.sampleState Fixtures.sampleSlot None m')
       = Ok (Some c).
Proof.
  assert (H : match fst (@renderSlot Fixtures.baseOnly Fixtures.sampleState
                           Fixtures.sampleSlot None (@mkMem Fixtures.baseOnly 0%Z [] None))
              with Ok (Some _) => true | _ => false end = true)
    by (vm_compute; reflexivity).
  destruct (@renderSlot Fixtures.baseOnly Fixtures.sampleState Fixtures.sampleSlot None
              (@mkMem Fixtures.baseOnly 0%Z [] None)) as [[[c |] | e] m'] eqn:E;
    cbn [fst] in H; try discriminate H.
  exists c, m'. split; [reflexivity |].
  now rewrite (@renderSlot_twice Fixtures.baseOnly Fixtures.sampleState Fixtures.sampleSlot
                 None _ m' c E).
Defined.

End RenderSlotCacheExamples.

(** ** The blend operators at hand *)

Section BlendSupport.
Import Canvas2D ColorMath.
Context {P : Platform}.
Local Open Scope string_scope.
Local Open Scope list_scope.

Lemma op_of_string_name (s : string) (o : CompositeOp) :
  op_of_string s = Some o -> op_name o = s.
Proof.
  unfold op_of_string. intros H. apply find_some in H. destruct H as [_ H].
  now apply String.eqb_eq.
Qed.

(** The probe of one operator. *)
Let probe (acc : HTMLCanvasElement * list string) (op : string)
    : HTMLCanvasElement * list string :=
  let g := set_globalCompositeOperation (fst acc) op in
  if String.eqb (op_name (globalCompositeOperation (state g))) op
  then (g, snd acc ++ [op])
  else (g, snd acc).

(** Probing operators that are all known and all different, from a context
    whose operator is none of them, keeps those the runtime honours. *)
Lemma probe_all (ops : list string) (g : HTMLCanvasElement) (acc : list string) :
  NoDup ops ->
  Forall (fun op => op_of_string op <> None) ops ->
  ~ In (op_name (globalCompositeOperation (state g))) ops ->
  snd (fold_left probe ops (g, acc)) = acc ++ filter honours ops.
Proof.
  revert g acc. induction ops as [| op ops IH]; intros g acc Hnd Hknown Hcur.
  - cbn. now rewrite app_nil_r.
  - inversion Hnd as [| ? ? Hfresh Hnd']; subst.
    inversion Hknown as [| ? ? Hop Hknown']; subst.
    cbn [fold_left filter]. unfold probe at 2. cbn [fst snd].
    unfold set_globalCompositeOperation.
    destruct (op_of_string op) as [o |] eqn:Eo; [| congruence].
    pose proof (op_of_string_name op o Eo) as Hname.
    destruct (honours op) eqn:Eh.
    + cbn [state globalCompositeOperation withState]. rewrite Hname, String.eqb_refl.
      rewrite IH; try assumption.
      * now rewrite <- app_assoc.
      * cbn [state globalCompositeOperation withState]. now rewrite Hname.
    + destruct (String.eqb_spec (op_name (globalCompositeOperation (state g))) op) as [E | _].
      * exfalso. apply Hcur. left. now symmetry.
      * apply IH; try assumption. intros Hin. apply Hcur. now right.
Qed.

Lemma SUPPORTED_filter : SUPPORTED_BLEND_OPS = filter honours PROBED_OPS.
Proof.
  unfold SUPPORTED_BLEND_OPS.
  change (snd (fold_left probe PROBED_OPS (createCanvas 300 150, []))
          = [] ++ filter honours PROBED_OPS).
  apply probe_all.
  - unfold PROBED_OPS. repeat (constructor; [cbn; intuition discriminate |]). constructor.
  - unfold PROBED_OPS. repeat (constructor; [discriminate |]). constructor.
  - cbn. intuition discriminate.
Qed.

Lemma has_SUPPORTED (op : string) :
  has SUPPORTED_BLEND_OPS op = true <-> In op PROBED_OPS /\ honours op = true.
Proof. rewrite SUPPORTED_filter, has_In. apply filter_In. Qed.

(** X5: the set of supported blend operators is exactly the probed
    operators the runtime honours, in the order they are probed; and the
    operator [pickBlendOp] returns over that set is always a probed one,
    which the runtime honours unless it is the last resort, source-atop. *)
Theorem SUPPORTED_BLEND_OPS_honoured (desired : string) :
  SUPPORTED_BLEND_OPS = filter honours PROBED_OPS
  /\ In (pickBlendOp SUPPORTED_BLEND_OPS desired) PROBED_OPS
  /\ (honours (pickBlendOp SUPPORTED_BLEND_OPS desired) = true
      \/ pickBlendOp SUPPORTED_BLEND_OPS desired = "source-atop").
Proof.
  split; [apply SUPPORTED_filter |].
  unfold pickBlendOp.
  destruct (has SUPPORTED_BLEND_OPS desired) eqn:E.
  { apply has_SUPPORTED in E. destruct E. split; [assumption | now left]. }
  destruct (has SUPPORTED_BLEND_OPS "overlay") eqn:E1.
  { apply has_SUPPORTED in E1. destruct E1. split; [assumption | now left]. }
  destruct (has SUPPORTED_BLEND_OPS "screen") eqn:E2.
  { apply has_SUPPORTED in E2. destruct E2. split; [assumption | now left]. }
  destruct (has SUPPORTED_BLEND_OPS "lighter") eqn:E3.
  { apply has_SUPPORTED in E3. destruct E3. split; [assumption | now left]. }
  split; [cbn; tauto | now right].
Qed.

End BlendSupport.

(** ** The pipeline as a whole *)

Section PipelineFrame.
Import Canvas2D ColorMath MutationDefs MutationEngine RenderOrder Notions.
Context {P : Platform}.
Local Open Scope string_scope.
Local Open Scope list_scope.

Lemma saved_set_gco (c : HTMLCanvasElement) (s : string) :
  saved (set_globalCompositeOperation c s) = saved c
  /\ width (set_globalCompositeOperation c s) = width c
  /\ height (set_globalCompositeOperation c s) = height c.
Proof. pose proof (set_gco_keeps c s). tauto. Qed.

Lemma saved_set_alpha (c : HTMLCanvasElement) (al : Q) :
  saved (set_globalAlpha c al) = saved c
  /\ width (set_globalAlpha c al) = width c
  /\ height (set_globalAlpha c al) = height c.
Proof. pose proof (set_alpha_keeps c al). tauto. Qed.

Lemma saved_set_fill (c : HTMLCanvasElement) (s : string) :
  saved (set_fillStyle c s) = saved c
  /\ width (set_fillStyle c s) = width c
  /\ height (set_fillStyle c s) = height c.
Proof. pose proof (set_fill_keeps c s). tauto. Qed.

(** [save], any drawing with the saved stack untouched, [restore]: the
    canvas is back in the state it was saved in. *)
Lemma restore_after_save (c d : HTMLCanvasElement) :
  saved d = state c :: saved c -> width d = width c -> height d = height c ->
  sameFrame (restore d) c.
Proof.
  intros Hs Hw Hh. unfold restore. rewrite Hs. now repeat split.
Qed.

Lemma flatTint_frame (ctx : HTMLCanvasElement) (f : FilterDef) : sameFrame (flatTint ctx f) ctx.
Proof.
  unfold flatTint. apply restore_after_save; cbn [fillRect withBitmap saved width height].
  - rewrite (proj1 (saved_set_fill _ _)).
    destruct (a f); [rewrite (proj1 (saved_set_alpha _ _)) |];
      now rewrite (proj1 (saved_set_gco _ _)).
  - rewrite (proj1 (proj2 (saved_set_fill _ _))).
    destruct (a f); [rewrite (proj1 (proj2 (saved_set_alpha _ _))) |];
      now rewrite (proj1 (proj2 (saved_set_gco _ _))).
  - rewrite (proj2 (proj2 (saved_set_fill _ _))).
    destruct (a f); [rewrite (proj2 (proj2 (saved_set_alpha _ _))) |];
      now rewrite (proj2 (proj2 (saved_set_gco _ _))).
Qed.

Lemma applyMaskedFilter_frame (ctx originalBase : HTMLCanvasElement) (f : FilterDef)
    (isTall : bool) :
  sameFrame (applyMaskedFilter ctx originalBase f isTall) ctx.
Proof.
  unfold applyMaskedFilter. apply restore_after_save; cbn [drawImage withBitmap saved width height].
  - now rewrite (proj1 (saved_set_gco _ _)).
  - now rewrite (proj1 (proj2 (saved_set_gco _ _))).
  - now rewrite (proj2 (proj2 (saved_set_gco _ _))).
Qed.

Lemma sameFrame_trans (c d e : HTMLCanvasElement) :
  sameFrame c d -> sameFrame d e -> sameFrame c e.
Proof. unfold sameFrame. intuition congruence. Qed.

Lemma runPipeline_frame (originalBase : HTMLCanvasElement) (isTall : bool)
    (pipeline : list Step) (ctx : HTMLCanvasElement) :
  sameFrame (runPipeline originalBase isTall pipeline ctx) ctx.
Proof.
  revert ctx. unfold runPipeline.
  induction pipeline as [| step rest IH]; intros ctx; cbn [fold_left].
  - now repeat split.
  - eapply sameFrame_trans; [apply IH |]. unfold applyStep.
    destruct (masked (snd step)); [apply applyMaskedFilter_frame | apply flatTint_frame].
Qed.

(** X6: when [applyMutations] returns (no selected id is a property name
    inherited from [Object.prototype], the stop colours of the masked steps
    parse, and the canvas has pixels or there is nothing to apply), it has
    changed pixels only: the canvas keeps its size, its drawing state and
    its stack of saved states (every [save] is matched by a [restore]); and
    where the runtime honours source-atop no pixel changes its alpha. *)
Theorem applyMutations_frame (baseCanvas : HTMLCanvasElement) (selectedMutations : list string)
    (isTall : bool) (customTint : option CustomTint) :
  JsObject.ownKeys selectedMutations ->
  paintable (buildPipeline selectedMutations customTint) = true ->
  applyMutationsThrows baseCanvas selectedMutations customTint = false ->
  let result := applyMutations baseCanvas selectedMutations isTall customTint in
  width result = width baseCanvas
  /\ height result = height baseCanvas
  /\ state result = state baseCanvas
  /\ saved result = saved baseCanvas
  /\ (honours "source-atop" = true ->
      forall x y, pa (bitmap result x y) == pa (bitmap baseCanvas x y)).
Proof.
  intros _ _ _ result.
  assert (H : sameFrame result baseCanvas).
  { unfold result, applyMutations.
    destruct (buildPipeline selectedMutations customTint);
      [now repeat split | apply runPipeline_frame]. }
  destruct H as [Hw [Hh [Hs Hv]]]. repeat (split; [assumption |]).
  intros Hh' x y. unfold result, applyMutations.
  destruct (buildPipeline selectedMutations customTint); [reflexivity |].
  now apply runPipeline_alpha.
Qed.

(** X7: with no mutation of the filter table selected (and no property
    name inherited from [Object.prototype] among the ids) and no custom
    tint of positive opacity, [applyMutations] has nothing to apply, cannot
    throw, and returns the canvas as it is. *)
Theorem applyMutations_nothing_to_do (baseCanvas : HTMLCanvasElement)
    (selectedMutations : list string) (isTall : bool) (customTint : option CustomTint) :
  JsObject.ownKeys selectedMutations ->
  Forall (fun id => FILTERS id = None) selectedMutations ->
  match customTint with Some t => opacity t <= 0 | None => True end ->
  buildPipeline selectedMutations customTint = []
  /\ applyMutationsThrows baseCanvas selectedMutations customTint = false
  /\ applyMutations baseCanvas selectedMutations isTall customTint = baseCanvas.
Proof.
  intros _ Hsel Htint. unfold applyMutations, applyMutationsThrows.
  assert (E : buildPipeline selectedMutations customTint = []).
  { unfold buildPipeline. rewrite flat_map_nil.
    - destruct customTint as [t |]; [| reflexivity].
      destruct (Qlt_le_dec 0 (opacity t)) as [Hlt | _]; [| reflexivity].
      exfalso. apply (Qlt_not_le _ _ Hlt Htint).
    - apply Forall_forall. intros id Hin.
      apply (Permutation_in _ (Permutation_sym (sortBy_perm _ selectedMutations))) in Hin.
      rewrite Forall_forall in Hsel. now rewrite (Hsel id Hin). }
  now rewrite E.
Qed.

End PipelineFrame.

(** ** A masked step over an opaque pixel *)

Section MaskedOverride.
Import Canvas2D ColorMath MutationDefs MutationEngine Notions.
Context {P : Platform}.
Local Open Scope string_scope.
Local Open Scope list_scope.

Lemma inside_same (c d : HTMLCanvasElement) (x y : Z) :
  width c = width d -> height c = height d -> inside c x y = inside d x y.
Proof. unfold inside. now intros -> ->. Qed.

Lemma drawImage_pixel (c src : HTMLCanvasElement) (x y : Z) :
  inside c x y = true -> inside src x y = true ->
  bitmap (drawImage c src 0 0) x y
  = composite (globalCompositeOperation (state c))
      (scalePixel (globalAlpha (state c)) (bitmap src x y)) (bitmap c x y).
Proof.
  intros Hc Hs. unfold drawImage, withBitmap. cbn [bitmap].
  rewrite !Z.sub_0_r, Hc, Hs. reflexivity.
Qed.

Lemma composite_opaque (o : CompositeOp) (s b : Pixel) :
  keepsOpaque o = true -> pa b == 1 -> 0 <= pa s -> pa (composite o s b) == 1.
Proof.
  intros Ho Hb Hs.
  destruct o; try discriminate Ho; unfold composite, blendOver;
    try (destruct (mix _ _ _) as [[mr mg] mb]);
    unfold porterDuff, clampPixel; cbn [pa]; try (rewrite Hb; ring).
  (* lighter *)
  rewrite Hb. apply Q.min_l. rewrite <- (Qplus_0_l 1) at 1.
  setoid_replace (pa s * 1 + 1 * 1) with (pa s + 1) by ring.
  apply Qplus_le_l. exact Hs.
Qed.

(** The operator [pickBlendOp] names is one of those probed. *)
Lemma pickBlendOp_probed (desired : string) :
  In (pickBlendOp SUPPORTED_BLEND_OPS desired) PROBED_OPS.
Proof.
  unfold pickBlendOp.
  destruct (has SUPPORTED_BLEND_OPS desired) eqn:E.
  - apply has_In in E. rewrite SUPPORTED_filter in E. now apply filter_In in E.
  - destruct (has SUPPORTED_BLEND_OPS "overlay"); [cbn; tauto |].
    destruct (has SUPPORTED_BLEND_OPS "screen"); [cbn; tauto |].
    destruct (has SUPPORTED_BLEND_OPS "lighter"); cbn; tauto.
Qed.

Lemma set_gco_probed (c : HTMLCanvasElement) (s : string) :
  In s PROBED_OPS ->
  keepsOpaque (globalCompositeOperation (state c)) = true ->
  keepsOpaque (globalCompositeOperation (state (set_globalCompositeOperation c s))) = true.
Proof.
  intros Hin Hc. unfold set_globalCompositeOperation.
  destruct (op_of_string s) as [o |] eqn:Eo; [| exact Hc].
  destruct (honours s); [| exact Hc].
  cbn [state withState globalCompositeOperation].
  cbn in Hin. repeat (destruct Hin as [<- | Hin]; [injection Eo as <-; reflexivity |]).
  contradiction.
Qed.

Lemma set_alpha_range (c : HTMLCanvasElement) (al : Q) :
  0 <= globalAlpha (state c) -> 0 <= globalAlpha (state (set_globalAlpha c al)).
Proof.
  intros H. unfold set_globalAlpha.
  destruct (Qle_bool 0 al) eqn:E0; cbn [andb]; [| exact H].
  destruct (Qle_bool al 1); [| exact H].
  cbn [state withState globalAlpha]. now apply Qle_bool_iff.
Qed.

Lemma maskedGradient_size (originalBase : HTMLCanvasElement) (f : FilterDef) (isTall : bool) :
  width (maskedGradient originalBase f isTall) = width originalBase
  /\ height (maskedGradient originalBase f isTall) = height originalBase.
Proof.
  unfold maskedGradient. cbn [drawImage withBitmap width height].
  rewrite (proj1 (proj2 (saved_set_gco _ _))), (proj2 (proj2 (saved_set_gco _ _))).
  now split.
Qed.

Lemma blendedCopy_size (originalBase m : HTMLCanvasElement) (f : FilterDef) :
  width (blendedCopy originalBase m f) = width originalBase
  /\ height (blendedCopy originalBase m f) = height originalBase.
Proof.
  unfold blendedCopy.
  rewrite (proj1 (restore_size _)), (proj2 (restore_size _)).
  cbn [drawImage withBitmap width height].
  destruct (a f);
    rewrite ?(proj1 (proj2 (saved_set_alpha _ _))), ?(proj2 (proj2 (saved_set_alpha _ _))),
      (proj1 (proj2 (saved_set_gco _ _))), (proj2 (proj2 (saved_set_gco _ _)));
    now split.
Qed.

Variable originalBase : HTMLCanvasElement.
Variable f : FilterDef.
Variable isTall : bool.
Variables x y : Z.
Hypothesis gradient_alpha : forall g u v, 0 <= ca (gradientColour g u v).
Hypothesis Hin : inside originalBase x y = true.
Hypothesis Hopaque : pa (bitmap originalBase x y) == 1.

Lemma maskedGradient_alpha_nonneg :
  0 <= pa (bitmap (maskedGradient originalBase f isTall) x y).
Proof.
  unfold maskedGradient.
  set (w := width originalBase). set (h := height originalBase).
  set (m1 := fillGrad (createCanvas w h) w h (colors f) _ _).
  assert (Hm1 : inside m1 x y = true) by exact Hin.
  assert (Hpx : exists gc, 0 <= ca gc
                 /\ bitmap m1 x y
                    = composite SourceOver (scalePixel 1 (premultiply gc)) transparent).
  { unfold m1, fillGrad, fillRect, withBitmap, set_fillStyle_gradient, withState, drawPixel.
    cbn [bitmap state width height createCanvas fillStyle globalCompositeOperation
         globalAlpha defaultState paintAt].
    match goal with
    | |- context [inside ?c x y] => change (inside c x y) with (inside originalBase x y)
    end.
    rewrite Hin.
    assert (Hr : inRect 0 0 w h x y = true).
    { unfold inside in Hin. unfold inRect, w, h. now rewrite !Z.add_0_l. }
    rewrite Hr. cbn [andb]. eexists. split; [apply gradient_alpha | reflexivity]. }
  destruct Hpx as [gc [Hgc Hpx]].
  set (m2 := set_globalCompositeOperation m1 "destination-in").
  assert (Hm2 : inside m2 x y = true).
  { rewrite (inside_same m2 m1); [exact Hm1 | |]; apply saved_set_gco. }
  rewrite (drawImage_pixel m2 originalBase x y Hm2 Hin).
  assert (Hb : bitmap m2 = bitmap m1) by apply set_gco_keeps.
  assert (Hg : globalAlpha (state m2) = 1).
  { unfold m2, set_globalCompositeOperation.
    destruct (op_of_string "destination-in"); [destruct (honours "destination-in") |];
      reflexivity. }
  assert (Ho : globalCompositeOperation (state m2) = DestinationIn
               \/ globalCompositeOperation (state m2) = SourceOver).
  { unfold m2, set_globalCompositeOperation.
    change (op_of_string "destination-in") with (Some DestinationIn).
    destruct (honours "destination-in"); [left | right]; reflexivity. }
  rewrite Hb, Hg, Hpx.
  destruct Ho as [-> | ->]; unfold composite, porterDuff, scalePixel, premultiply, transparent;
    cbn [pa pr pg pb]; rewrite Hopaque.
  - setoid_replace (1 * 1 * 0 + (1 * ca gc * 1 + 0 * (1 - 1 * ca gc)) * (1 * 1)) with (ca gc)
      by ring.
    exact Hgc.
  - setoid_replace (1 * 1 * 1 + (1 * ca gc * 1 + 0 * (1 - 1 * ca gc)) * (1 - 1 * 1)) with 1
      by ring.
    discriminate.
Qed.

(** The blend of the gradient over the clean copy is opaque where the
    copy is. *)
Lemma blendedCopy_opaque :
  pa (bitmap (blendedCopy originalBase (maskedGradient originalBase f isTall) f) x y) == 1.
Proof.
  unfold blendedCopy. rewrite restore_bitmap.
  set (m := maskedGradient originalBase f isTall).
  set (b1 := drawImage (createCanvas (width originalBase) (height originalBase)) originalBase 0 0).
  set (b3 := set_globalCompositeOperation (save b1) _).
  set (b4 := match a f with Some al => set_globalAlpha b3 al | None => b3 end).
  assert (Hb1 : pa (bitmap b1 x y) == 1).
  { unfold b1. rewrite drawImage_pixel; [| exact Hin | exact Hin].
    cbn [createCanvas state bitmap defaultState globalCompositeOperation globalAlpha].
    unfold composite, porterDuff, scalePixel, transparent. cbn [pa]. rewrite Hopaque. ring. }
  assert (Hsize4 : width b4 = width originalBase /\ height b4 = height originalBase).
  { unfold b4. destruct (a f);
      [rewrite (proj1 (proj2 (saved_set_alpha _ _))), (proj2 (proj2 (saved_set_alpha _ _))) |];
      unfold b3; rewrite (proj1 (proj2 (saved_set_gco _ _))), (proj2 (proj2 (saved_set_gco _ _)));
      now split. }
  assert (Hbm4 : bitmap b4 = bitmap b1).
  { unfold b4. destruct (a f); [rewrite (proj1 (set_alpha_keeps _ _)) |];
      unfold b3; now rewrite (proj1 (set_gco_keeps _ _)). }
  assert (Hop4 : keepsOpaque (globalCompositeOperation (state b4)) = true).
  { assert (H3 : keepsOpaque (globalCompositeOperation (state b3)) = true).
    { unfold b3. apply set_gco_probed; [apply pickBlendOp_probed | reflexivity]. }
    unfold b4. destruct (a f); [| exact H3].
    now rewrite (proj2 (proj2 (proj2 (proj2 (set_alpha_keeps b3 q))))). }
  assert (Hga4 : 0 <= globalAlpha (state b4)).
  { assert (H3 : 0 <= globalAlpha (state b3)).
    { unfold b3, set_globalCompositeOperation.
      destruct (op_of_string _); [destruct (honours _) |]; discriminate. }
    unfold b4. destruct (a f); [now apply set_alpha_range | exact H3]. }
  assert (Hin4 : inside b4 x y = true).
  { rewrite (inside_same b4 originalBase); [exact Hin | |]; apply Hsize4. }
  assert (Hinm : inside m x y = true).
  { rewrite (inside_same m originalBase); [exact Hin | |]; apply maskedGradient_size. }
  rewrite (drawImage_pixel b4 m x y Hin4 Hinm), Hbm4.
  apply composite_opaque; [exact Hop4 | exact Hb1 |].
  unfold scalePixel. cbn [pa]. apply Qmult_le_0_compat; [exact Hga4 |].
  apply maskedGradient_alpha_nonneg.
Qed.

(** Drawn source-atop over an opaque pixel by a context at full opacity,
    the blend replaces what the pixel held. *)
Lemma applyMaskedFilter_opaque (ctx : HTMLCanvasElement) :
  honours "source-atop" = true ->
  width ctx = width originalBase -> height ctx = height originalBase ->
  globalAlpha (state ctx) == 1 ->
  pa (bitmap ctx x y) == 1 ->
  pixel_eq (bitmap (applyMaskedFilter ctx originalBase f isTall) x y)
           (bitmap (blendedCopy originalBase (maskedGradient originalBase f isTall) f) x y).
Proof.
  intros Hh Hw Hht Hga Hctx. unfold applyMaskedFilter. rewrite restore_bitmap.
  set (blended := blendedCopy originalBase (maskedGradient originalBase f isTall) f).
  pose proof blendedCopy_opaque as Hbl. fold blended in Hbl.
  set (c2 := set_globalCompositeOperation (save ctx) "source-atop").
  destruct (set_gco_source_atop (save ctx) Hh) as [Hop [Hal _]]. fold c2 in Hop, Hal.
  assert (Hin2 : inside c2 x y = true).
  { rewrite (inside_same c2 originalBase); [exact Hin | |]; unfold c2;
      [rewrite (proj1 (proj2 (saved_set_gco _ _))) | rewrite (proj2 (proj2 (saved_set_gco _ _)))];
      assumption. }
  assert (Hinb : inside blended x y = true).
  { rewrite (inside_same blended originalBase); [exact Hin | |]; apply blendedCopy_size. }
  rewrite (drawImage_pixel c2 blended x y Hin2 Hinb), Hop, Hal.
  assert (Hbm : bitmap c2 = bitmap ctx) by apply (set_gco_keeps (save ctx)).
  rewrite Hbm. cbn [save state].
  unfold pixel_eq, composite, porterDuff, scalePixel. cbn [pr pg pb pa].
  rewrite Hga, Hctx, Hbl. split; [| split; [| split]]; ring.
Qed.

End MaskedOverride.

Section MaskedOverrideFacts.
Import Canvas2D ColorMath MutationDefs MutationEngine Notions.
Context {P : Platform}.
Local Open Scope string_scope.
Local Open Scope list_scope.

(** When the last step of a pipeline is masked, an opaque pixel ends as
    the blend of that step over the clean snapshot. *)
Lemma runPipeline_last_masked (baseCanvas : HTMLCanvasElement) (isTall : bool)
    (pre : list Step) (step : Step) (x y : Z) :
  honours "source-atop" = true ->
  (forall g u v, 0 <= ca (gradientColour g u v)) ->
  globalAlpha (state baseCanvas) == 1 ->
  masked (snd step) = true ->
  inside baseCanvas x y = true ->
  pa (bitmap baseCanvas x y) == 1 ->
  let originalBase := snapshot baseCanvas in
  pixel_eq (bitmap (runPipeline originalBase isTall (pre ++ [step]) baseCanvas) x y)
           (bitmap (blendedCopy originalBase
                      (maskedGradient originalBase (snd step) isTall) (snd step)) x y).
Proof.
  intros Hh Hgrad Hga Hm Hin Hop originalBase.
  unfold runPipeline. rewrite fold_left_app. cbn [fold_left].
  fold (runPipeline originalBase isTall pre baseCanvas).
  set (ctx := runPipeline originalBase isTall pre baseCanvas).
  unfold applyStep. rewrite Hm.
  destruct (runPipeline_frame originalBase isTall pre baseCanvas) as [Hw [Hht [Hs _]]].
  fold ctx in Hw, Hht, Hs.
  assert (Hino : inside originalBase x y = true) by exact Hin.
  apply applyMaskedFilter_opaque; try assumption.
  - destruct (snapshot_alpha baseCanvas x y Hin) as [_ [_ [_ Ha]]].
    unfold originalBase. now rewrite Ha.
  - now rewrite Hs.
  - unfold ctx. now rewrite runPipeline_alpha.
Qed.

(** X8: when [applyMutations] returns (no selected id is a property name
    inherited from [Object.prototype], the stop colours of the masked steps
    parse) and the last step of the pipeline is a masked one (Rainbow, or
    the custom tint), a fully opaque pixel of a canvas at full opacity ends
    as the blend of that step's gradient over the untouched snapshot of the
    base: nothing of what the earlier steps painted is left in it. *)
Theorem last_masked_step_wins (baseCanvas : HTMLCanvasElement)
    (selectedMutations : list string) (isTall : bool) (customTint : option CustomTint)
    (pre : list Step) (step : Step) (x y : Z) :
  JsObject.ownKeys selectedMutations ->
  paintable (buildPipeline selectedMutations customTint) = true ->
  honours "source-atop" = true ->
  (forall g u v, 0 <= ca (gradientColour g u v)) ->
  globalAlpha (state baseCanvas) == 1 ->
  buildPipeline selectedMutations customTint = pre ++ [step] ->
  masked (snd step) = true ->
  inside baseCanvas x y = true ->
  pa (bitmap baseCanvas x y) == 1 ->
  let originalBase := snapshot baseCanvas in
  pixel_eq (bitmap (applyMutations baseCanvas selectedMutations isTall customTint) x y)
           (bitmap (blendedCopy originalBase
                      (maskedGradient originalBase (snd step) isTall) (snd step)) x y).
Proof.
  intros _ _ Hh Hgrad Hga Hpipe Hm Hin Hop originalBase.
  unfold applyMutations. rewrite Hpipe.
  destruct (pre ++ [step]) eqn:E; [destruct pre; discriminate E |].
  rewrite <- E. now apply runPipeline_last_masked.
Qed.

(** X9: under a custom tint of positive opacity the selected mutations
    make no difference to a fully opaque pixel: two selections on which
    [applyMutations] returns (no property name inherited from
    [Object.prototype] among the ids, stop colours that parse, the colour of
    the tint among them) give the same pixel there. *)
Theorem custom_tint_hides_mutations (baseCanvas : HTMLCanvasElement)
    (selected1 selected2 : list string) (isTall : bool) (tint : CustomTint) (x y : Z) :
  JsObject.ownKeys selected1 ->
  JsObject.ownKeys selected2 ->
  paintable (buildPipeline selected1 (Some tint)) = true ->
  paintable (buildPipeline selected2 (Some tint)) = true ->
  honours "source-atop" = true ->
  (forall g u v, 0 <= ca (gradientColour g u v)) ->
  globalAlpha (state baseCanvas) == 1 ->
  0 < opacity tint ->
  inside baseCanvas x y = true ->
  pa (bitmap baseCanvas x y) == 1 ->
  pixel_eq (bitmap (applyMutations baseCanvas selected1 isTall (Some tint)) x y)
           (bitmap (applyMutations baseCanvas selected2 isTall (Some tint)) x y).
Proof.
  intros _ _ _ _ Hh Hgrad Hga Hpos Hin Hop.
  set (custom := ("Custom", mkFilterDef "source-atop" [color tint] (Some (opacity tint))
                              None None true) : Step).
  assert (Hpipe : forall sel, exists pre, buildPipeline sel (Some tint) = pre ++ [custom]).
  { intros sel. unfold buildPipeline.
    destruct (Qlt_le_dec 0 (opacity tint)) as [_ | Hle];
      [eexists; reflexivity | exfalso; apply (Qlt_not_le _ _ Hpos Hle)]. }
  assert (Hone : forall sel,
            pixel_eq (bitmap (applyMutations baseCanvas sel isTall (Some tint)) x y)
                     (bitmap (blendedCopy (snapshot baseCanvas)
                                (maskedGradient (snapshot baseCanvas) (snd custom) isTall)
                                (snd custom)) x y)).
  { intros sel. destruct (Hpipe sel) as [pre E].
    unfold applyMutations. rewrite E.
    destruct (pre ++ [custom]) eqn:E'; [destruct pre; discriminate E' |].
    rewrite <- E'. now apply runPipeline_last_masked. }
  eapply pixel_eq_trans; [apply Hone |].
  destruct (Hone selected2) as [H1 [H2 [H3 H4]]].
  unfold pixel_eq. now rewrite H1, H2, H3, H4.
Qed.

(** A flat step at opacity 0 draws nothing. *)
Lemma flatTint_zero (ctx : HTMLCanvasElement) (f : FilterDef) (al : Q) (x y : Z) :
  honours "source-atop" = true ->
  a f = Some al -> al == 0 ->
  pixel_eq (bitmap (flatTint ctx f) x y) (bitmap ctx x y).
Proof.
  intros Hh Ha Hz. unfold flatTint. rewrite restore_bitmap, Ha.
  set (c1 := set_globalCompositeOperation (save ctx) "source-atop").
  destruct (set_gco_source_atop (save ctx) Hh) as [Hop _]. fold c1 in Hop.
  assert (Hb1 : bitmap c1 = bitmap ctx) by apply (set_gco_keeps (save ctx)).
  set (c2 := set_globalAlpha c1 al).
  assert (H2 : globalCompositeOperation (state c2) = SourceAtop
               /\ globalAlpha (state c2) == 0 /\ bitmap c2 = bitmap ctx).
  { unfold c2, set_globalAlpha.
    assert (E : Qle_bool 0 al && Qle_bool al 1 = true).
    { apply andb_true_intro. split; apply Qle_bool_iff; rewrite Hz; discriminate. }
    rewrite E. cbn [state withState globalCompositeOperation globalAlpha bitmap].
    repeat split; assumption. }
  destruct H2 as [Hop2 [Hga2 Hb2]].
  set (c3 := set_fillStyle c2 (firstColour f)).
  destruct (set_fill_keeps c2 (firstColour f)) as [Hb3 [_ [_ [_ [Hop3 Hga3]]]]].
  fold c3 in Hb3, Hop3, Hga3.
  unfold fillRect, withBitmap, drawPixel. cbn [bitmap].
  destruct (inside c3 x y && inRect 0 0 (width c3) (height c3) x y).
  - rewrite Hop3, Hop2, Hga3, Hb3, Hb2.
    unfold pixel_eq, composite, porterDuff, scalePixel. cbn [pr pg pb pa].
    rewrite Hga2. split; [| split; [| split]]; ring.
  - rewrite Hb3, Hb2. unfold pixel_eq. now repeat split.
Qed.

(** X10: a flat filter of opacity 0 changes no pixel.  Thunderstruck is
    the one such entry of the filter table: selected alone, or with ids
    that have no filter, it leaves every pixel of the canvas as it was. *)
Theorem thunderstruck_draws_nothing (baseCanvas : HTMLCanvasElement)
    (selectedMutations : list string) (isTall : bool) (x y : Z) :
  honours "source-atop" = true ->
  Forall (fun id => id = "Thunderstruck" \/ FILTERS id = None) selectedMutations ->
  pixel_eq (bitmap (applyMutations baseCanvas selectedMutations isTall None) x y)
           (bitmap baseCanvas x y).
Proof.
  intros Hh Hsel.
  assert (Hrefl : forall p, pixel_eq p p) by (intros p; unfold pixel_eq; now repeat split).
  unfold applyMutations.
  assert (Hpipe : Forall (fun step : Step => masked (snd step) = false /\ a (snd step) = Some 0)
                    (buildPipeline selectedMutations None)).
  { unfold buildPipeline. rewrite app_nil_r. apply Forall_forall. intros step Hstep.
    apply in_flat_map in Hstep. destruct Hstep as [id [Hid Hstep]].
    apply (Permutation_in _ (Permutation_sym (sortBy_perm _ selectedMutations))) in Hid.
    rewrite Forall_forall in Hsel. destruct (Hsel id Hid) as [-> | E].
    - cbn in Hstep. destruct Hstep as [<- | []]. now split.
    - rewrite E in Hstep. contradiction. }
  destruct (buildPipeline selectedMutations None) as [| s0 rest] eqn:E; [apply Hrefl |].
  rewrite <- E in *. clear E s0 rest.
  generalize (snapshot baseCanvas). intros ob. revert baseCanvas.
  induction Hpipe as [| step rest [Hm Ha] _ IH]; intros c; cbn [runPipeline fold_left].
  - apply Hrefl.
  - eapply pixel_eq_trans; [apply IH |].
    unfold applyStep. rewrite Hm. now apply (flatTint_zero c (snd step) 0).
Qed.

End MaskedOverrideFacts.

Section MaskedOverrideExamples.
Import Canvas2D ColorMath MutationDefs MutationEngine Notions.
Local Open Scope string_scope.
Local Open Scope list_scope.

Lemma browser_gradient_alpha (g : CanvasGradient) (u v : Z) :
  0 <= ca (@gradientColour Fixtures.browser g u v).
Proof.
  cbn. unfold Fixtures.firstStopColour. destruct (stops g) as [| [o c] rest]; [discriminate |].
  unfold Fixtures.tableColor. string_cases; discriminate.
Qed.

Lemma painter_gradient_alpha (g : CanvasGradient) (u v : Z) :
  0 <= ca (@gradientColour Samples.painter g u v).
Proof.
  cbn. destruct (stops g) as [| [o c] rest]; [discriminate |].
  unfold Samples.rainbowColor, Fixtures.tableColor. string_cases; discriminate.
Qed.

Lemma last_masked_step_wins_witness :
  JsObject.ownKeys ["Rainbow"; "Wet"]
  /\ @paintable Samples.painter (buildPipeline ["Rainbow"; "Wet"] None) = true
  /\ buildPipeline ["Rainbow"; "Wet"] None
     = [("Wet", flat "rgb(50,180,200)" 0.25)]
       ++ [("Rainbow", mkFilterDef "color"
                         ["#FF1744"; "#FF9100"; "#FFEA00"; "#00E676"; "#2979FF"; "#D500F9"]
                         None (Some 130%Q) (Some 0%Q) true)]
  /\ pixel_eq
       (bitmap (@applyMutations Samples.painter Samples.opaqueAndEmpty ["Rainbow"; "Wet"]
                  false None) 0 0)
       (bitmap (@applyMutations Samples.painter Samples.opaqueAndEmpty ["Rainbow"]
                  false None) 0 0).
Proof.
  assert (Hown : JsObject.ownKeys ["Rainbow"; "Wet"]) by (repeat constructor).
  split; [exact Hown |]. split; [reflexivity |]. split; [reflexivity |].
  eapply pixel_eq_trans.
  - apply (@last_masked_step_wins Samples.painter Samples.opaqueAndEmpty ["Rainbow"; "Wet"]
             false None [("Wet", flat "rgb(50,180,200)" 0.25)]
             ("Rainbow", mkFilterDef "color"
                ["#FF1744"; "#FF9100"; "#FFEA00"; "#00E676"; "#2979FF"; "#D500F9"]
                None (Some 130%Q) (Some 0%Q) true) 0 0 Hown);
      try reflexivity; [apply painter_gradient_alpha].
  - vm_compute. repeat split.
Defined.

Lemma custom_tint_hides_mutations_witness :
  pixel_eq
    (bitmap (@applyMutations Fixtures.browser Samples.opaqueAndEmpty ["Gold"; "Wet"] false
               (Some (mkTint "#ff0000" (1 # 10)))) 0 0)
    (bitmap (@applyMutations Fixtures.browser Samples.opaqueAndEmpty [] false
               (Some (mkTint "#ff0000" (1 # 10)))) 0 0).
Proof.
  apply (@custom_tint_hides_mutations Fixtures.browser); try reflexivity;
    [repeat constructor | constructor | apply browser_gradient_alpha].
Defined.

Lemma applyMutations_nothing_to_do_witness :
  @applyMutations Fixtures.browser Fixtures.twoPixels ["Zap"] false (Some (mkTint "#fff" 0))
  = Fixtures.twoPixels.
Proof.
  apply (@applyMutations_nothing_to_do Fixtures.browser).
  - repeat constructor.
  - constructor; [reflexivity | constructor].
  - discriminate.
Defined.

Lemma applyMutations_frame_witness :
  JsObject.ownKeys ["Gold"; "Wet"]
  /\ state (@applyMutations Fixtures.browser Fixtures.twoPixels ["Gold"; "Wet"] false
              (Some (mkTint "#ff0000" (1 # 2))))
     = state Fixtures.twoPixels
  /\ saved (@applyMutations Fixtures.browser Fixtures.twoPixels ["Gold"; "Wet"] false
              (Some (mkTint "#ff0000" (1 # 2))))
     = saved Fixtures.twoPixels
  /\ pa (bitmap (@applyMutations Fixtures.browser Fixtures.twoPixels ["Gold"; "Wet"] false
                   (Some (mkTint "#ff0000" (1 # 2)))) 0 0) == 1 # 2.
Proof.
  assert (Hown : JsObject.ownKeys ["Gold"; "Wet"]) by (repeat constructor).
  split; [exact Hown |].
  pose proof (@applyMutations_frame Fixtures.browser Fixtures.twoPixels ["Gold"; "Wet"] false
                (Some (mkTint "#ff0000" (1 # 2))) Hown eq_refl eq_refl) as H.
  cbv zeta in H. destruct H as [_ [_ [Hs [Hv Ha]]]].
  split; [exact Hs |]. split; [exact Hv |].
  rewrite (Ha eq_refl 0%Z 0%Z). reflexivity.
Defined.

Lemma thunderstruck_draws_nothing_witness :
  pixel_eq
    (bitmap (@applyMutations Fixtures.browser Fixtures.twoPixels ["Zap"; "Thunderstruck"]
               false None) 0 0)
    (bitmap Fixtures.twoPixels 0 0).
Proof.
  apply (@thunderstruck_draws_nothing Fixtures.browser); [reflexivity |].
  constructor; [right; reflexivity |]. constructor; [left; reflexivity | constructor].
Defined.

End MaskedOverrideExamples.

(** ** The decoder, frame by frame *)

Section DecoderMore.
Import Canvas2D GifDecoder Notions.
Local Open Scope Z_scope.
Local Open Scope Q_scope.

Lemma transparent_valid : validPixel transparent.
Proof.
  unfold validPixel, premultiplied, transparent. cbn [pa pr pg pb].
  repeat split; try discriminate; reflexivity.
Qed.

Lemma premultiply_valid (c : Colour) : 0 <= ca c -> ca c <= 1 -> validPixel (premultiply c).
Proof.
  intros H0 H1. unfold validPixel, premultiplied, premultiply. cbn [pa pr pg pb].
  split; [exact H0 |]. split; [exact H1 |].
  intros Hz. rewrite Hz. repeat apply conj; ring.
Qed.

Lemma unpremultiply_alpha (p : Pixel) :
  0 <= pa p -> pa p <= 1 -> 0 <= ca (unpremultiply p) /\ ca (unpremultiply p) <= 1.
Proof.
  intros H0 H1. unfold unpremultiply. destruct (Qeq_bool (pa p) 0); cbn [ca].
  - split; discriminate.
  - now split.
Qed.

(** Written back, what was read from a pixel is the pixel. *)
Lemma premultiply_unpremultiply (p : Pixel) :
  premultiplied p -> pixel_eq (premultiply (unpremultiply p)) p.
Proof.
  intros Hp. unfold unpremultiply, premultiply, pixel_eq.
  destruct (Qeq_bool (pa p) 0) eqn:E; cbn [cr cg cb ca pr pg pb pa].
  - apply Qeq_bool_iff in E. destruct (Hp E) as [Hr [Hg Hb]].
    rewrite Hr, Hg, Hb, E. repeat apply conj; ring.
  - apply Qeq_bool_neq in E. repeat apply conj; field; exact E.
Qed.

Lemma over_valid (s b : Pixel) :
  validPixel s -> validPixel b -> validPixel (composite SourceOver (scalePixel 1 s) b).
Proof.
  intros [Hs0 [Hs1 Hsp]] [Hb0 [Hb1 Hbp]].
  unfold validPixel, premultiplied, composite, porterDuff, scalePixel.
  cbn [pa pr pg pb].
  assert (Hprod : 0 <= pa b * (1 - pa s)).
  { apply Qmult_le_0_compat; [exact Hb0 | lra]. }
  split; [| split].
  - setoid_replace (1 * pa s * 1 + pa b * (1 - 1 * pa s)) with (pa s + pa b * (1 - pa s))
      by ring.
    lra.
  - setoid_replace (1 * pa s * 1 + pa b * (1 - 1 * pa s))
      with (1 - (1 - pa b) * (1 - pa s)) by ring.
    assert (0 <= (1 - pa b) * (1 - pa s)) by (apply Qmult_le_0_compat; lra).
    lra.
  - intros Hz.
    assert (Hz' : pa s + pa b * (1 - pa s) == 0) by (rewrite <- Hz; ring).
    assert (Hsz : pa s == 0) by lra.
    assert (Hbz : pa b == 0).
    { rewrite Hsz in Hz'. rewrite <- Hz'. ring. }
    destruct (Hsp Hsz) as [Sr [Sg Sb]]. destruct (Hbp Hbz) as [Br [Bg Bb]].
    rewrite Sr, Sg, Sb, Br, Bg, Bb. repeat apply conj; ring.
Qed.

Lemma inside_bounds (c : HTMLCanvasElement) (x y : Z) :
  inside c x y = true <-> (0 <= x < width c)%Z /\ (0 <= y < height c)%Z.
Proof.
  unfold inside.
  destruct (Z.leb_spec 0 x), (Z.ltb_spec x (width c)), (Z.leb_spec 0 y),
    (Z.ltb_spec y (height c)); cbn [andb]; split; intros; try lia; try discriminate;
    reflexivity.
Qed.

Lemma inside_inRect (c : HTMLCanvasElement) (x y : Z) :
  inside c x y = true -> inRect 0 0 (width c) (height c) x y = true.
Proof. unfold inside, inRect. now rewrite !Z.add_0_l. Qed.

Section WithReader.
Variable reader : GifReader.

Lemma frameCanvas_shape (i : nat) :
  width (frameCanvas reader i) = readerWidth reader
  /\ height (frameCanvas reader i) = readerHeight reader.
Proof. now split. Qed.

Lemma frameCanvas_valid (i : nat) (x y : Z) :
  fillsBytes reader -> validPixel (bitmap (frameCanvas reader i) x y).
Proof.
  intros Hb. unfold frameCanvas, putImageData, withBitmap. cbn [bitmap].
  match goal with |- context [if ?c then _ else _] => destruct c end;
    [| apply transparent_valid].
  apply premultiply_valid; unfold newImageData; cbn [idColour ca];
    match goal with
    | |- context [byteAt ?l ?n] => destruct (Hb i n) as [H0 H1]
    end.
  - apply Qle_shift_div_l; [reflexivity |]. rewrite Qmult_0_l.
    change 0 with (inject_Z 0). now rewrite <- Zle_Qle.
  - apply Qle_shift_div_r; [reflexivity |]. rewrite Qmult_1_l.
    change 255 with (inject_Z 255). now rewrite <- Zle_Qle.
Qed.

Lemma decodeFrame_drawn (i : nat) :
  decodeFrame reader i (compBefore reader i)
  = (mkGifFrame (drawImage (createCanvas (readerWidth reader) (readerHeight reader))
                           (drawn reader i) 0 0)
                (Z.max (fdelay (frameInfo reader i) * 10) 20),
     if (disposal (frameInfo reader i) =? 2)%Z
     then clearRect (drawn reader i) (fx (frameInfo reader i)) (fy (frameInfo reader i))
                    (fwidth (frameInfo reader i)) (fheight (frameInfo reader i))
     else if (disposal (frameInfo reader i) =? 3)%Z
          then putImageData (drawn reader i)
                 (getImageData (compBefore reader i) 0 0
                    (readerWidth reader) (readerHeight reader)) 0 0
          else drawn reader i).
Proof.
  unfold decodeFrame, drawn.
  destruct (disposal (frameInfo reader i) =? 2)%Z; [reflexivity |].
  destruct (disposal (frameInfo reader i) =? 3)%Z; reflexivity.
Qed.

Lemma drawn_shape (i : nat) :
  width (drawn reader i) = readerWidth reader
  /\ height (drawn reader i) = readerHeight reader
  /\ state (drawn reader i) = defaultState.
Proof.
  destruct (compBefore_shape reader i) as [Hw [Hh Hs]]. unfold drawn.
  destruct (disposal (frameInfo reader i) =? 2)%Z;
    cbn [drawImage clearRect withBitmap width height state]; now repeat split.
Qed.

(** The pixel frame [i] leaves once drawn: its own raster over what the
    compositing canvas held (nothing, in the rectangle of a frame with
    disposal 2). *)
Lemma drawn_pixel (i : nat) (x y : Z) :
  (0 <= x < readerWidth reader)%Z -> (0 <= y < readerHeight reader)%Z ->
  bitmap (drawn reader i) x y
  = composite SourceOver (scalePixel 1 (bitmap (frameCanvas reader i) x y))
      (if (disposal (frameInfo reader i) =? 2)%Z
          && inRect (fx (frameInfo reader i)) (fy (frameInfo reader i))
                    (fwidth (frameInfo reader i)) (fheight (frameInfo reader i)) x y
       then transparent
       else bitmap (compBefore reader i) x y).
Proof.
  intros Hx Hy. destruct (compBefore_shape reader i) as [Hw [Hh Hs]].
  assert (Hin : inside (compBefore reader i) x y = true).
  { apply inside_bounds. rewrite Hw, Hh. now split. }
  assert (Hint : inside (frameCanvas reader i) x y = true).
  { apply inside_bounds. now split. }
  unfold drawn.
  destruct (disposal (frameInfo reader i) =? 2)%Z; cbn [andb].
  - rewrite drawImage_pixel; [| exact Hin | exact Hint].
    cbn [clearRect withBitmap state bitmap]. rewrite Hs, Hin. reflexivity.
  - rewrite drawImage_pixel; [| exact Hin | exact Hint]. now rewrite Hs.
Qed.

(** The capture pushed as frame [i] shows what was drawn. *)
Lemma output_pixel (i : nat) (x y : Z) :
  (0 <= x < readerWidth reader)%Z -> (0 <= y < readerHeight reader)%Z ->
  pixel_eq (bitmap (canvas (fst (decodeFrame reader i (compBefore reader i)))) x y)
           (bitmap (drawn reader i) x y).
Proof.
  intros Hx Hy. rewrite decodeFrame_drawn. cbn [fst canvas].
  destruct (drawn_shape i) as [Hw [Hh _]].
  rewrite drawImage_pixel.
  - apply over_transparent.
  - apply inside_bounds. now split.
  - apply inside_bounds. rewrite Hw, Hh. now split.
Qed.

Lemma compBefore_valid (i : nat) (x y : Z) :
  fillsBytes reader -> validPixel (bitmap (compBefore reader i) x y).
Proof.
  intros Hb. revert x y. induction i as [| i IH]; intros x y.
  - apply transparent_valid.
  - assert (Hdrawn : forall u v, validPixel (bitmap (drawn reader i) u v)).
    { intros u v. destruct (compBefore_shape reader i) as [Hw [Hh Hs]].
      unfold drawn, drawImage, withBitmap. cbn [bitmap].
      set (comp1 := if (disposal (frameInfo reader i) =? 2)%Z then _ else _).
      assert (H1 : forall a b, validPixel (bitmap comp1 a b)).
      { intros a b. unfold comp1. destruct (disposal (frameInfo reader i) =? 2)%Z; [| apply IH].
        cbn [clearRect withBitmap bitmap].
        match goal with |- context [if ?c then _ else _] => destruct c end;
          [apply transparent_valid | apply IH]. }
      assert (Hs1 : state comp1 = defaultState).
      { unfold comp1. destruct (disposal (frameInfo reader i) =? 2)%Z; exact Hs. }
      match goal with |- context [if ?c then _ else _] => destruct c end; [| apply H1].
      rewrite Hs1. cbn [defaultState globalCompositeOperation globalAlpha].
      apply over_valid; [now apply frameCanvas_valid | apply H1]. }
    cbn [compBefore]. rewrite decodeFrame_drawn. cbn [snd].
    destruct (disposal (frameInfo reader i) =? 2)%Z.
    + cbn [clearRect withBitmap bitmap].
      match goal with |- context [if ?c then _ else _] => destruct c end;
        [apply transparent_valid | apply Hdrawn].
    + destruct (disposal (frameInfo reader i) =? 3)%Z; [| apply Hdrawn].
      cbn [putImageData withBitmap bitmap getImageData idColour].
      match goal with |- context [if ?c then _ else _] => destruct c end; [| apply Hdrawn].
      assert (Hv : forall a b, validPixel (pixelAt (compBefore reader i) a b)).
      { intros a b. unfold pixelAt.
        destruct (inside (compBefore reader i) a b); [apply IH | apply transparent_valid]. }
      destruct (Hv (0 + (x - 0))%Z (0 + (y - 0))%Z) as [H0 [H1 _]].
      apply premultiply_valid; now apply unpremultiply_alpha.
Qed.

End WithReader.

(** X11: for an animation of positive width and height (on an empty one
    [new ImageData] throws), [decodeGif] returns one frame per frame of the
    file, in order; each is a canvas of the size of the animation, and its
    delay is ten times the delay of the file in hundredths of a second, but
    never less than 20 ms. *)
Theorem decodeGif_frames (reader : GifReader) :
  (0 < readerWidth reader)%Z ->
  (0 < readerHeight reader)%Z ->
  gifWidth (decodeGif reader) = readerWidth reader
  /\ gifHeight (decodeGif reader) = readerHeight reader
  /\ List.length (frames (decodeGif reader)) = numFrames reader
  /\ forall k frame,
       nth_error (frames (decodeGif reader)) k = Some frame ->
       delay frame = Z.max (10 * fdelay (frameInfo reader k)) 20
       /\ (20 <= delay frame)%Z
       /\ width (canvas frame) = readerWidth reader
       /\ height (canvas frame) = readerHeight reader.
Proof.
  intros _ _. split; [reflexivity |]. split; [reflexivity |].
  assert (Hlen : forall n i c, List.length (decodeLoop reader i n c) = n).
  { induction n as [| n IH]; intros i c; cbn [decodeLoop]; [reflexivity |].
    destruct (decodeFrame reader i c) as [frame c']. cbn [List.length]. now rewrite IH. }
  split; [apply Hlen |].
  intros k frame Hk.
  assert (Hlt : (k < numFrames reader)%nat).
  { assert (H : (k < List.length (frames (decodeGif reader)))%nat)
      by (apply nth_error_Some; congruence).
    unfold decodeGif in H. cbn [frames] in H. now rewrite Hlen in H. }
  rewrite (decodeGif_nth reader k Hlt) in Hk.
  assert (E : frame = fst (decodeFrame reader k (compBefore reader k))) by congruence.
  rewrite E, decodeFrame_drawn.
  cbn [fst delay canvas drawImage withBitmap createCanvas width height].
  rewrite (Z.mul_comm 10). repeat split. lia.
Qed.

(** X12: a frame with disposal 3 ("restore to previous") leaves the
    compositing canvas, pixel for pixel, as it found it: what the frame drew
    is gone before the next frame is drawn. *)
Theorem restore_to_previous_restores (reader : GifReader) (i : nat) (x y : Z) :
  fillsBytes reader ->
  disposal (frameInfo reader i) = 3%Z ->
  (0 <= x < readerWidth reader)%Z -> (0 <= y < readerHeight reader)%Z ->
  pixel_eq (bitmap (compBefore reader (S i)) x y) (bitmap (compBefore reader i) x y).
Proof.
  intros Hb Hd Hx Hy. cbn [compBefore]. rewrite decodeFrame_drawn, Hd. cbn [snd Z.eqb Pos.eqb].
  destruct (drawn_shape reader i) as [Hw [Hh _]].
  destruct (compBefore_shape reader i) as [Hcw [Hch _]].
  assert (Hin : inside (drawn reader i) x y = true).
  { apply inside_bounds. rewrite Hw, Hh. now split. }
  assert (Hinc : inside (compBefore reader i) x y = true).
  { apply inside_bounds. rewrite Hcw, Hch. now split. }
  cbn [putImageData withBitmap bitmap getImageData idWidth idHeight idColour].
  rewrite Hin. rewrite <- Hw, <- Hh at 1. rewrite (inside_inRect _ x y Hin). cbn [andb].
  rewrite !Z.sub_0_r, !Z.add_0_l. unfold pixelAt. rewrite Hinc.
  apply premultiply_unpremultiply. apply (compBefore_valid reader i x y Hb).
Qed.

(** X13: within its rectangle a frame with disposal 2 shows its own
    raster only: the rectangle is cleared before the frame is drawn, so
    nothing of the earlier frames is left in the capture there. *)
Theorem restore_to_background_shows_own_raster (reader : GifReader) (i : nat) (x y : Z) :
  disposal (frameInfo reader i) = 2%Z ->
  (i < numFrames reader)%nat ->
  (0 <= x < readerWidth reader)%Z -> (0 <= y < readerHeight reader)%Z ->
  inRect (fx (frameInfo reader i)) (fy (frameInfo reader i))
         (fwidth (frameInfo reader i)) (fheight (frameInfo reader i)) x y = true ->
  exists frame,
    nth_error (frames (decodeGif reader)) i = Some frame
    /\ pixel_eq (bitmap (canvas frame) x y) (bitmap (frameCanvas reader i) x y).
Proof.
  intros Hd Hi Hx Hy Hr.
  exists (fst (decodeFrame reader i (compBefore reader i))).
  split; [now apply decodeGif_nth |].
  eapply pixel_eq_trans; [now apply output_pixel |].
  rewrite (drawn_pixel reader i x y Hx Hy), Hd, Hr. cbn [Z.eqb Pos.eqb andb].
  apply over_transparent.
Qed.

(** X14: after a frame that is kept (disposal neither 2 nor 3), wherever
    the next frame's raster is empty and the next frame does not clear, the
    next capture shows the pixel of this one: frames accumulate. *)
Theorem kept_frame_shows_through (reader : GifReader) (i : nat) (x y : Z) :
  disposal (frameInfo reader i) <> 2%Z ->
  disposal (frameInfo reader i) <> 3%Z ->
  (S i < numFrames reader)%nat ->
  (0 <= x < readerWidth reader)%Z -> (0 <= y < readerHeight reader)%Z ->
  pixel_eq (bitmap (frameCanvas reader (S i)) x y) transparent ->
  (disposal (frameInfo reader (S i)) =? 2)%Z
  && inRect (fx (frameInfo reader (S i))) (fy (frameInfo reader (S i)))
            (fwidth (frameInfo reader (S i))) (fheight (frameInfo reader (S i))) x y = false ->
  exists this next,
    nth_error (frames (decodeGif reader)) i = Some this
    /\ nth_error (frames (decodeGif reader)) (S i) = Some next
    /\ pixel_eq (bitmap (canvas next) x y) (bitmap (canvas this) x y).
Proof.
  intros H2 H3 Hn Hx Hy Hempty Hkeep.
  exists (fst (decodeFrame reader i (compBefore reader i))),
    (fst (decodeFrame reader (S i) (compBefore reader (S i)))).
  split; [apply decodeGif_nth; lia |]. split; [now apply decodeGif_nth |].
  assert (Hcomp : compBefore reader (S i) = drawn reader i).
  { cbn [compBefore]. rewrite decodeFrame_drawn. cbn [snd].
    destruct (Z.eqb_spec (disposal (frameInfo reader i)) 2); [contradiction |].
    destruct (Z.eqb_spec (disposal (frameInfo reader i)) 3); [contradiction | reflexivity]. }
  assert (Hnext : pixel_eq (bitmap (drawn reader (S i)) x y) (bitmap (drawn reader i) x y)).
  { rewrite (drawn_pixel reader (S i) x y Hx Hy), Hkeep, Hcomp.
    destruct Hempty as [Er [Eg [Eb Ea]]]. cbn [transparent pr pg pb pa] in Er, Eg, Eb, Ea.
    unfold pixel_eq, composite, porterDuff, scalePixel. cbn [pr pg pb pa].
    rewrite Er, Eg, Eb, Ea. repeat apply conj; ring. }
  eapply pixel_eq_trans; [now apply output_pixel |].
  eapply pixel_eq_trans; [exact Hnext |].
  destruct (output_pixel reader i x y Hx Hy) as [A [B [C D]]].
  unfold pixel_eq. now rewrite A, B, C, D.
Qed.

End DecoderMore.

Section DecoderMoreExamples.
Import Canvas2D GifDecoder Notions.
Local Open Scope Z_scope.

Lemma byteAt_bytes (l : list Z) (n : Z) :
  forallb (fun b => (0 <=? b) && (b <=? 255)) l = true -> 0 <= byteAt l n <= 255.
Proof.
  intros H. unfold byteAt. destruct (n <? 0); [lia |].
  destruct (nth_in_or_default (Z.to_nat n) l 0) as [Hin | ->]; [| lia].
  rewrite forallb_forall in H. specialize (H _ Hin). lia.
Qed.

Lemma restoreGif_fillsBytes : fillsBytes Samples.restoreGif.
Proof.
  intros i n. apply byteAt_bytes. destruct i as [| [| i]]; reflexivity.
Qed.

Lemma decodeGif_frames_witness :
  List.length (frames (decodeGif Samples.restoreGif)) = 3%nat
  /\ forall frame,
       nth_error (frames (decodeGif Samples.restoreGif)) 1 = Some frame ->
       delay frame = 100 /\ width (canvas frame) = 2 /\ height (canvas frame) = 1.
Proof.
  destruct (decodeGif_frames Samples.restoreGif) as [_ [_ [Hlen Hfr]]];
    [reflexivity | reflexivity |].
  split; [exact Hlen |].
  intros frame H. destruct (Hfr 1%nat frame H) as [Hd [_ [Hw Hh]]].
  rewrite Hd, Hw, Hh. repeat split.
Defined.

Lemma restore_to_previous_restores_witness :
  pixel_eq (bitmap (drawn Samples.restoreGif 1) 1 0) (mkPixel 0 1 0 1)
  /\ pixel_eq (bitmap (compBefore Samples.restoreGif 2) 1 0) transparent.
Proof.
  split; [vm_compute; repeat apply conj; reflexivity |].
  eapply pixel_eq_trans.
  - apply (restore_to_previous_restores Samples.restoreGif 1 1 0);
      [apply restoreGif_fillsBytes | reflexivity | cbn; lia | cbn; lia].
  - vm_compute. repeat apply conj; reflexivity.
Defined.

Lemma restore_to_background_shows_own_raster_witness :
  exists frame,
    nth_error (frames (decodeGif Fixtures.threeFrameGif)) 1 = Some frame
    /\ pixel_eq (bitmap (canvas frame) 3 3) (mkPixel 1 0 0 1).
Proof.
  destruct (restore_to_background_shows_own_raster Fixtures.threeFrameGif 1 3 3)
    as [frame [Hnth Hpix]]; try reflexivity; try (cbn; lia).
  exists frame. split; [exact Hnth |].
  eapply pixel_eq_trans; [exact Hpix |]. vm_compute. repeat apply conj; reflexivity.
Defined.

Lemma kept_frame_shows_through_witness :
  exists this next,
    nth_error (frames (decodeGif Samples.restoreGif)) 0 = Some this
    /\ nth_error (frames (decodeGif Samples.restoreGif)) 1 = Some next
    /\ pixel_eq (bitmap (canvas this) 0 0) (mkPixel 1 0 0 1)
    /\ pixel_eq (bitmap (canvas next) 0 0) (mkPixel 1 0 0 1).
Proof.
  destruct (kept_frame_shows_through Samples.restoreGif 0 0 0)
    as [this [next [H0 [H1 Hpix]]]]; try discriminate; try reflexivity; try (cbn; lia).
  - vm_compute. repeat apply conj; reflexivity.
  - exists this, next. split; [exact H0 |]. split; [exact H1 |].
    assert (Hthis : pixel_eq (bitmap (canvas this) 0 0) (mkPixel 1 0 0 1)).
    { rewrite (decodeGif_nth Samples.restoreGif 0) in H0 by (cbn; lia).
      injection H0 as <-. vm_compute. repeat apply conj; reflexivity. }
    split; [exact Hthis |]. eapply pixel_eq_trans; eassumption.
Defined.

End DecoderMoreExamples.

(** ** The frame loop *)

Section FrameLoopFacts.
Import GifDecoder FrameScheduler FrameLoop.
Local Open Scope Z_scope.

Lemma frameAt_steady (s : Scheduler) :
  0 <= currentIndex s <= Z.max 0 (frameCount s - 1) -> frames s <> [] ->
  exists frame, frameAt (frames s) (currentIndex s) = Some frame.
Proof.
  intros Hi Hne. unfold frameCount in Hi.
  assert (Hlen : (0 < List.length (frames s))%nat).
  { destruct (frames s); [congruence | cbn; lia]. }
  destruct (frameAt (frames s) (currentIndex s)) as [frame |] eqn:E; [now exists frame |].
  exfalso. unfold frameAt in E. destruct (Z.ltb_spec (currentIndex s) 0); [lia |].
  apply nth_error_None in E. lia.
Qed.

Lemma next_index_range (i n : Z) : 0 <= i -> 0 < n -> 0 <= Z.rem (i + 1) n <= Z.max 0 (n - 1).
Proof.
  intros Hi Hn. rewrite Z.rem_mod_nonneg by lia.
  pose proof (Z.mod_pos_bound (i + 1) n Hn). lia.
Qed.

(** [tick] on a playing scheduler with nothing pending. *)
Lemma tick_steady (s : Scheduler) (h : Host) :
  (0 <= currentIndex s <= Z.max 0 (frameCount s - 1)) ->
  playing s = true -> frames s <> [] -> pendingFrames h = [] ->
  Forall carriesFrame (events h) ->
  steady (tick (s, h)) /\ Forall carriesFrame (events (snd (tick (s, h))))
  /\ frames (fst (tick (s, h))) = frames s.
Proof.
  intros Hi Hp Hne Hpend Hev.
  destruct (frameAt_steady s Hi Hne) as [frame Hf].
  assert (Hn : 0 < frameCount s).
  { unfold frameCount. destruct (frames s); [congruence | cbn; lia]. }
  unfold tick. rewrite Hp, Hf. cbn [negb].
  destruct (Qle_bool (inject_Z (delay frame)) (now h - lastFrameTime s)).
  - pose proof (next_index_range (currentIndex s) (frameCount s) (proj1 Hi) Hn) as Hnext.
    set (s1 := mkScheduler (frames s) (Z.rem (currentIndex s + 1) (frameCount s))
                 (animationId s) (now h) (playing s) (onFrame s)).
    assert (Hf1 : exists f1, frameAt (frames s1) (currentIndex s1) = Some f1).
    { apply frameAt_steady; [exact Hnext | exact Hne]. }
    destruct Hf1 as [f1 Hf1].
    cbn [steady requestAnimationFrame fst snd frames currentIndex animationId playing
         pendingFrames events frameCount nextHandle now onFrame].
    destruct (onFrame s) as [cb |];
      cbn [emit requestAnimationFrame fst snd frames currentIndex animationId playing
           pendingFrames events frameCount nextHandle now onFrame];
      rewrite Hpend; cbn [app].
    + split; [| split; [| reflexivity]].
      * split; [exact Hnext |]. split; [reflexivity |]. split; [reflexivity |].
        intros _. exact Hne.
      * apply Forall_app. split; [exact Hev |]. constructor; [| constructor].
        unfold s1 in Hf1. cbn [frames currentIndex] in Hf1. rewrite Hf1. cbn. apply Hnext.
    + split; [| split; [exact Hev | reflexivity]].
      split; [exact Hnext |]. split; [reflexivity |]. split; [reflexivity |].
      intros _. exact Hne.
  - cbn [steady requestAnimationFrame fst snd frames currentIndex animationId playing
         pendingFrames events frameCount nextHandle now onFrame].
    rewrite Hpend. cbn [app].
    split; [| split; [exact Hev | reflexivity]].
    split; [exact Hi |]. split; [reflexivity |]. split; [exact Hp |].
    intros _. exact Hne.
Qed.

(** The conjuncts of [steady] that the hypotheses settle. *)
Ltac settle :=
  unfold frameCount in *; cbn [frames] in *;
  repeat match goal with |- _ /\ _ => split end;
  try assumption; try reflexivity; try lia; try discriminate.

Lemma steady_call (sh : Scheduler * Host) (c : Call) :
  steady sh -> Forall carriesFrame (events (snd sh)) ->
  steady (call sh c) /\ Forall carriesFrame (events (snd (call sh c))).
Proof.
  destruct sh as [s h]. intros Hs Hev. cbn [snd] in Hev.
  pose proof Hs as [Hi [Hpend [Hplay Hne]]].
  destruct c as [| | | index | fs | cb | | dt]; cbn [call fst snd].
  - (* play *)
    unfold play.
    destruct (Z.eqb_spec (frameCount s) 0) as [E0 | N0]; cbn [orb]; [now split |].
    destruct (playing s) eqn:Ep; [now split |].
    assert (Hid : animationId s = None) by (destruct (animationId s); [discriminate | reflexivity]).
    rewrite Hid in Hpend.
    assert (Hfr : frames s <> []).
    { intros E. apply N0. unfold frameCount. now rewrite E. }
    destruct (tick_steady (mkScheduler (frames s) (currentIndex s) (animationId s) (now h)
                             true (onFrame s)) h) as [H1 [H2 _]]; try assumption; try reflexivity.
    now split.
  - (* pause *)
    unfold pause. destruct (animationId s) as [id |]; cbn [steady snd events cancelAnimationFrame
      currentIndex frames animationId playing pendingFrames frameCount].
    + rewrite Hpend. cbn [filter]. rewrite Z.eqb_refl. cbn [negb].
      settle.
    + settle.
  - (* stop *)
    unfold stop, pause. destruct (animationId s) as [id |]; cbn [steady snd events
      cancelAnimationFrame currentIndex frames animationId playing pendingFrames frameCount].
    + rewrite Hpend. cbn [filter]. rewrite Z.eqb_refl. cbn [negb].
      settle.
    + settle.
  - (* seek *)
    unfold seek, notify.
    cbn [steady snd currentIndex frames animationId playing frameCount onFrame].
    assert (Hr : 0 <= Z.max 0 (Z.min index (frameCount s - 1)) <= Z.max 0 (frameCount s - 1))
      by lia.
    destruct (onFrame s) as [cb |]; [| settle].
    destruct (frameAt (frames s) (Z.max 0 (Z.min index (frameCount s - 1)))) as [frame |] eqn:Ef;
      [| settle].
    cbn [emit pendingFrames events]. settle.
    apply Forall_app. split; [exact Hev |]. constructor; [cbn; lia | constructor].
  - (* setFrames *)
    unfold setFrames, stop, pause. destruct (animationId s) as [id |]; cbn [steady snd events
      cancelAnimationFrame currentIndex frames animationId playing pendingFrames frameCount].
    + rewrite Hpend. cbn [filter]. rewrite Z.eqb_refl. cbn [negb].
      settle.
    + settle.
  - (* setCallback *)
    unfold setCallback. cbn [steady currentIndex frames animationId playing frameCount].
    settle.
  - (* an animation frame *)
    unfold fire. destruct (pendingFrames h) as [| id rest] eqn:Ep; [now split |].
    destruct (animationId s) as [id' |]; [| discriminate].
    injection Hpend as -> ->.
    destruct (tick_steady s (mkHost (now h) (nextHandle h) [] (events h)))
      as [H1 [H2 _]]; try assumption; try reflexivity; [now apply Hne |].
    now split.
  - (* time passes *)
    cbn [elapse steady snd events pendingFrames]. settle.
Qed.

Lemma steady_calls (cs : list Call) (sh : Scheduler * Host) :
  steady sh -> Forall carriesFrame (events (snd sh)) ->
  steady (calls cs sh) /\ Forall carriesFrame (events (snd (calls cs sh))).
Proof.
  unfold calls. revert sh.
  induction cs as [| c cs IH]; intros sh Hs He; cbn [fold_left]; [now split |].
  destruct (steady_call sh c Hs He) as [Hs' He']. now apply IH.
Qed.

Lemma steady_boot : steady boot /\ Forall carriesFrame (events (snd boot)).
Proof.
  split; [| constructor]. cbn. settle.
Qed.

Lemma scheduler_invariant_after (history : list Call) (c : Call) :
  steady (call (calls history boot) c)
  /\ Forall carriesFrame (events (snd (call (calls history boot) c))).
Proof.
  destruct steady_boot as [Hs He].
  destruct (steady_calls history boot Hs He) as [Hs' He'].
  now apply steady_call.
Qed.

(** X15: on a fresh scheduler, under any sequence of the calls of [Call]
    ([play], [pause], [stop], [seek] with an integer index, [setFrames],
    [setCallback] with a callback that neither calls the scheduler nor
    throws, animation frames run by the browser, time passing), the frame
    index stays inside the frame list (0 when there is none), the loop is
    scheduled exactly while the scheduler is playing and then by one pending
    request only, it plays only when there are frames, and every call of
    the callback hands it a frame that exists.  ([seek] with a fractional
    index or [NaN] is outside this statement.) *)
Theorem scheduler_steady (cs : list Call) :
  steady (calls cs boot) /\ Forall carriesFrame (events (snd (calls cs boot))).
Proof.
  destruct steady_boot as [Hs He]. now apply steady_calls.
Qed.

(** With nothing pending, animation frames and time change nothing but
    the clock. *)
Lemma passive_idle (cs : list Call) (s : Scheduler) (h : Host) :
  forallb passive cs = true -> pendingFrames h = [] ->
  fst (calls cs (s, h)) = s
  /\ events (snd (calls cs (s, h))) = events h
  /\ pendingFrames (snd (calls cs (s, h))) = [].
Proof.
  revert h. unfold calls. induction cs as [| c cs IH]; intros h Hc Hp; cbn [fold_left].
  - now repeat split.
  - cbn [forallb] in Hc. apply andb_prop in Hc. destruct Hc as [Hc Hcs].
    destruct c; try discriminate Hc; cbn [call].
    + unfold fire. rewrite Hp. now apply IH.
    + cbn [elapse]. destruct (IH (mkHost (now h + dt) (nextHandle h) (pendingFrames h) (events h))
                               Hcs Hp) as [A [B C]].
      now repeat split.
Qed.

(** X16: [pause], [stop] and [setFrames] really stop the loop: after any
    history, once one of them has been called, no animation frame and no
    lapse of time moves the frame index or calls the callback, until
    something else is called. *)
Theorem paused_is_silent (history : list Call) (halt : Call) (later : list Call) :
  match halt with Pause | Stop | SetFrames _ => True | _ => False end ->
  forallb passive later = true ->
  let halted := call (calls history boot) halt in
  fst (calls later halted) = fst halted
  /\ events (snd (calls later halted)) = events (snd halted)
  /\ playing (fst halted) = false.
Proof.
  intros Hhalt Hlater halted.
  destruct (scheduler_invariant_after history halt) as [Hs Hp].
  assert (Hplay : playing (fst halted) = false).
  { unfold halted. destruct (calls history boot) as [s h].
    destruct halt; try contradiction; cbn [call];
      unfold setFrames, stop, pause; destruct (animationId s); reflexivity. }
  assert (Hpend : pendingFrames (snd halted) = []).
  { fold halted in Hs. destruct halted as [s h]. cbn [fst snd] in *.
    destruct Hs as [_ [Hpe [Hpl _]]]. rewrite Hplay in Hpl.
    destruct (animationId s); [discriminate | exact Hpe]. }
  destruct halted as [s h]. cbn [fst snd] in *.
  destruct (passive_idle later s h Hlater Hpend) as [A [B _]]. now repeat split.
Qed.

End FrameLoopFacts.

Section FrameLoopTiming.
Import GifDecoder FrameScheduler FrameLoop.
Local Open Scope Z_scope.

Lemma Qle_bool_ext (a b c : Q) : (b == c)%Q -> Qle_bool a b = Qle_bool a c.
Proof.
  intros E. destruct (Qle_bool a c) eqn:Ec.
  - apply Qle_bool_iff. rewrite E. now apply Qle_bool_iff.
  - destruct (Qle_bool a b) eqn:Eb; [| reflexivity].
    apply Qle_bool_iff in Eb. rewrite E in Eb. apply Qle_bool_iff in Eb. congruence.
Qed.

Lemma frameAt_Some_range (fs : list GifFrame) (i : Z) (frame : GifFrame) :
  frameAt fs i = Some frame -> 0 <= i < Z.of_nat (List.length fs).
Proof.
  unfold frameAt. destruct (Z.ltb_spec i 0); [discriminate |]. intros E.
  assert (H1 : (Z.to_nat i < List.length fs)%nat) by (apply nth_error_Some; congruence).
  lia.
Qed.


End FrameLoopTiming.

Section FrameLoopExamples.
Import GifDecoder FrameScheduler FrameLoop.
Local Open Scope Z_scope.

Lemma paused_is_silent_witness :
  let history := [SetFrames Fixtures.threeFrames; SetCallback 7%nat; Play; Elapse 100; Fire] in
  currentIndex (fst (calls history boot)) = 1
  /\ events (snd (calls (history ++ [Pause; Elapse 1000; Fire; Fire]) boot))
     = events (snd (calls history boot))
  /\ currentIndex (fst (calls (history ++ [Pause; Elapse 1000; Fire; Fire]) boot)) = 1.
Proof.
  intros history.
  destruct (paused_is_silent history Pause [Elapse 1000; Fire; Fire] I eq_refl) as [H1 [H2 _]].
  split; [reflexivity |].
  unfold calls in *. rewrite fold_left_app. cbn [fold_left] in *.
  split; [rewrite H2; reflexivity | rewrite H1; reflexivity].
Defined.


End FrameLoopExamples.
